(** * Bill send console: archive parsing, reconciliation, send route and
      audit log, embedded from the TypeScript sources.

    Strings are sequences of code units below 256 ([list ascii], read as the
    Latin-1 range of UTF-16): white space and case mapping are those of
    ECMAScript on that range.  Plain objects used as dictionaries
    ([Record<string, T>]) are finite maps of their own properties, read
    through [Js.member], which also finds what every object inherits. *)

From Stdlib Require Import Ascii String ZArith Lia.
From stdpp Require Import base option list sorting gmap strings.

Set Default Proof Using "Type".
Local Open Scope list_scope.

(** ** JavaScript string primitives used by the sources *)

Abbreviation str := (list ascii).

Definition lit (s : string) : str := list_ascii_of_string s.
Coercion lit : string >-> list.

Module Js.

Definition code (c : ascii) : nat := nat_of_ascii c.

Definition inRange (lo hi : nat) (c : ascii) : bool :=
  (lo <=? code c) && (code c <=? hi).

(** White space, for [trim] and for [\s]: TAB, LF, VT, FF, CR, space and the
    no-break space U+00A0 (the others, U+1680, U+2000 to U+200A, U+2028,
    U+2029, U+202F, U+205F, U+3000 and U+FEFF, are above 255). *)
Definition isSpace (c : ascii) : bool :=
  inRange 9 13 c || (code c =? 32) || (code c =? 160).

Definition isUpper (c : ascii) : bool := inRange 65 90 c.
Definition isLower (c : ascii) : bool := inRange 97 122 c.
Definition isDigit (c : ascii) : bool := inRange 48 57 c.
Definition isLetter (c : ascii) : bool := isUpper c || isLower c.

(** [\w]: letters, digits and the underscore. *)
Definition isWord (c : ascii) : bool :=
  isLetter c || isDigit c || (code c =? 95).

(** The capital letters of Latin-1, U+00C0 to U+00DE without the
    multiplication sign U+00D7. *)
Definition isUpperLatin1 (c : ascii) : bool :=
  inRange 192 222 c && negb (code c =? 215).

(** [toLowerCase] on one code unit. *)
Definition lowerChar (c : ascii) : ascii :=
  if isUpper c || isUpperLatin1 c then ascii_of_nat (code c + 32) else c.

Definition toLowerCase (s : str) : str := map lowerChar s.

Fixpoint trimStart (s : str) : str :=
  match s with
  | c :: s' => if isSpace c then trimStart s' else s
  | [] => []
  end.

Definition trimEnd (s : str) : str := rev (trimStart (rev s)).

Definition trim (s : str) : str := trimEnd (trimStart s).

Definition eqb (a b : str) : bool := bool_decide (a = b).

(** JavaScript truthiness of a string: non-empty. *)
Definition truthy (s : str) : bool :=
  match s with [] => false | _ :: _ => true end.

Fixpoint startsWith (s p : str) : bool :=
  match p, s with
  | [], _ => true
  | a :: p', b :: s' => bool_decide (a = b) && startsWith s' p'
  | _ :: _, [] => false
  end.

Definition endsWith (s p : str) : bool := startsWith (rev s) (rev p).

(** [s.indexOf(c)] for a one-character needle; [-1] when absent. *)
Fixpoint indexOf (s : str) (c : ascii) : Z :=
  match s with
  | [] => (-1)%Z
  | a :: s' =>
      if bool_decide (a = c) then 0%Z
      else let i := indexOf s' c in
           if (i <? 0)%Z then (-1)%Z else (i + 1)%Z
  end.

Definition includesChar (s : str) (c : ascii) : bool :=
  (0 <=? indexOf s c)%Z.

(** [s.slice(start, end)], with negative indices counted from the end. *)
Definition clampIndex (len i : Z) : Z :=
  if (i <? 0)%Z then Z.max (len + i) 0 else Z.min i len.

Definition slice (s : str) (from to : Z) : str :=
  let len := Z.of_nat (length s) in
  let a := clampIndex len from in
  let b := clampIndex len to in
  take (Z.to_nat (b - a)) (drop (Z.to_nat a) s).

Definition sliceFrom (s : str) (from : Z) : str :=
  slice s from (Z.of_nat (length s)).

(** [s.split(c)]: always at least one part. *)
Fixpoint split (s : str) (c : ascii) : list str :=
  match s with
  | [] => [[]]
  | a :: s' =>
      if bool_decide (a = c) then [] :: split s' c
      else match split s' c with
           | p :: ps => (a :: p) :: ps
           | [] => [[a]]
           end
  end.

(** [s.replace(/c/g, "")] for a one-character pattern. *)
Definition removeChar (s : str) (c : ascii) : str :=
  filter (fun a => a ≠ c) s.

(** [Array.from(new Set(...))]: first occurrences, in order. *)
Fixpoint dedup (seen : list str) (keys : list str) : list str :=
  match keys with
  | [] => []
  | k :: rest =>
      if bool_decide (k ∈ seen) then dedup seen rest
      else k :: dedup (k :: seen) rest
  end.

(** A string is falsy when empty, and so is [null]. *)
Definition nonEmpty (s : str) : option str :=
  if truthy s then Some s else None.

(** *** Plain objects used as dictionaries

    An object made by [{}] inherits the members of [Object.prototype]:
    [obj[key]] finds them when [obj] has no own property [key]. *)

Definition objectPrototype : list str :=
  [ lit "constructor"; lit "__defineGetter__"; lit "__defineSetter__";
    lit "hasOwnProperty"; lit "__lookupGetter__"; lit "__lookupSetter__";
    lit "isPrototypeOf"; lit "propertyIsEnumerable"; lit "toString";
    lit "valueOf"; lit "__proto__"; lit "toLocaleString" ].

Inductive Member (T : Type) :=
| Own (v : T)        (* an own property *)
| Inherited          (* a member of [Object.prototype]: truthy *)
| Missing.           (* [undefined] *)

Arguments Own {T} v.
Arguments Inherited {T}.
Arguments Missing {T}.

(** [obj[key]] *)
Definition member {T} (obj : gmap str T) (key : str) : Member T :=
  match obj !! key with
  | Some v => Own v
  | None => if bool_decide (key ∈ objectPrototype) then Inherited else Missing
  end.

(** [obj[key] = v]: [__proto__] is an accessor, assigning to it stores no
    property. *)
Definition assign {T} (obj : gmap str T) (key : str) (v : T) : gmap str T :=
  if bool_decide (key = lit "__proto__") then obj else <[key := v]> obj.

(** [obj[key]?.name] for an inherited member: the name of the function,
    [Object] for [constructor]; [Object.prototype] itself, under [__proto__],
    has none. *)
Definition memberName (key : str) : option str :=
  if bool_decide (key = lit "constructor") then Some (lit "Object")
  else if bool_decide (key = lit "__proto__") then None
  else Some key.

End Js.

(** ** Regular expressions

    The two patterns of the send route are concatenations of character
    classes, greedy repetitions of a class, anchors and word boundaries.
    [run] follows the backtracking order of the JavaScript matcher: a greedy
    repetition first takes as many characters as it can and gives them back
    one at a time while the rest of the pattern fails.  The result is the
    number of characters matched. *)

Module Regex.

Inductive atom :=
| Class (p : ascii → bool)              (* one character of a class *)
| Many (min : nat) (p : ascii → bool)   (* [class]{min,}, greedy *)
| WordBoundary                          (* \b *)
| Begin                                 (* ^ *)
| End_.                                 (* $ *)

Definition regex := list atom.

Definition isWordOpt (c : option ascii) : bool :=
  match c with Some a => Js.isWord a | None => false end.

(** [\b] holds between a word character and a non-word character (or an
    end of the input). *)
Definition atBoundary (prev : option ascii) (s : str) : bool :=
  xorb (isWordOpt prev) (isWordOpt (head s)).

Fixpoint greedy (p : ascii → bool) (k : option ascii → str → option nat)
    (min : nat) (prev : option ascii) (s : str) : option nat :=
  match s with
  | c :: s' =>
      if p c then
        match greedy p k (pred min) (Some c) s' with
        | Some n => Some (S n)
        | None => if Nat.eqb min 0 then k prev s else None
        end
      else if Nat.eqb min 0 then k prev s else None
  | [] => if Nat.eqb min 0 then k prev s else None
  end.

Fixpoint run (r : regex) (prev : option ascii) (s : str) : option nat :=
  match r with
  | [] => Some 0
  | Class p :: r' =>
      match s with
      | c :: s' => if p c then S <$> run r' (Some c) s' else None
      | [] => None
      end
  | Many min p :: r' => greedy p (run r') min prev s
  | WordBoundary :: r' => if atBoundary prev s then run r' prev s else None
  | Begin :: r' =>
      match prev with None => run r' prev s | Some _ => None end
  | End_ :: r' =>
      match s with [] => run r' prev s | _ :: _ => None end
  end.

(** [r.test(s)]: a match starting at some position, leftmost first. *)
Fixpoint testFrom (r : regex) (prev : option ascii) (s : str) : bool :=
  match run r prev s with
  | Some _ => true
  | None =>
      match s with
      | c :: s' => testFrom r (Some c) s'
      | [] => false
      end
  end.

Definition test (r : regex) (s : str) : bool := testFrom r None s.

(** [s.replace(r, f)] for a global pattern that matches no empty string:
    the matches are found left to right, the search resuming where the
    previous match ended.  [skip] counts the characters of the current match
    still to be passed over. *)
Fixpoint replaceFrom (r : regex) (f : str → str) (prev : option ascii)
    (skip : nat) (s : str) : str :=
  match s with
  | [] => []
  | c :: s' =>
      match skip with
      | S n => replaceFrom r f (Some c) n s'
      | O =>
          match run r prev s with
          | Some (S n) => f (take (S n) s) ++ replaceFrom r f (Some c) n s'
          | _ => c :: replaceFrom r f (Some c) 0 s'
          end
      end
  end.

Definition replace (r : regex) (f : str → str) (s : str) : str :=
  replaceFrom r f None 0 s.

End Regex.

(** ** JSON values, as [JSON.parse] returns them *)

Module Json.

#[warnings="-register-all"]
Inductive value :=
| Null
| Bool (b : bool)
| Num (rendering : str)      (* a number, carried as [String(n)] renders it *)
| Str (s : str)
| Arr (items : list value)
| Obj (fields : list (str * value)).

(** Reading a property: [undefined] on a primitive or when the key is
    absent, a [TypeError] on [null]. *)
Inductive access :=
| Throws
| Undefined
| Got (v : value).

Fixpoint lookupField (fields : list (str * value)) (k : str) : access :=
  match fields with
  | [] => Undefined
  | (k', v) :: rest =>
      match lookupField rest k with
      | Undefined => if bool_decide (k' = k) then Got v else Undefined
      | found => found
      end
  end.

(** Only the non-builtin keys the sources read ([trade_date], [success],
    [key], [pdf]) are looked up, so arrays and primitives have none. *)
Definition prop (v : value) (k : str) : access :=
  match v with
  | Null => Throws
  | Obj fields => lookupField fields k
  | _ => Undefined
  end.

Definition isArray (a : access) : option (list value) :=
  match a with Got (Arr items) => Some items | _ => None end.

Definition isString (a : access) : option str :=
  match a with Got (Str s) => Some s | _ => None end.

(** [item !== null && typeof item === "object"] *)
Definition isObject (v : value) : bool :=
  match v with Arr _ | Obj _ => true | _ => false end.

Fixpoint join (parts : list str) : str :=
  match parts with
  | [] => []
  | [p] => p
  | p :: rest => p ++ lit "," ++ join rest
  end.

Definition hasOwn (fields : list (str * value)) (k : str) : bool :=
  bool_decide (k ∈ map fst fields).

(** [String(v)]; [None] when it raises a [TypeError]: an object with an own
    [toString] property, which no JSON value makes callable, cannot be
    converted, and an array cannot when one of its items cannot. *)
Fixpoint toString (v : value) : option str :=
  match v with
  | Null => Some (lit "null")
  | Bool true => Some (lit "true")
  | Bool false => Some (lit "false")
  | Num r => Some r
  | Str s => Some s
  | Arr items =>
      join <$> mapM (fun i => match i with Null => Some [] | _ => toString i end)
                 items
  | Obj fields =>
      if hasOwn fields "toString" then None else Some (lit "[object Object]")
  end.

(** [String(a ?? "")]; [None] when reading [a] or converting it raises. *)
Definition stringOrEmpty (a : access) : option str :=
  match a with
  | Throws => None
  | Got Null | Undefined => Some []
  | Got v => toString v
  end.

End Json.

(** ** The uploaded archive *)

Record ZipEntry := {
  name : str;
  dir : bool;
  content : str
}.

(** [zip.files], in the order [Object.values] enumerates it. *)
Abbreviation Zip := (list ZipEntry).

(** [zip.file(path)]: the entry stored under exactly that name, unless it is
    a directory. *)
Definition zipFile (zip : Zip) (path : str) : option ZipEntry :=
  match find (fun e => bool_decide (name e = path)) zip with
  | Some e => if dir e then None else Some e
  | None => None
  end.

(** ** The upload and send console *)

Inductive ParseSource := manifest | fallback.

Inductive RowStatus := Pending | Blocked.

Record ParsedBillRow := {
  account_key : str;
  pdf_filename : str;
  zip_entry_path : str;
  trade_date : option str
}.

Record BillRow := {
  parsed :> ParsedBillRow;
  contact_name : option str;
  contact_email : option str;
  status : RowStatus
}.

Inductive SendState := idle | sending | sent | failed.

Record RowSendState := {
  send_state : SendState;
  send_error : option str
}.

Record Contact := {
  c_account_key : str;
  c_name : option str;
  c_email : str;
  c_updated_at : str
}.

#[global] Instance ParseSource_eq_dec : EqDecision ParseSource.
Proof. solve_decision. Defined.
#[global] Instance RowStatus_eq_dec : EqDecision RowStatus.
Proof. solve_decision. Defined.
#[global] Instance ParsedBillRow_eq_dec : EqDecision ParsedBillRow.
Proof. solve_decision. Defined.
#[global] Instance BillRow_eq_dec : EqDecision BillRow.
Proof. solve_decision. Defined.
#[global] Instance SendState_eq_dec : EqDecision SendState.
Proof. solve_decision. Defined.


(** ** The backend: identity provider, contact store, send log, mail
    provider

    The collaborators are outside the repository.  Their answers are given
    by oracles indexed by a call counter ([tick]), so that every call may
    answer differently; what the code does with them is recorded in a
    chronological [trace]. *)

Inductive LogStatus := log_sent | log_failed.

#[global] Instance LogStatus_eq_dec : EqDecision LogStatus.
Proof. solve_decision. Defined.

(** The text stored in the [status] column. *)
Definition statusText (s : LogStatus) : str :=
  match s with log_sent => lit "sent" | log_failed => lit "failed" end.

Record SendLogInput := {
  log_zip_filename : str;
  log_account_key : str;
  log_trade_date : option str;
  log_to_email : str;
  log_to_name : option str;
  log_status : LogStatus;
  log_error : option str;
  log_message_id : option str;
  log_sent_by_auth_user_id : str
}.

(** A row of [send_logs]: the inserted columns and the instant the store
    assigned to [sent_at] (a [timestamptz], modelled by its instant). *)
Record SendLogRow := {
  sent_at : N;
  inserted :> SendLogInput
}.

(** The parameters of the MIME message handed to the mail provider (the
    route sends their [base64url] rendering). *)
Record MimeParams := {
  mime_from : str;
  mime_to : str;
  mime_subject : str;
  mime_text : str;
  mime_filename : str;
  mime_pdfBuffer : str
}.

Inductive Thrown :=
| ErrorWith (message : str)     (* an [Error] and its message *)
| NotAnError.                   (* any other thrown value *)

Record SendResult := {
  data_id : option str;
  data_threadId : option str
}.

Inductive GmailOutcome :=
| Resolves (r : SendResult)
| Rejects (e : Thrown).

Record User := {
  user_id : str;
  user_email : option str
}.

Record Session := {
  claimsError : bool;
  claims : bool;                 (* [claimsData?.claims] is present *)
  user : option User;
  profile_role : option str      (* the [role] of the user's profile row *)
}.

Record ProcessEnv := {
  ALPHA_TECH_X_ADMIN_EMAILS : option str;
  GMAIL_CLIENT_ID : option str;
  GMAIL_CLIENT_SECRET : option str;
  GMAIL_REDIRECT_URI : option str;
  GMAIL_REFRESH_TOKEN : option str;
  GMAIL_SENDER_EMAIL : option str
}.

(** Library functions of the platform. *)
Record Platform := {
  JSON_parse : str → option Json.value;      (* [None]: a [SyntaxError] *)
  base64Decode : str → str;                  (* [Buffer.from(s, "base64")] *)
  toBase64 : str → option str                (* [None]: the reader fails *)
}.

(** What becomes of a [fetch]: the request reaches the route and the answer
    comes back, or it never arrives, or the answer is lost on the way back. *)
Inductive Network :=
| Delivered
| Dropped (e : Thrown)
| AnswerLost (e : Thrown).

Record Oracle := {
  session : nat → Session;
  storeError : nat → bool;
  clock : nat → N;
  gmail : nat → MimeParams → GmailOutcome;
  network : nat → Network
}.

Inductive Event :=
| GmailSend (request : Json.value) (raw : MimeParams)
    (* [gmail.users.messages.send], and the request body it serves *)
| LogInsert (log : SendLogInput)
| GetLastSendStatus (zip_filename : str) (accountKeys : list str)
    (* [getLastSendStatusForZip] is called *)
| LogSelect (zip : str) (keys : list str)
| ContactsSelect (keys : list str)
| Fetch (body : Json.value)
| RowStates (m : gmap str RowSendState).   (* [rowSendStates] after an update *)

Record World := {
  tick : nat;
  send_logs : list SendLogRow;
  contacts : list Contact;
  trace : list Event
}.

(** A small state monad over the world. *)
Definition Eff (S A : Type) : Type := S → A * S.

Definition ret {S A} (a : A) : Eff S A := fun s => (a, s).

Definition bind {S A B} (m : Eff S A) (k : A → Eff S B) : Eff S B :=
  fun s => let (a, s') := m s in k a s'.

Declare Scope eff_scope.
Delimit Scope eff_scope with eff.
Notation "x <- m ;; k" := (bind m (fun x => k))
  (at level 20, m at level 99, k at level 200, only parsing) : eff_scope.
Notation "m ;; k" := (bind m (fun _ => k))
  (at level 100, k at level 200, only parsing, right associativity) : eff_scope.

Definition nextTick : Eff World nat :=
  fun w => (tick w,
            {| tick := S (tick w); send_logs := send_logs w;
               contacts := contacts w; trace := trace w |}).

Definition emit (e : Event) : Eff World unit :=
  fun w => (tt,
            {| tick := tick w; send_logs := send_logs w;
               contacts := contacts w; trace := trace w ++ [e] |}).

Definition appendLog (row : SendLogRow) : Eff World unit :=
  fun w => (tt,
            {| tick := tick w; send_logs := send_logs w ++ [row];
               contacts := contacts w; trace := trace w |}).

Definition getWorld : Eff World World := fun w => (w, w).

(** ** Authorization ([lib/auth]) *)

Module Auth.

Definition isAuthenticated (s : Session) : bool :=
  negb (claimsError s) && claims s.

Definition normalizedAllowlist (env : ProcessEnv) : list str :=
  filter (fun v => Js.truthy v = true)
    (map (fun value => Js.toLowerCase (Js.trim value))
       (Js.split (default [] (ALPHA_TECH_X_ADMIN_EMAILS env)) ",")).

Definition isAdminEmail (env : ProcessEnv) (email : option str) : bool :=
  match email with
  | Some e =>
      Js.truthy e &&
      bool_decide (Js.toLowerCase (Js.trim e) ∈ normalizedAllowlist env)
  | None => false
  end.

Definition isAdminRole (role : option str) : bool :=
  bool_decide (Js.toLowerCase (default [] role) = lit "admin").

Definition hasAdminAccess (env : ProcessEnv) (email role : option str) : bool :=
  isAdminEmail env email || isAdminRole role.

(** The role of the profile row of [authUserId], [null] without an id. *)
Definition getProfileForAuthUser (s : Session) (authUserId : option str)
    : option str :=
  match authUserId with
  | Some i => if Js.truthy i then profile_role s else None
  | None => None
  end.

Definition isAdminSession (env : ProcessEnv) (s : Session) : bool :=
  if negb (isAuthenticated s) then false
  else
    let role := getProfileForAuthUser s (user_id <$> user s) in
    hasAdminAccess env (user s ≫= user_email) role.

End Auth.

(** ** Server actions ([app/actions]) *)

Record LastSendStatus := {
  ls_status : option LogStatus;
  ls_sent_at : option N
}.

(** The columns [account_key,status,sent_at] of a selected log row. *)
Record LogQueryRow := {
  q_account_key : str;
  q_status : str;
  q_sent_at : N
}.

Module Actions.

Definition normalizeZipFilename (value : str) : str := Js.trim value.

Definition normalizeAccountKey (value : str) : str := Js.trim value.

Definition normalizeAccountKeys (accountKeys : list str) : list str :=
  Js.dedup []
    (filter (fun k => Js.truthy k = true) (map normalizeAccountKey accountKeys)).

Definition newerFirst (a b : LogQueryRow) : Prop :=
  (q_sent_at b <= q_sent_at a)%N.

#[global] Instance newerFirst_dec : RelDecision newerFirst.
Proof. intros a b. unfold newerFirst. apply _. Defined.

(** [from("send_logs").select("account_key,status,sent_at")
      .eq("zip_filename", z).in("account_key", keys)
      .order("sent_at", { ascending: false })] *)
Definition selectSendLogs (logs : list SendLogRow) (z : str) (keys : list str)
    : list LogQueryRow :=
  merge_sort newerFirst
    (map (fun r : SendLogRow => {| q_account_key := log_account_key r;
                      q_status := statusText (log_status r);
                      q_sent_at := sent_at r |})
       (filter (fun r : SendLogRow => log_zip_filename r = z ∧ log_account_key r ∈ keys)
          logs)).

Definition narrowStatus (s : str) : option LogStatus :=
  if bool_decide (s = lit "sent") then Some log_sent
  else if bool_decide (s = lit "failed") then Some log_failed
  else None.

(** The body of the [reduce] of [getLastSendStatusForZip].  [acc[accountKey]]
    is truthy for an own property and for an inherited member alike. *)
Definition lastStatusStep (acc : gmap str LastSendStatus) (row : LogQueryRow)
    : gmap str LastSendStatus :=
  let accountKey := normalizeAccountKey (q_account_key row) in
  if negb (Js.truthy accountKey) ||
     match Js.member acc accountKey with Js.Missing => false | _ => true end
  then acc
  else
    let status := narrowStatus (q_status row) in
    Js.assign acc accountKey
      {| ls_status := status; ls_sent_at := Some (q_sent_at row) |}.

Definition lastStatusReduce (data : list LogQueryRow) : gmap str LastSendStatus :=
  foldl lastStatusStep ∅ data.

Definition getLastSendStatusForZip (env : ProcessEnv) (o : Oracle)
    (zip_filename : str) (accountKeys : list str)
    : Eff World (gmap str LastSendStatus) :=
  (emit (GetLastSendStatus zip_filename accountKeys) ;;
   t <- nextTick ;;
   if negb (Auth.isAdminSession env (session o t)) then ret ∅ else
   let zipFilename := normalizeZipFilename zip_filename in
   let normalizedKeys := normalizeAccountKeys accountKeys in
   if negb (Js.truthy zipFilename) || (length normalizedKeys =? 0) then ret ∅
   else
     emit (LogSelect zipFilename normalizedKeys) ;;
     t' <- nextTick ;;
     w <- getWorld ;;
     if storeError o t' then ret ∅
     else ret (lastStatusReduce (selectSendLogs (send_logs w) zipFilename
                                   normalizedKeys)))%eff.

(** [from("contacts").select(...).in("account_key", keys)] *)
Definition selectContacts (cs : list Contact) (keys : list str) : list Contact :=
  filter (fun c => c_account_key c ∈ keys) cs.

Definition getContactsByKeys (env : ProcessEnv) (o : Oracle)
    (accountKeys : list str) : Eff World (gmap str Contact) :=
  (t <- nextTick ;;
   if negb (Auth.isAdminSession env (session o t)) then ret ∅ else
   let normalizedKeys := normalizeAccountKeys accountKeys in
   if length normalizedKeys =? 0 then ret ∅
   else
     emit (ContactsSelect normalizedKeys) ;;
     t' <- nextTick ;;
     w <- getWorld ;;
     if storeError o t' then ret ∅
     else ret (foldl (fun acc contact =>
                        Js.assign acc (c_account_key contact) contact)
                 ∅ (selectContacts (contacts w) normalizedKeys)))%eff.

End Actions.

(** ** The send route: [/api/send-email] *)

Module Route.
Import Regex.

Definition isChar (x : string) (c : ascii) : bool :=
  match x with
  | String a EmptyString => bool_decide (a = c)
  | _ => false
  end.

Definition oneOf (x : string) (c : ascii) : bool :=
  bool_decide (c ∈ lit x).

(** [[^\s@]] *)
Definition notSpaceAt (c : ascii) : bool :=
  negb (Js.isSpace c || isChar "@" c).

(** [/^[^\s@]+@[^\s@]+\.[^\s@]+$/] *)
Definition EMAIL_PATTERN : regex :=
  [ Begin; Many 1 notSpaceAt; Class (isChar "@"); Many 1 notSpaceAt;
    Class (isChar "."); Many 1 notSpaceAt; End_ ].

(** Classes of [EMAIL_IN_TEXT_PATTERN]; the [i] flag makes the letter
    ranges match both cases. *)
Definition localClass (c : ascii) : bool :=
  Js.isLetter c || Js.isDigit c || oneOf "._%+-" c.

Definition domainClass (c : ascii) : bool :=
  Js.isLetter c || Js.isDigit c || oneOf ".-" c.

(** [/\b[A-Z0-9._%+-]+@[A-Z0-9.-]+\.[A-Z]{2,}\b/gi] *)
Definition EMAIL_IN_TEXT_PATTERN : regex :=
  [ WordBoundary; Many 1 localClass; Class (isChar "@"); Many 1 domainClass;
    Class (isChar "."); Many 2 Js.isLetter; WordBoundary ].

Definition maskEmail (email : str) : str :=
  let normalized := Js.toLowerCase (Js.trim email) in
  let parts := Js.split normalized "@" in
  let local := default [] (parts !! 0) in
  let domain := default [] (parts !! 1) in
  if negb (Js.truthy local) || negb (Js.truthy domain) then lit "***"
  else if length local <=? 2
       then take 1 local ++ lit "***@" ++ domain
       else Js.slice local 0 2 ++ lit "***@" ++ domain.

Definition sanitizeErrorMessage (message : str) : str :=
  replace EMAIL_IN_TEXT_PATTERN maskEmail message.



Record Payload := {
  p_ok : bool;
  p_provider : str;
  p_error : option str;
  p_dryRun : bool;
  p_id : option str;
  p_threadId : option str;
  p_messageId : option str
}.

(** [payload] is [None] when the handler raised and the framework answered
    without a JSON body (see [unhandled]). *)
Record Response := {
  http_status : nat;
  payload : option Payload
}.

Record Request := {
  searchParams : list (str * str);      (* of [new URL(request.url)] *)
  request_json : option Json.value      (* [None]: [request.json()] rejects *)
}.

(** [URLSearchParams.get]: the first value of the name. *)
Definition searchParams_get (ps : list (str * str)) (k : str) : option str :=
  snd <$> find (fun p => bool_decide (fst p = k)) ps.

Definition failure (status : nat) (error : str) : Response :=
  {| http_status := status;
     payload := Some {| p_ok := false; p_provider := lit "gmail";
                        p_error := Some error; p_dryRun := false;
                        p_id := None; p_threadId := None;
                        p_messageId := None |} |}.

Definition badRequest (error : str) : Response := failure 400 error.

Definition notAuthorized : Response := failure 401 "Not authorized.".

Definition unhandled : Response := {| http_status := 500; payload := None |}.

(** [None] when [String(value ?? "")] raises. *)
Definition toStringOrEmpty (value : Json.access) : option str :=
  Js.trim <$> Json.stringOrEmpty value.

(** What [POST] reads from the body before its first check. *)
Record Fields := {
  b_zip_filename : str;
  b_account_key : str;
  b_trade_date : str;
  b_to_email : str;
  b_to_name : str;
  b_filename : str;
  b_pdf_base64 : str
}.

(** The seven calls of [toStringOrEmpty]: [None] when one of them raises, a
    [TypeError] no [try] of the handler encloses. *)
Definition readFields (body : Json.value) : option Fields :=
  zip_filename ← toStringOrEmpty (Json.prop body "zip_filename");
  account_key ← toStringOrEmpty (Json.prop body "account_key");
  trade_date ← toStringOrEmpty (Json.prop body "trade_date");
  to_email ← toStringOrEmpty (Json.prop body "to_email");
  to_name ← toStringOrEmpty (Json.prop body "to_name");
  filename ← toStringOrEmpty (Json.prop body "filename");
  pdf_base64 ← toStringOrEmpty (Json.prop body "pdf_base64");
  Some {| b_zip_filename := zip_filename; b_account_key := account_key;
          b_trade_date := trade_date; b_to_email := to_email;
          b_to_name := to_name; b_filename := filename;
          b_pdf_base64 := pdf_base64 |}.

Definition dquote : ascii := ascii_of_nat 34.
Definition newline : ascii := ascii_of_nat 10.

(** The last line of the message body.  The three characters the source
    literal starts with (U+00E2, U+20AC, U+201D) are carried as the eight
    bytes of their UTF-8 encoding, two of them being above 255; the text is
    only ever appended to. *)
Definition SIGNATURE : str :=
  map ascii_of_nat [195; 162; 226; 130; 172; 226; 128; 157] ++ lit " ALPHA-TECH X".

Definition writeSendLog (o : Oracle) (log : SendLogInput) : Eff World unit :=
  (emit (LogInsert log) ;;
   t <- nextTick ;;
   if storeError o t then ret tt
   else appendLog {| sent_at := clock o t; inserted := log |})%eff.

Definition getRequiredEnv (name : string) (value : option str) : str + str :=
  let v := Js.trim <$> value in
  match v with
  | Some x => if Js.truthy x then inr x else inl (lit name ++ lit " is missing.")
  | None => inl (lit name ++ lit " is missing.")
  end.

(** [getGmailClient()]: [Some message] when it throws. *)
Definition getGmailClient (env : ProcessEnv) : option str :=
  match getRequiredEnv "GMAIL_CLIENT_ID" (GMAIL_CLIENT_ID env) with
  | inl m => Some m
  | inr _ =>
  match getRequiredEnv "GMAIL_CLIENT_SECRET" (GMAIL_CLIENT_SECRET env) with
  | inl m => Some m
  | inr _ =>
  match getRequiredEnv "GMAIL_REDIRECT_URI" (GMAIL_REDIRECT_URI env) with
  | inl m => Some m
  | inr _ =>
  match getRequiredEnv "GMAIL_REFRESH_TOKEN" (GMAIL_REFRESH_TOKEN env) with
  | inl m => Some m
  | inr _ =>
  match getRequiredEnv "GMAIL_SENDER_EMAIL" (GMAIL_SENDER_EMAIL env) with
  | inl m => Some m
  | inr _ => None
  end end end end end.

(** The [catch] clause of the transport call. *)
Definition onTransportError (o : Oracle) (log : LogStatus → option str →
    option str → SendLogInput) (error : Thrown) : Eff World Response :=
  let message :=
    sanitizeErrorMessage
      match error with
      | ErrorWith m =>
          if Js.truthy (Js.trim m) then m else lit "Failed to send email."
      | NotAnError => lit "Failed to send email."
      end in
  (writeSendLog o (log log_failed (Some message) None) ;;
   ret (failure 500 message))%eff.

(** What [POST] does once the fields [f] of the body have been read:
    validation, the sender configuration, the dry run and the transport
    call. *)
Definition handle (lib : Platform) (env : ProcessEnv) (o : Oracle)
    (request : Request) (user : User) (body : Json.value) (f : Fields)
    : Eff World Response :=
  (
   let zipFilename := b_zip_filename f in
   let accountKey := b_account_key f in
   let tradeDateRaw := b_trade_date f in
   let tradeDate := if Js.truthy tradeDateRaw then Some tradeDateRaw else None in
   let toEmail := Js.toLowerCase (b_to_email f) in
   let toNameRaw := b_to_name f in
   let toName := if Js.truthy toNameRaw then Some toNameRaw else None in
   let filename := b_filename f in
   let pdfBase64 := b_pdf_base64 f in
   if negb (Js.truthy zipFilename) then ret (badRequest "zip_filename is required.")
   else
   if negb (Js.truthy accountKey) then ret (badRequest "account_key is required.")
   else
   if negb (test EMAIL_PATTERN toEmail) || negb (Js.includesChar toEmail "@")
   then ret (badRequest "to_email must be a valid email address.") else
   if negb (Js.endsWith (Js.toLowerCase filename) ".pdf")
   then ret (badRequest "filename must end with .pdf.") else
   if negb (Js.truthy pdfBase64) then ret (badRequest "pdf_base64 is required.")
   else
   let pdfBuffer := base64Decode lib pdfBase64 in
   if length pdfBuffer =? 0
   then ret (badRequest "pdf attachment must be non-empty.") else
   let log status error message_id :=
     {| log_zip_filename := zipFilename;
        log_account_key := accountKey;
        log_trade_date := tradeDate;
        log_to_email := toEmail;
        log_to_name := toName;
        log_status := status;
        log_error := error;
        log_message_id := message_id;
        log_sent_by_auth_user_id := user_id user |} in
   let senderEmail := Js.trim <$> GMAIL_SENDER_EMAIL env in
   match (match senderEmail with
          | Some e => if Js.truthy e && test EMAIL_PATTERN e then Some e else None
          | None => None
          end) with
   | None =>
       let message := lit "GMAIL_SENDER_EMAIL is missing or invalid." in
       writeSendLog o (log log_failed (Some message) None) ;;
       ret (failure 500 message)
   | Some senderEmail =>
   let dryRun :=
     bool_decide (searchParams_get (searchParams request) "dryRun" = Some (lit "1")) in
   if dryRun
   then ret {| http_status := 200;
               payload := Some {| p_ok := true; p_provider := lit "gmail";
                                  p_error := None; p_dryRun := true;
                                  p_id := None; p_threadId := None;
                                  p_messageId := None |} |}
   else
   let toAddress :=
     match toName with
     | Some n => [dquote] ++ Js.removeChar n dquote ++ [dquote] ++ lit " <"
                 ++ toEmail ++ lit ">"
     | None => toEmail
     end in
   let subject :=
     lit "Bill " ++ accountKey ++
     match tradeDate with Some d => lit " " ++ d | None => [] end in
   let text :=
     lit "Hi " ++ default accountKey toName ++ lit "," ++ [newline; newline]
     ++ lit "Attached is your bill"
     ++ match tradeDate with Some d => lit " for " ++ d | None => [] end
     ++ lit "." ++ [newline; newline] ++ SIGNATURE in
   match getGmailClient env with
   | Some m => onTransportError o log (ErrorWith m)
   | None =>
   let raw :=
     {| mime_from := senderEmail; mime_to := toAddress;
        mime_subject := subject; mime_text := text;
        mime_filename := filename; mime_pdfBuffer := pdfBuffer |} in
   emit (GmailSend body raw) ;;
   t' <- nextTick ;;
   match gmail o t' raw with
   | Rejects e => onTransportError o log e
   | Resolves sendResult =>
   let messageId := data_id sendResult ≫= Js.nonEmpty in
   let threadId := data_threadId sendResult in
   match messageId with
   | None =>
       let message := lit "Failed to send email." in
       writeSendLog o (log log_failed (Some message) None) ;;
       ret (failure 500 message)
   | Some mid =>
       writeSendLog o (log log_sent None (Some mid)) ;;
       ret {| http_status := 200;
              payload := Some {| p_ok := true; p_provider := lit "gmail";
                                 p_error := None; p_dryRun := false;
                                 p_id := Some mid; p_threadId := threadId;
                                 p_messageId := Some mid |} |}
   end end end end)%eff.

Definition POST (lib : Platform) (env : ProcessEnv) (o : Oracle)
    (request : Request) : Eff World Response :=
  (t <- nextTick ;;
   let s := session o t in
   if negb (Auth.isAuthenticated s) then ret notAuthorized else
   match user s with
   | None => ret notAuthorized
   | Some user =>
   let profile_role := Auth.getProfileForAuthUser s (Some (user_id user)) in
   if negb (Auth.hasAdminAccess env (user_email user) profile_role)
   then ret notAuthorized else
   match request_json request with
   | None => ret (badRequest "Invalid request body.")
   | Some body =>
   match readFields body with
   | None => ret unhandled
   | Some f => handle lib env o request user body f
   end end end)%eff.

End Route.

(** ** The upload and send console ([components/upload-send-console.tsx])

    A handler of the component reads the values of the render it was created
    in (the [snap] argument below) and changes the live state through the
    functional setters; [zipRef.current] is read from the live state. *)

Record ZipSummary := {
  zipFilename : str;
  rowCount : nat;
  source : ParseSource
}.

Record State := {
  zipRef : option Zip;
  rows : list BillRow;
  rowSendStates : gmap str RowSendState;
  selectedRowIds : gmap str bool;
  skipAlreadySent : bool;
  lastLogStatusByKey : gmap str LastSendStatus;
  summary : option ZipSummary;
  messages : list str;
  isParsingZip : bool;
  isSendingAll : bool;
  actionError : str
}.

Record Sys := {
  ui : State;
  world : World
}.

(** The values the component starts with ([useState], [useRef]). *)
Definition initialState : State :=
  {| zipRef := None; rows := []; rowSendStates := ∅; selectedRowIds := ∅;
     skipAlreadySent := true; lastLogStatusByKey := ∅; summary := None;
     messages := []; isParsingZip := false; isSendingAll := false;
     actionError := [] |}.

(** An uploaded file: its name and what [JSZip.loadAsync] makes of it. *)
Record File := {
  file_name : str;
  loadAsync : Zip + Thrown
}.

Module Console.


Definition getBaseName (pathname : str) : str :=
  let parts := Js.split pathname "/" in
  default pathname (last parts).

Definition normalizeAccountKey (value : str) : str := Js.trim value.

Definition isPdf (filename : str) : bool :=
  Js.endsWith (Js.toLowerCase filename) ".pdf".

Definition isIgnoredAdminPdf (filename : str) : bool :=
  let baseName := getBaseName filename in
  Js.startsWith baseName "Bill_Admin_" ||
  Js.startsWith baseName "Summary_Admin_Closing_Adjustment_".

Definition getStatusFromEmail (email : option str) : RowStatus :=
  match email with
  | Some e => if Js.truthy e then Pending else Blocked
  | None => Blocked
  end.

Definition uniqueAccountKeys (keys : list str) : list str :=
  Js.dedup [] (filter (fun k => Js.truthy k = true) (map normalizeAccountKey keys)).

(** The body of the [map] of [mergeRowsWithContacts].  An inherited member
    under the key has no [email], and its [name] is that of the function. *)
Definition mergeRow (contactsByKey : gmap str Contact) (row : ParsedBillRow)
    : BillRow :=
  let contact := Js.member contactsByKey (account_key row) in
  let contactEmail :=
    match contact with Js.Own c => Some (c_email c) | _ => None end in
  {| parsed := row;
     contact_name :=
       match contact with
       | Js.Own c => c_name c
       | Js.Inherited => Js.memberName (account_key row)
       | Js.Missing => None
       end;
     contact_email := contactEmail;
     status := getStatusFromEmail contactEmail |}.

Definition mergeRowsWithContacts (rows : list ParsedBillRow)
    (contactsByKey : gmap str Contact) : list BillRow :=
  map (mergeRow contactsByKey) rows.

Fixpoint parseFallbackRows (files : list ZipEntry) : list ParsedBillRow :=
  match files with
  | [] => []
  | file :: rest =>
      if dir file then parseFallbackRows rest else
      let baseName := getBaseName (name file) in
      if negb (Js.startsWith baseName "Bill_") then parseFallbackRows rest else
      if negb (isPdf baseName) || isIgnoredAdminPdf baseName
      then parseFallbackRows rest else
      let withoutPrefix := Js.sliceFrom baseName (Z.of_nat (length (lit "Bill_"))) in
      let firstUnderscoreIndex := Js.indexOf withoutPrefix "_" in
      if (firstUnderscoreIndex <=? 0)%Z then parseFallbackRows rest else
      let accountKey :=
        normalizeAccountKey (Js.slice withoutPrefix 0 firstUnderscoreIndex) in
      if negb (Js.truthy accountKey) then parseFallbackRows rest else
      let tradeDateValue :=
        Js.slice withoutPrefix (firstUnderscoreIndex + 1)
          (Z.of_nat (length withoutPrefix) - Z.of_nat (length (lit ".pdf"))) in
      {| account_key := accountKey;
         pdf_filename := baseName;
         zip_entry_path := name file;
         trade_date := Js.nonEmpty (Js.trim tradeDateValue) |}
      :: parseFallbackRows rest
  end.


(** *** Parsing an uploaded archive *)

(** The callback of the [flatMap] over the [success] list; [None] when one
    of its two [String(...)] raises. *)
Definition manifestRow (tradeDate : option str) (item : Json.value)
    : option (list ParsedBillRow) :=
  if negb (Json.isObject item) then Some [] else
  key ← Json.stringOrEmpty (Json.prop item "key");
  pdf ← Json.stringOrEmpty (Json.prop item "pdf");
  let accountKey := normalizeAccountKey key in
  let pdfPath := Js.trim pdf in
  if negb (Js.truthy accountKey) || negb (Js.truthy pdfPath) then Some [] else
  if negb (isPdf pdfPath) || isIgnoredAdminPdf pdfPath then Some [] else
  Some [ {| account_key := accountKey;
            pdf_filename := getBaseName pdfPath;
            zip_entry_path := pdfPath;
            trade_date := tradeDate |} ].

Record Parsed := {
  parsed_source : ParseSource;
  parsedRows : list ParsedBillRow;
  parseMessages : list str
}.

(** The [manifest.json] block of [parseUploadedZip]: the values of [source],
    [parsedRows] and [parseMessages] when it is left.  [source] is assigned
    right after [JSON.parse] returns, before the first property is read;
    [parsedRows] is assigned when the [flatMap] has returned, so that an
    exception in it leaves the rows empty. *)
Definition readManifest (lib : Platform) (zip : Zip) : Parsed :=
  match zipFile zip "manifest.json" with
  | None =>
      {| parsed_source := fallback; parsedRows := []; parseMessages := [] |}
  | Some manifestFile =>
      let manifestRawText := content manifestFile in
      match JSON_parse lib manifestRawText with
      | None =>
          {| parsed_source := fallback; parsedRows := [];
             parseMessages := [lit "manifest.json invalid JSON"] |}
      | Some manifestData =>
          match Json.prop manifestData "trade_date" with
          | Json.Throws =>
              {| parsed_source := manifest; parsedRows := [];
                 parseMessages := [lit "manifest.json invalid JSON"] |}
          | trade_date =>
              let tradeDate :=
                match Json.isString trade_date with
                | Some d => Js.nonEmpty (Js.trim d)
                | None => None
                end in
              let manifestSuccess :=
                default [] (Json.isArray (Json.prop manifestData "success")) in
              match mapM (manifestRow tradeDate) manifestSuccess with
              | Some rows =>
                  {| parsed_source := manifest;
                     parsedRows := concat rows;
                     parseMessages := [] |}
              | None =>
                  {| parsed_source := manifest; parsedRows := [];
                     parseMessages := [lit "manifest.json invalid JSON"] |}
              end
          end
      end
  end.

Definition parseArchive (lib : Platform) (zip : Zip) : Parsed :=
  let m := readManifest lib zip in
  let p :=
    if bool_decide (parsed_source m ≠ manifest)
    then {| parsed_source := fallback; parsedRows := parseFallbackRows zip;
            parseMessages := parseMessages m |}
    else m in
  if length (parsedRows p) =? 0
  then {| parsed_source := parsed_source p; parsedRows := parsedRows p;
          parseMessages := parseMessages p ++ [lit "No bill PDFs found"] |}
  else p.

(** *** State setters *)

Definition modify (f : State → State) : Eff Sys unit :=
  fun s => (tt, {| ui := f (ui s); world := world s |}).

(** Running a server action or the route from the browser. *)
Definition call {A} (m : Eff World A) : Eff Sys A :=
  fun s => let (a, w) := m (world s) in (a, {| ui := ui s; world := w |}).

Definition getState : Eff Sys State := fun s => (ui s, s).

Definition with_zipRef (v : option Zip) (s : State) : State :=
  {| zipRef := v; rows := rows s; rowSendStates := rowSendStates s;
     selectedRowIds := selectedRowIds s; skipAlreadySent := skipAlreadySent s;
     lastLogStatusByKey := lastLogStatusByKey s; summary := summary s;
     messages := messages s; isParsingZip := isParsingZip s;
     isSendingAll := isSendingAll s; actionError := actionError s |}.

Definition with_rows (f : list BillRow → list BillRow) (s : State) : State :=
  {| zipRef := zipRef s; rows := f (rows s); rowSendStates := rowSendStates s;
     selectedRowIds := selectedRowIds s; skipAlreadySent := skipAlreadySent s;
     lastLogStatusByKey := lastLogStatusByKey s; summary := summary s;
     messages := messages s; isParsingZip := isParsingZip s;
     isSendingAll := isSendingAll s; actionError := actionError s |}.

Definition with_rowSendStates
    (f : gmap str RowSendState → gmap str RowSendState) (s : State) : State :=
  {| zipRef := zipRef s; rows := rows s; rowSendStates := f (rowSendStates s);
     selectedRowIds := selectedRowIds s; skipAlreadySent := skipAlreadySent s;
     lastLogStatusByKey := lastLogStatusByKey s; summary := summary s;
     messages := messages s; isParsingZip := isParsingZip s;
     isSendingAll := isSendingAll s; actionError := actionError s |}.

Definition with_selectedRowIds (f : gmap str bool → gmap str bool) (s : State)
    : State :=
  {| zipRef := zipRef s; rows := rows s; rowSendStates := rowSendStates s;
     selectedRowIds := f (selectedRowIds s); skipAlreadySent := skipAlreadySent s;
     lastLogStatusByKey := lastLogStatusByKey s; summary := summary s;
     messages := messages s; isParsingZip := isParsingZip s;
     isSendingAll := isSendingAll s; actionError := actionError s |}.

Definition with_lastLogStatusByKey
    (f : gmap str LastSendStatus → gmap str LastSendStatus) (s : State) : State :=
  {| zipRef := zipRef s; rows := rows s; rowSendStates := rowSendStates s;
     selectedRowIds := selectedRowIds s; skipAlreadySent := skipAlreadySent s;
     lastLogStatusByKey := f (lastLogStatusByKey s); summary := summary s;
     messages := messages s; isParsingZip := isParsingZip s;
     isSendingAll := isSendingAll s; actionError := actionError s |}.

Definition with_summary (v : option ZipSummary) (s : State) : State :=
  {| zipRef := zipRef s; rows := rows s; rowSendStates := rowSendStates s;
     selectedRowIds := selectedRowIds s; skipAlreadySent := skipAlreadySent s;
     lastLogStatusByKey := lastLogStatusByKey s; summary := v;
     messages := messages s; isParsingZip := isParsingZip s;
     isSendingAll := isSendingAll s; actionError := actionError s |}.

Definition with_messages (v : list str) (s : State) : State :=
  {| zipRef := zipRef s; rows := rows s; rowSendStates := rowSendStates s;
     selectedRowIds := selectedRowIds s; skipAlreadySent := skipAlreadySent s;
     lastLogStatusByKey := lastLogStatusByKey s; summary := summary s;
     messages := v; isParsingZip := isParsingZip s;
     isSendingAll := isSendingAll s; actionError := actionError s |}.

Definition with_isParsingZip (v : bool) (s : State) : State :=
  {| zipRef := zipRef s; rows := rows s; rowSendStates := rowSendStates s;
     selectedRowIds := selectedRowIds s; skipAlreadySent := skipAlreadySent s;
     lastLogStatusByKey := lastLogStatusByKey s; summary := summary s;
     messages := messages s; isParsingZip := v;
     isSendingAll := isSendingAll s; actionError := actionError s |}.

Definition with_isSendingAll (v : bool) (s : State) : State :=
  {| zipRef := zipRef s; rows := rows s; rowSendStates := rowSendStates s;
     selectedRowIds := selectedRowIds s; skipAlreadySent := skipAlreadySent s;
     lastLogStatusByKey := lastLogStatusByKey s; summary := summary s;
     messages := messages s; isParsingZip := isParsingZip s;
     isSendingAll := v; actionError := actionError s |}.

Definition with_actionError (v : str) (s : State) : State :=
  {| zipRef := zipRef s; rows := rows s; rowSendStates := rowSendStates s;
     selectedRowIds := selectedRowIds s; skipAlreadySent := skipAlreadySent s;
     lastLogStatusByKey := lastLogStatusByKey s; summary := summary s;
     messages := messages s; isParsingZip := isParsingZip s;
     isSendingAll := isSendingAll s; actionError := v |}.

Definition setRows (f : list BillRow → list BillRow) : Eff Sys unit :=
  modify (with_rows f).

(** Every change of [rowSendStates] is recorded in the trace. *)
Definition setRowSendStates
    (f : gmap str RowSendState → gmap str RowSendState) : Eff Sys unit :=
  (modify (with_rowSendStates f) ;;
   st <- getState ;;
   call (emit (RowStates (rowSendStates st))))%eff.

Definition setSelectedRowIds (f : gmap str bool → gmap str bool) : Eff Sys unit :=
  modify (with_selectedRowIds f).

Definition setLastLogStatusByKey
    (f : gmap str LastSendStatus → gmap str LastSendStatus) : Eff Sys unit :=
  modify (with_lastLogStatusByKey f).

Definition setSummary (v : option ZipSummary) : Eff Sys unit :=
  modify (with_summary v).

Definition setMessages (v : list str) : Eff Sys unit := modify (with_messages v).

Definition setIsParsingZip (v : bool) : Eff Sys unit :=
  modify (with_isParsingZip v).

Definition setIsSendingAll (v : bool) : Eff Sys unit :=
  modify (with_isSendingAll v).

Definition setActionError (v : str) : Eff Sys unit := modify (with_actionError v).

Definition setZipRef (v : option Zip) : Eff Sys unit := modify (with_zipRef v).

(** *** Handlers *)

Definition zipFilenameOf (snap : State) : str :=
  match summary snap with
  | Some sm => Js.trim (zipFilename sm)
  | None => []
  end.

(** A row id holds [::]: it is the name of no inherited member, and the
    objects keyed by row ids are read as the finite maps they are. *)
Definition getRowId (row : BillRow) : str :=
  account_key row ++ lit "::" ++ zip_entry_path row ++ lit "::" ++ pdf_filename row.

Definition findPdfEntry (zip : Zip) (row : BillRow) : option ZipEntry :=
  match zipFile zip (zip_entry_path row) with
  | Some directPathMatch => Some directPathMatch
  | None =>
      match zipFile zip (pdf_filename row) with
      | Some directFilenameMatch => Some directFilenameMatch
      | None =>
          let targetBaseName := getBaseName (pdf_filename row) in
          find (fun file =>
                  negb (dir file) &&
                  bool_decide (getBaseName (name file) = targetBaseName)) zip
      end
  end.

Definition setRowSendState (rowId : str) (send_state : SendState)
    (send_error : option str) : Eff Sys unit :=
  setRowSendStates (fun current =>
    <[rowId := {| send_state := send_state; send_error := send_error |}]> current).

(** What the readers of [lastLogStatusByKey] find in a member of
    [Object.prototype]: neither a [status] nor a [sent_at]. *)
Definition inheritedStatus : LastSendStatus :=
  {| ls_status := None; ls_sent_at := None |}.

(** [lastLogStatusByKey[key]] *)
Definition statusMember (byKey : gmap str LastSendStatus) (key : str)
    : option LastSendStatus :=
  match Js.member byKey key with
  | Js.Own v => Some v
  | Js.Inherited => Some inheritedStatus
  | Js.Missing => None
  end.

(** [lastLogStatusByKey[row.account_key]?.status ?? null] *)
Definition lastLogStatusOf (snap : State) (row : BillRow) : option LogStatus :=
  statusMember (lastLogStatusByKey snap) (account_key row) ≫= ls_status.

Definition shouldSkipRowBecauseSentEarlier (snap : State) (row : BillRow) : bool :=
  if negb (skipAlreadySent snap) then false
  else bool_decide (lastLogStatusOf snap row = Some log_sent).

(** The [for] loop of the functional update of [refreshLastLogStatusForKeys]. *)
Definition mergeLatest (latestStatus : gmap str LastSendStatus)
    (normalizedKeys : list str) (next : gmap str LastSendStatus)
    : gmap str LastSendStatus :=
  foldl (fun next key =>
           match Js.member latestStatus key with
           | Js.Own latestForKey => Js.assign next key latestForKey
           | Js.Inherited => Js.assign next key inheritedStatus
           | Js.Missing => delete key next
           end) next normalizedKeys.

Definition refreshLastLogStatusForKeys (env : ProcessEnv) (o : Oracle)
    (snap : State) (keysToRefresh : list str) : Eff Sys unit :=
  let normalizedKeys :=
    if 0 <? length keysToRefresh then uniqueAccountKeys keysToRefresh
    else uniqueAccountKeys (map (fun row : BillRow => account_key row) (rows snap)) in
  let zipFilename := zipFilenameOf snap in
  if negb (Js.truthy zipFilename) || (length normalizedKeys =? 0)
  then
    if negb (Js.truthy zipFilename) then setLastLogStatusByKey (fun _ => ∅)
    else ret tt
  else
    (latestStatus <- call (Actions.getLastSendStatusForZip env o zipFilename
                             normalizedKeys) ;;
     setLastLogStatusByKey (fun current =>
       let next := if 0 <? length keysToRefresh then current else ∅ in
       mergeLatest latestStatus normalizedKeys next))%eff.

Definition syncContactsForKeys (env : ProcessEnv) (o : Oracle)
    (keysToRefresh : list str) : Eff Sys unit :=
  let uniqueKeys := uniqueAccountKeys keysToRefresh in
  if length uniqueKeys =? 0 then ret tt
  else
    (contactsByKey <- call (Actions.getContactsByKeys env o uniqueKeys) ;;
     setRows (fun currentRows =>
       map (fun row : BillRow =>
              if negb (bool_decide (account_key row ∈ uniqueKeys)) then row
              else mergeRow contactsByKey row) currentRows))%eff.

Definition parseUploadedZip (lib : Platform) (env : ProcessEnv) (o : Oracle)
    (file : File) : Eff Sys unit :=
  (setIsParsingZip true ;;
   setMessages [] ;;
   setActionError [] ;;
   setRowSendStates (fun _ => ∅) ;;
   setSelectedRowIds (fun _ => ∅) ;;
   setLastLogStatusByKey (fun _ => ∅) ;;
   match loadAsync file with
   | inr error =>
       setRows (fun _ => []) ;;
       setRowSendStates (fun _ => ∅) ;;
       setSelectedRowIds (fun _ => ∅) ;;
       setLastLogStatusByKey (fun _ => ∅) ;;
       setSummary None ;;
       setMessages [ match error with
                     | ErrorWith m => m
                     | NotAnError => lit "Failed to parse ZIP file."
                     end ]
   | inl zip =>
       let p := parseArchive lib zip in
       if length (parsedRows p) =? 0
       then
         setZipRef (Some zip) ;;
         setRows (fun _ => []) ;;
         setRowSendStates (fun _ => ∅) ;;
         setSelectedRowIds (fun _ => ∅) ;;
         setLastLogStatusByKey (fun _ => ∅) ;;
         setSummary (Some {| zipFilename := file_name file; rowCount := 0;
                             source := parsed_source p |}) ;;
         setMessages (parseMessages p)
       else
         let accountKeys :=
           uniqueAccountKeys (map account_key (parsedRows p)) in
         contactsByKey <- call (Actions.getContactsByKeys env o accountKeys) ;;
         latestStatusByKey <-
           call (Actions.getLastSendStatusForZip env o (file_name file)
                   accountKeys) ;;
         let mergedRows := mergeRowsWithContacts (parsedRows p) contactsByKey in
         setZipRef (Some zip) ;;
         setRows (fun _ => mergedRows) ;;
         setRowSendStates (fun _ => ∅) ;;
         setSelectedRowIds (fun _ => ∅) ;;
         setLastLogStatusByKey (fun _ => latestStatusByKey) ;;
         setSummary (Some {| zipFilename := file_name file;
                             rowCount := length mergedRows;
                             source := parsed_source p |}) ;;
         setMessages (parseMessages p)
   end ;;
   setIsParsingZip false)%eff.

Definition jsonOfOption (v : option str) : Json.value :=
  match v with Some s => Json.Str s | None => Json.Null end.

(** [response.ok] *)
Definition responseOk (r : Route.Response) : bool :=
  (200 <=? Route.http_status r) && (Route.http_status r <=? 299).

Definition thrownMessage (e : Thrown) : str :=
  match e with
  | ErrorWith m => m
  | NotAnError => lit "Failed to send email."
  end.

(** The body of the request [sendEmailForRow] posts. *)
Definition requestBody (zipFilename : str) (row : BillRow) (pdfBase64 : str)
    : Json.value :=
  Json.Obj [ (lit "zip_filename", Json.Str zipFilename);
             (lit "account_key", Json.Str (account_key row));
             (lit "trade_date", jsonOfOption (trade_date row));
             (lit "to_email", jsonOfOption (contact_email row));
             (lit "to_name", jsonOfOption (contact_name row));
             (lit "filename", Json.Str (pdf_filename row));
             (lit "pdf_base64", Json.Str pdfBase64) ].

(** The [try] block of [sendEmailForRow], from the lookup of the archive to
    the outcome: [inl message] is a failure, by the response or by an
    exception, and [inr tt] a success. *)
Definition trySend (lib : Platform) (env : ProcessEnv) (o : Oracle)
    (snap : State) (row : BillRow) : Eff Sys (str + unit) :=
  (st <- getState ;;
   match zipRef st with
   | None => ret (inl (lit "ZIP data is not available. Re-upload the file."))
   | Some zip =>
   match findPdfEntry zip row with
   | None => ret (inl (lit "Could not find PDF in ZIP: " ++ pdf_filename row))
   | Some pdfEntry =>
   let pdfArrayBuffer := content pdfEntry in
   match toBase64 lib pdfArrayBuffer with
   | None => ret (inl (lit "Failed to encode PDF."))
   | Some pdfBase64 =>
   let body := requestBody (zipFilenameOf snap) row pdfBase64 in
   call (emit (Fetch body)) ;;
   t <- call nextTick ;;
   match network o t with
   | Dropped e => ret (inl (thrownMessage e))
   | AnswerLost e =>
       call (Route.POST lib env o
               {| Route.searchParams := []; Route.request_json := Some body |}) ;;
       ret (inl (thrownMessage e))
   | Delivered =>
       response <- call (Route.POST lib env o
                           {| Route.searchParams := [];
                              Route.request_json := Some body |}) ;;
       let payload := Route.payload response in
       if negb (responseOk response) ||
          negb (default false (Route.p_ok <$> payload))
       then ret (inl (default (lit "Failed to send email.")
                        (payload ≫= Route.p_error)))
       else ret (inr tt)
   end end end end)%eff.

Definition sendEmailForRow (lib : Platform) (env : ProcessEnv) (o : Oracle)
    (snap : State) (row : BillRow) : Eff Sys bool :=
  let rowId := getRowId row in
  let currentState :=
    default idle (send_state <$> rowSendStates snap !! rowId) in
  if bool_decide (currentState = sending) then ret false else
  if negb (default false (Js.truthy <$> contact_email row))
  then (setRowSendState rowId failed (Some (lit "No contact email available.")) ;;
        ret false)%eff
  else
  if negb (Js.truthy (zipFilenameOf snap))
  then (setRowSendState rowId failed
          (Some (lit "ZIP filename is unavailable. Re-upload the file.")) ;;
        ret false)%eff
  else
    (setActionError [] ;;
     setRowSendState rowId sending None ;;
     outcome <- trySend lib env o snap row ;;
     result <- match outcome with
               | inl errorMessage =>
                   setRowSendState rowId failed (Some errorMessage) ;; ret false
               | inr _ =>
                   setRowSendState rowId sent None ;; ret true
               end ;;
     refreshLastLogStatusForKeys env o snap [account_key row] ;;
     ret result)%eff.

(** [for (const row of list) await sendEmailForRow(row)] *)
Fixpoint sendEach (lib : Platform) (env : ProcessEnv) (o : Oracle)
    (snap : State) (list : list BillRow) : Eff Sys unit :=
  match list with
  | [] => ret tt
  | row :: rest =>
      (sendEmailForRow lib env o snap row ;; sendEach lib env o snap rest)%eff
  end.

Definition notSentInSession (snap : State) (row : BillRow) : bool :=
  negb (bool_decide
          (send_state <$> rowSendStates snap !! getRowId row = Some sent)).

Definition isPending (row : BillRow) : bool :=
  bool_decide (status row = Pending).

Definition pendingRowsToSend (snap : State) : list BillRow :=
  filter (fun row =>
            isPending row && negb (shouldSkipRowBecauseSentEarlier snap row)
            && notSentInSession snap row = true) (rows snap).

Definition sendPending (lib : Platform) (env : ProcessEnv) (o : Oracle)
    (snap : State) : Eff Sys unit :=
  if isSendingAll snap then ret tt else
  if negb (Js.truthy (zipFilenameOf snap))
  then setActionError "ZIP filename is unavailable. Re-upload the file."
  else
    (setActionError [] ;;
     setIsSendingAll true ;;
     let rowsToSend := pendingRowsToSend snap in
     sendEach lib env o snap rowsToSend ;;
     setIsSendingAll false)%eff.

Definition selectedRowsToSend (snap : State) : list BillRow :=
  filter (fun row =>
            let rowId := getRowId row in
            negb (negb (default false (selectedRowIds snap !! rowId))
                  || negb (isPending row))
            && negb (shouldSkipRowBecauseSentEarlier snap row)
            && notSentInSession snap row = true) (rows snap).

Definition sendSelectedPendingRows (lib : Platform) (env : ProcessEnv)
    (o : Oracle) (snap : State) : Eff Sys unit :=
  if isSendingAll snap then ret tt else
  if negb (Js.truthy (zipFilenameOf snap))
  then setActionError "ZIP filename is unavailable. Re-upload the file."
  else
    let rowsToSend := selectedRowsToSend snap in
    if length rowsToSend =? 0
    then setActionError "No eligible selected rows to send."
    else
      (setActionError [] ;;
       setIsSendingAll true ;;
       sendEach lib env o snap rowsToSend ;;
       setIsSendingAll false)%eff.

Definition failedRowsToRetry (snap : State) : list BillRow :=
  filter (fun row =>
            isPending row
            && bool_decide (lastLogStatusOf snap row = Some log_failed)
            && notSentInSession snap row = true) (rows snap).

Definition retryAllFailed (lib : Platform) (env : ProcessEnv) (o : Oracle)
    (snap : State) : Eff Sys unit :=
  if isSendingAll snap then ret tt else
  if negb (Js.truthy (zipFilenameOf snap))
  then setActionError "ZIP filename is unavailable. Re-upload the file."
  else
    let rowsToRetry := failedRowsToRetry snap in
    if length rowsToRetry =? 0
    then setActionError "No failed rows to retry."
    else
      (setActionError [] ;;
       setIsSendingAll true ;;
       sendEach lib env o snap rowsToRetry ;;
       setIsSendingAll false)%eff.

(** A handler is started from the current render: its snapshot is the live
    state at that moment. *)
Definition started {A} (handler : State → Eff Sys A) : Eff Sys A :=
  fun s => handler (ui s) s.

End Console.

(** ** The review table of the console

    What [upload-send-console.tsx] derives from its state on every render
    (the review status of a row, the counters, the rows the filters leave
    visible) and its selection handlers.  The filter settings are state of
    their own. *)

Module Review.
Import Console.

Inductive ReviewStatus :=
| ReviewPending | ReviewBlocked | ReviewSent | ReviewFailed.

#[global] Instance ReviewStatus_eq_dec : EqDecision ReviewStatus.
Proof. solve_decision. Defined.

(** ["All" | "Pending" | "Failed" | "Blocked" | "Sent"] *)
Inductive ReviewFilter :=
| All
| Only (s : ReviewStatus).

Record View := {
  activeFilter : ReviewFilter;
  searchTerm : str;
  showOnlyPending : bool
}.

Definition getDefaultSendState : RowSendState :=
  {| send_state := idle; send_error := None |}.

Definition getReviewStatus (row : BillRow) (rowSendState : RowSendState)
    (lastLogStatus : option LastSendStatus) : ReviewStatus :=
  if bool_decide (status row = Blocked) then ReviewBlocked else
  if bool_decide (send_state rowSendState = sent) then ReviewSent else
  if bool_decide (send_state rowSendState = failed) then ReviewFailed else
  if bool_decide (lastLogStatus ≫= ls_status = Some log_sent) then ReviewSent else
  if bool_decide (lastLogStatus ≫= ls_status = Some log_failed) then ReviewFailed
  else ReviewPending.

Record Item := {
  item_row : BillRow;
  item_rowId : str;
  item_rowSendState : RowSendState;
  item_lastLogStatus : option LastSendStatus;
  reviewStatus : ReviewStatus
}.

Definition itemOf (st : State) (row : BillRow) : Item :=
  let rowId := getRowId row in
  let rowSendState := default getDefaultSendState (rowSendStates st !! rowId) in
  let lastLogStatus := statusMember (lastLogStatusByKey st) (account_key row) in
  {| item_row := row;
     item_rowId := rowId;
     item_rowSendState := rowSendState;
     item_lastLogStatus := lastLogStatus;
     reviewStatus := getReviewStatus row rowSendState lastLogStatus |}.

Definition rowsWithReviewStatus (st : State) : list Item :=
  map (itemOf st) (rows st).

Record Counts := {
  count_Pending : nat;
  count_Blocked : nat;
  count_Sent : nat;
  count_Failed : nat
}.

(** [acc[item.reviewStatus] += 1] *)
Definition bump (acc : Counts) (item : Item) : Counts :=
  match reviewStatus item with
  | ReviewPending =>
      {| count_Pending := count_Pending acc + 1; count_Blocked := count_Blocked acc;
         count_Sent := count_Sent acc; count_Failed := count_Failed acc |}
  | ReviewBlocked =>
      {| count_Pending := count_Pending acc; count_Blocked := count_Blocked acc + 1;
         count_Sent := count_Sent acc; count_Failed := count_Failed acc |}
  | ReviewSent =>
      {| count_Pending := count_Pending acc; count_Blocked := count_Blocked acc;
         count_Sent := count_Sent acc + 1; count_Failed := count_Failed acc |}
  | ReviewFailed =>
      {| count_Pending := count_Pending acc; count_Blocked := count_Blocked acc;
         count_Sent := count_Sent acc; count_Failed := count_Failed acc + 1 |}
  end.

Definition counts (st : State) : Counts :=
  foldl bump
    {| count_Pending := 0; count_Blocked := 0; count_Sent := 0; count_Failed := 0 |}
    (rowsWithReviewStatus st).

(** [selectedRowIds[rowId]], as a condition *)
Definition isSelected (st : State) (rowId : str) : bool :=
  default false (selectedRowIds st !! rowId).

Definition selectedPendingCount (st : State) : nat :=
  length (filter (fun item =>
                    (if negb (isSelected st (item_rowId item)) then false
                     else bool_decide (status (item_row item) = Pending)) = true)
            (rowsWithReviewStatus st)).

(** [s.includes(sub)] *)
Fixpoint includes (s sub : str) : bool :=
  Js.startsWith s sub ||
  match s with
  | [] => false
  | _ :: s' => includes s' sub
  end.

Definition isVisible (view : View) (item : Item) : bool :=
  let normalizedSearch := Js.toLowerCase (Js.trim (searchTerm view)) in
  if showOnlyPending view && negb (bool_decide (reviewStatus item = ReviewPending))
  then false else
  if match activeFilter view with
     | All => false
     | Only s => negb (bool_decide (reviewStatus item = s))
     end
  then false else
  if negb (Js.truthy normalizedSearch) then true else
  includes (Js.toLowerCase (account_key (item_row item))) normalizedSearch
  || includes (Js.toLowerCase (default [] (contact_name (item_row item))))
       normalizedSearch
  || includes (Js.toLowerCase (default [] (contact_email (item_row item))))
       normalizedSearch.

Definition visibleRows (st : State) (view : View) : list Item :=
  filter (fun item => isVisible view item = true) (rowsWithReviewStatus st).

Definition visiblePendingRows (st : State) (view : View) : list Item :=
  filter (fun item => status (item_row item) = Pending) (visibleRows st view).

Definition selectedVisiblePendingCount (st : State) (view : View) : nat :=
  length (filter (fun item => isSelected st (item_rowId item) = true)
            (visiblePendingRows st view)).

Definition allVisiblePendingSelected (st : State) (view : View) : bool :=
  (0 <? length (visiblePendingRows st view))
  && (selectedVisiblePendingCount st view =? length (visiblePendingRows st view)).

Definition someVisiblePendingSelected (st : State) (view : View) : bool :=
  (0 <? selectedVisiblePendingCount st view)
  && (selectedVisiblePendingCount st view <? length (visiblePendingRows st view)).

(** The effect that runs when [rows] has changed: only the selected ids of
    rows that still exist are kept. *)
Definition pruneSelectedRowIds (rows : list BillRow) : Eff Sys unit :=
  let rowIds := map getRowId rows in
  setSelectedRowIds (fun current =>
    filter (fun entry => entry.2 = true ∧ entry.1 ∈ rowIds) current).

Definition setRowSelected (rowId : str) (selected : bool) : Eff Sys unit :=
  setSelectedRowIds (fun current =>
    if selected then <[rowId := true]> current else delete rowId current).

Definition setAllVisiblePendingRowsSelected (snap : State) (view : View)
    (selected : bool) : Eff Sys unit :=
  if negb selected
  then
    let visibleIds := Js.dedup [] (map item_rowId (visiblePendingRows snap view)) in
    setSelectedRowIds (fun current =>
      foldl (fun next rowId => delete rowId next) current visibleIds)
  else
    let visibleIds := map item_rowId (visiblePendingRows snap view) in
    setSelectedRowIds (fun current =>
      foldl (fun next rowId => <[rowId := true]> next) current visibleIds).

End Review.

(** ** The contact actions that write ([app/actions/contacts.ts])

    The table [contacts] has [account_key] as its primary key and gives
    [updated_at] itself, on insert and on update.  A failure of the store is
    decided by the oracle, as for the queries; [Database] says what error
    object comes with it and what the store's clock reads.  The calls of
    [revalidatePath] concern the page cache of the framework and are left
    out. *)

Record PostgrestError := {
  pg_code : str;
  pg_message : str
}.

Record Database := {
  pg_error : nat → PostgrestError;
  now : nat → str
}.

Record ContactUpsertInput := {
  in_account_key : str;
  in_name : option str;
  in_email : str
}.

Record ContactUpdateInput := {
  up_name : option str;
  up_email : str
}.

Inductive ContactActionResult :=
| ActionOk
| ActionError (error : str).

Module ContactActions.
Import Regex.

(** [/^[^\s@]+@[^\s@]+\.[^\s@]+$/] *)
Definition EMAIL_PATTERN : regex :=
  [ Begin; Many 1 Route.notSpaceAt; Class (Route.isChar "@");
    Many 1 Route.notSpaceAt; Class (Route.isChar "."); Many 1 Route.notSpaceAt;
    End_ ].

Definition normalizeAccountKey (value : str) : str := Js.trim value.

Definition normalizeName (value : option str) : option str :=
  let normalized := Js.trim (default [] value) in
  if 0 <? length normalized then Some normalized else None.

Definition normalizeEmail (value : str) : str := Js.toLowerCase (Js.trim value).

Definition isValidEmail (email : str) : bool := test EMAIL_PATTERN email.

Definition setContacts (f : list Contact → list Contact) : Eff World unit :=
  fun w => (tt,
            {| tick := tick w; send_logs := send_logs w;
               contacts := f (contacts w); trace := trace w |}).

(** [from("contacts").insert({ account_key, name, email })]: the primary key
    refuses a second row with the key (error code 23505). *)
Definition insertContact (o : Oracle) (db : Database) (accountKey : str)
    (name : option str) (email : str) : Eff World (option PostgrestError) :=
  (t <- nextTick ;;
   w <- getWorld ;;
   if storeError o t then ret (Some (pg_error db t))
   else if bool_decide (accountKey ∈ map c_account_key (contacts w))
   then ret (Some {| pg_code := lit "23505";
                     pg_message := lit "duplicate key value violates unique constraint" |})
   else
     setContacts (fun cs =>
       cs ++ [{| c_account_key := accountKey; c_name := name; c_email := email;
                 c_updated_at := now db t |}]) ;;
     ret None)%eff.

(** [from("contacts").update({ name, email }).eq("account_key", accountKey)] *)
Definition updateContactRows (o : Oracle) (db : Database) (accountKey : str)
    (name : option str) (email : str) : Eff World (option PostgrestError) :=
  (t <- nextTick ;;
   if storeError o t then ret (Some (pg_error db t))
   else
     setContacts (map (fun c =>
       if bool_decide (c_account_key c = accountKey)
       then {| c_account_key := c_account_key c; c_name := name; c_email := email;
               c_updated_at := now db t |}
       else c)) ;;
     ret None)%eff.

(** [from("contacts").delete().eq("account_key", accountKey)] *)
Definition deleteContactRows (o : Oracle) (db : Database) (accountKey : str)
    : Eff World (option PostgrestError) :=
  (t <- nextTick ;;
   if storeError o t then ret (Some (pg_error db t))
   else
     setContacts (filter (fun c => c_account_key c ≠ accountKey)) ;;
     ret None)%eff.

Definition createContact (env : ProcessEnv) (o : Oracle) (db : Database)
    (payload : ContactUpsertInput) : Eff World ContactActionResult :=
  (t <- nextTick ;;
   if negb (Auth.isAdminSession env (session o t))
   then ret (ActionError "Not authorized to create contacts.")
   else
   let accountKey := normalizeAccountKey (in_account_key payload) in
   let name := normalizeName (in_name payload) in
   let email := normalizeEmail (in_email payload) in
   if negb (Js.truthy accountKey) then ret (ActionError "Account key is required.")
   else
   if negb (Js.truthy email) then ret (ActionError "Email is required.") else
   if negb (isValidEmail email)
   then ret (ActionError "Email must be valid (example: name@example.com).")
   else
   error <- insertContact o db accountKey name email ;;
   match error with
   | Some e =>
       if bool_decide (pg_code e = lit "23505")
       then ret (ActionError "A contact with this account key already exists.")
       else ret (ActionError (pg_message e))
   | None => ret ActionOk
   end)%eff.

Definition updateContact (env : ProcessEnv) (o : Oracle) (db : Database)
    (account_key : str) (payload : ContactUpdateInput)
    : Eff World ContactActionResult :=
  (t <- nextTick ;;
   if negb (Auth.isAdminSession env (session o t))
   then ret (ActionError "Not authorized to update contacts.")
   else
   let accountKey := normalizeAccountKey account_key in
   let name := normalizeName (up_name payload) in
   let email := normalizeEmail (up_email payload) in
   if negb (Js.truthy accountKey) then ret (ActionError "Account key is required.")
   else
   if negb (Js.truthy email) then ret (ActionError "Email is required.") else
   if negb (isValidEmail email)
   then ret (ActionError "Email must be valid (example: name@example.com).")
   else
   error <- updateContactRows o db accountKey name email ;;
   match error with
   | Some e => ret (ActionError (pg_message e))
   | None => ret ActionOk
   end)%eff.

Definition deleteContact (env : ProcessEnv) (o : Oracle) (db : Database)
    (account_key : str) : Eff World ContactActionResult :=
  (t <- nextTick ;;
   if negb (Auth.isAdminSession env (session o t))
   then ret (ActionError "Not authorized to delete contacts.")
   else
   let accountKey := normalizeAccountKey account_key in
   if negb (Js.truthy accountKey) then ret (ActionError "Account key is required.")
   else
   error <- deleteContactRows o db accountKey ;;
   match error with
   | Some e => ret (ActionError (pg_message e))
   | None => ret ActionOk
   end)%eff.

(** [filterContactsBySearch], the filter [listContacts] falls back on. *)
Definition filterContactsBySearch (contacts : list Contact) (search : str)
    : list Contact :=
  let searchTerm := Js.toLowerCase (Js.trim search) in
  if negb (Js.truthy searchTerm) then contacts
  else
    filter (fun contact =>
              Review.includes (Js.toLowerCase (c_account_key contact)) searchTerm
              || Review.includes (Js.toLowerCase (default [] (c_name contact)))
                   searchTerm
              || Review.includes (Js.toLowerCase (c_email contact)) searchTerm
              = true) contacts.

End ContactActions.

(** ** Adding a contact from the console

    The form of the console ([addContactState]) is state next to the rest
    of the component. *)

Record AddContactState := {
  add_account_key : str;
  add_name : str;
  add_email : str;
  add_error : str
}.

Record Desk := {
  desk : Sys;
  addContactState : option AddContactState
}.

Module AddContact.
Import Console.

(** Running a handler of the rest of the component. *)
Definition onSys {A} (m : Eff Sys A) : Eff Desk A :=
  fun d => let (a, s) := m (desk d) in
           (a, {| desk := s; addContactState := addContactState d |}).

Definition setAddContactState
    (f : option AddContactState → option AddContactState) : Eff Desk unit :=
  fun d => (tt, {| desk := desk d; addContactState := f (addContactState d) |}).

Definition openAddContact (accountKey : str) : Eff Desk unit :=
  (onSys (setActionError []) ;;
   setAddContactState (fun _ =>
     Some {| add_account_key := accountKey; add_name := []; add_email := [];
             add_error := [] |}))%eff.

Definition closeAddContact : Eff Desk unit := setAddContactState (fun _ => None).

(** [submitAddContact], with the transition it starts run to its end.  The
    closure reads the form and the rest of the state from its render. *)
Definition submitAddContact (env : ProcessEnv) (o : Oracle) (db : Database)
    (form : option AddContactState) (snap : State) : Eff Desk unit :=
  match form with
  | None => ret tt
  | Some addContactState =>
      (onSys (setActionError []) ;;
       result <- onSys (call (ContactActions.createContact env o db
                   {| in_account_key := add_account_key addContactState;
                      in_name := Some (add_name addContactState);
                      in_email := add_email addContactState |})) ;;
       match result with
       | ActionError error =>
           setAddContactState (fun current =>
             match current with
             | Some c => Some {| add_account_key := add_account_key c;
                                 add_name := add_name c; add_email := add_email c;
                                 add_error := error |}
             | None => None
             end)
       | ActionOk =>
           onSys (syncContactsForKeys env o [add_account_key addContactState]) ;;
           onSys (refreshLastLogStatusForKeys env o snap
                    [add_account_key addContactState]) ;;
           setAddContactState (fun _ => None)
       end)%eff
  end.

End AddContact.

(** ** A concrete deployment, used to run the model

    One administrator, a store that never fails, a mail provider that gives
    the same answer to every call, and a platform whose JSON parser knows a
    few documents. *)

Module Demo.
Import Console.

Definition lib : Platform :=
  {| JSON_parse := fun s =>
       if bool_decide (s = lit "{}") then Some (Json.Obj [])
       else if bool_decide (s = lit "null") then Some Json.Null
       else None;
     base64Decode := fun s => s;
     toBase64 := fun s => Some s |}.

Definition env : ProcessEnv :=
  {| ALPHA_TECH_X_ADMIN_EMAILS := Some (lit "ops@example.com");
     GMAIL_CLIENT_ID := Some (lit "client");
     GMAIL_CLIENT_SECRET := Some (lit "secret");
     GMAIL_REDIRECT_URI := Some (lit "http://localhost:3000/api/google/oauth/callback");
     GMAIL_REFRESH_TOKEN := Some (lit "refresh");
     GMAIL_SENDER_EMAIL := Some (lit "billing@example.com") |}.

Definition admin : Session :=
  {| claimsError := false;
     claims := true;
     user := Some {| user_id := lit "u1";
                     user_email := Some (lit "ops@example.com") |};
     profile_role := None |}.

Definition oracle (g : GmailOutcome) : Oracle :=
  {| session := fun _ => admin;
     storeError := fun _ => false;
     clock := fun t => N.of_nat t;
     gmail := fun _ _ => g;
     network := fun _ => Delivered |}.

Definition accepted : GmailOutcome :=
  Resolves {| data_id := Some (lit "m1"); data_threadId := None |}.

(** The provider rejects the call with the given message. *)
Definition rejected (message : string) : GmailOutcome :=
  Rejects (ErrorWith (lit message)).

Definition alice : Contact :=
  {| c_account_key := lit "PR20"; c_name := None;
     c_email := lit "alice@example.com"; c_updated_at := [] |}.

Definition bob : Contact :=
  {| c_account_key := lit "PR21"; c_name := Some (lit "Bob");
     c_email := lit "bob@example.com"; c_updated_at := [] |}.

Definition world0 : World :=
  {| tick := 0; send_logs := []; contacts := [alice; bob]; trace := [] |}.

Definition sys0 : Sys := {| ui := initialState; world := world0 |}.

Definition pdf (n : string) : ZipEntry :=
  {| name := lit n; dir := false; content := lit "%PDF" |}.

Definition batch : File :=
  {| file_name := lit "batch.zip";
     loadAsync := inl [ pdf "Bill_PR20_2024-01-05.pdf";
                        pdf "Bill_PR21_2024-01-05.pdf";
                        pdf "Bill_ZZ9_2024-01-05.pdf" ] |}.

(** The console after [batch] was uploaded. *)
Definition uploaded : Sys := (parseUploadedZip lib env (oracle accepted) batch sys0).2.

Definition rowPR20 : BillRow :=
  mergeRow {[ lit "PR20" := alice ]}
    {| account_key := lit "PR20";
       pdf_filename := lit "Bill_PR20_2024-01-05.pdf";
       zip_entry_path := lit "Bill_PR20_2024-01-05.pdf";
       trade_date := Some (lit "2024-01-05") |}.

Definition rowPR21 : BillRow :=
  mergeRow {[ lit "PR21" := bob ]}
    {| account_key := lit "PR21";
       pdf_filename := lit "Bill_PR21_2024-01-05.pdf";
       zip_entry_path := lit "Bill_PR21_2024-01-05.pdf";
       trade_date := Some (lit "2024-01-05") |}.

(** A well-formed request body for [rowPR20]. *)
Definition body (to_email : string) : Json.value :=
  Json.Obj [ (lit "zip_filename", Json.Str (lit "batch.zip"));
             (lit "account_key", Json.Str (lit "PR20"));
             (lit "trade_date", Json.Str (lit "2024-01-05"));
             (lit "to_email", Json.Str (lit to_email));
             (lit "to_name", Json.Null);
             (lit "filename", Json.Str (lit "Bill_PR20_2024-01-05.pdf"));
             (lit "pdf_base64", Json.Str (lit "JVBERg==")) ].

(** What the route reads from it. *)
Definition fields (to_email : string) : Route.Fields :=
  {| Route.b_zip_filename := lit "batch.zip";
     Route.b_account_key := lit "PR20";
     Route.b_trade_date := lit "2024-01-05";
     Route.b_to_email := lit to_email;
     Route.b_to_name := [];
     Route.b_filename := lit "Bill_PR20_2024-01-05.pdf";
     Route.b_pdf_base64 := lit "JVBERg==" |}.

Definition request (to_email : string) : Route.Request :=
  {| Route.searchParams := []; Route.request_json := Some (body to_email) |}.

(** An archive whose manifest has no [success] list, next to a bill. *)
Definition emptyManifestZip : Zip :=
  [ {| name := lit "manifest.json"; dir := false; content := lit "{}" |};
    pdf "Bill_PR20_2024-01-05.pdf" ].

Definition emptyManifestFile : File :=
  {| file_name := lit "batch.zip"; loadAsync := inl emptyManifestZip |}.

(** The same upload when the log already holds a successful send of
    [PR20] for this archive. *)
Definition world1 : World :=
  {| tick := 0;
     send_logs :=
       [ {| sent_at := 100%N;
            inserted :=
              {| log_zip_filename := lit "batch.zip";
                 log_account_key := lit "PR20";
                 log_trade_date := Some (lit "2024-01-05");
                 log_to_email := lit "alice@example.com";
                 log_to_name := None;
                 log_status := log_sent;
                 log_error := None;
                 log_message_id := Some (lit "m0");
                 log_sent_by_auth_user_id := lit "u1" |} |} ];
     contacts := [alice; bob];
     trace := [] |}.

Definition uploadedAgain : Sys :=
  (parseUploadedZip lib env (oracle accepted) batch
     {| ui := initialState; world := world1 |}).2.

(** [PR20] is being sent by its own button when a bulk run is started. *)
Definition busy : Sys :=
  {| ui := with_rowSendStates
             (fun _ => {[ getRowId rowPR20 :=
                            {| send_state := sending; send_error := None |} ]})
             (ui uploaded);
     world := world uploaded |}.

(** The row of the demo archive without a contact. *)
Definition rowZZ9 : BillRow :=
  mergeRow ∅
    {| account_key := lit "ZZ9";
       pdf_filename := lit "Bill_ZZ9_2024-01-05.pdf";
       zip_entry_path := lit "Bill_ZZ9_2024-01-05.pdf";
       trade_date := Some (lit "2024-01-05") |}.

Definition busyRun : Sys :=
  (started (sendPending lib env (oracle accepted)) busy).2.

Definition bothSending : gmap str RowSendState :=
  <[getRowId rowPR21 := {| send_state := sending; send_error := None |}]>
    {[getRowId rowPR20 := {| send_state := sending; send_error := None |}]}.

End Demo.

(** ** Vocabulary of the properties *)

Import Console.

(** A contact with a non-empty email is known for the key. *)
Definition resolvedEmail (contactsByKey : gmap str Contact) (key : str) : Prop :=
  ∃ c, contactsByKey !! key = Some c ∧ c_email c ≠ [].

(** The session passes the three authorization checks of the route. *)
Definition authorized (env : ProcessEnv) (s : Session) : Prop :=
  Auth.isAuthenticated s = true ∧
  ∃ u, user s = Some u ∧
       Auth.hasAdminAccess env (user_email u)
         (Auth.getProfileForAuthUser s (Some (user_id u))) = true.

(** The fields read from the request body pass the input validation of the
    route. *)
Definition validInput (lib : Platform) (f : Route.Fields) : Prop :=
  let toEmail := Js.toLowerCase (Route.b_to_email f) in
  Route.b_zip_filename f ≠ [] ∧
  Route.b_account_key f ≠ [] ∧
  Regex.test Route.EMAIL_PATTERN toEmail = true ∧
  Js.includesChar toEmail "@" = true ∧
  Js.endsWith (Js.toLowerCase (Route.b_filename f)) ".pdf" = true ∧
  Route.b_pdf_base64 f ≠ [] ∧
  base64Decode lib (Route.b_pdf_base64 f) ≠ [].

(** The message for the first check of the route the fields fail, in the
    order of the checks; [None] when they pass them all. *)
Definition rejection (lib : Platform) (f : Route.Fields) : option str :=
  let toEmail := Js.toLowerCase (Route.b_to_email f) in
  if bool_decide (Route.b_zip_filename f = [])
  then Some (lit "zip_filename is required.")
  else if bool_decide (Route.b_account_key f = [])
  then Some (lit "account_key is required.")
  else if negb (Regex.test Route.EMAIL_PATTERN toEmail) ||
          negb (Js.includesChar toEmail "@")
  then Some (lit "to_email must be a valid email address.")
  else if negb (Js.endsWith (Js.toLowerCase (Route.b_filename f)) ".pdf")
  then Some (lit "filename must end with .pdf.")
  else if bool_decide (Route.b_pdf_base64 f = [])
  then Some (lit "pdf_base64 is required.")
  else if bool_decide (base64Decode lib (Route.b_pdf_base64 f) = [])
  then Some (lit "pdf attachment must be non-empty.")
  else None.

(** [GMAIL_SENDER_EMAIL] is set to a well-formed address. *)
Definition validSender (env : ProcessEnv) : Prop :=
  ∃ e, GMAIL_SENDER_EMAIL env = Some e ∧ Js.trim e ≠ [] ∧
       Regex.test Route.EMAIL_PATTERN (Js.trim e) = true.

(** One more call was answered; nothing was stored, nothing happened. *)
Definition ticked (w : World) : World :=
  {| tick := S (tick w); send_logs := send_logs w; contacts := contacts w;
     trace := trace w |}.

Definition dryRunResponse : Route.Response :=
  {| Route.http_status := 200;
     Route.payload :=
       Some {| Route.p_ok := true; Route.p_provider := lit "gmail";
               Route.p_error := None; Route.p_dryRun := true;
               Route.p_id := None; Route.p_threadId := None;
               Route.p_messageId := None |} |}.

(** What one run of the route may add to the trace, for a request with the
    given body. *)
Definition routeEvent (body : Json.value) (e : Event) : Prop :=
  match e with
  | GmailSend request _ => request = body
  | LogInsert _ => True
  | _ => False
  end.

(** [w'] continues [w]: its trace is that of [w], then [evs]. *)
Definition grows (w w' : World) (evs : list Event) : Prop :=
  trace w' = trace w ++ evs.

(** Events of the attempt for a row: the request posted for it, and what the
    route does while serving that request. *)
Definition attemptEvent (zf : str) (row : BillRow) (e : Event) : Prop :=
  match e with
  | Fetch body | GmailSend body _ => ∃ pdfBase64, body = requestBody zf row pdfBase64
  | LogInsert _ => True
  | _ => False
  end.

(** Events of the audit-log follow-up query. *)
Definition auditEvent (e : Event) : Prop :=
  match e with
  | GetLastSendStatus _ _ | LogSelect _ _ => True
  | _ => False
  end.

Definition settled (s : RowSendState) : Prop :=
  send_state s = sent ∨ send_state s = failed.

(** The trace of one call of [sendEmailForRow] for [row], from the row states
    [m0] to the row states it leaves: the call is refused without a trace,
    or refused with the row marked [failed], or it is an attempt: the row
    enters [sending], the request is served, the row is settled as [sent] or
    [failed], and the audit log is queried again for the row's key. *)
Inductive Episode (zf : str) (row : BillRow) (m0 : gmap str RowSendState)
    : list Event → gmap str RowSendState → Prop :=
| episode_skipped :
    Episode zf row m0 [] m0
| episode_refused (message : str) :
    let m := <[getRowId row :=
                 {| send_state := failed; send_error := Some message |}]> m0 in
    Episode zf row m0 [RowStates m] m
| episode_attempt (served : list Event) (outcome : RowSendState)
      (audit : list Event) :
    let m1 := <[getRowId row :=
                  {| send_state := sending; send_error := None |}]> m0 in
    let m2 := <[getRowId row := outcome]> m1 in
    Forall (attemptEvent zf row) served →
    settled outcome →
    Forall auditEvent audit →
    (Js.trim (account_key row) ≠ [] →
     ∃ rest, audit = GetLastSendStatus zf [Js.trim (account_key row)] :: rest) →
    Episode zf row m0 ([RowStates m1] ++ served ++ [RowStates m2] ++ audit) m2.

(** The trace of a loop over [rows]: one episode after the other. *)
Inductive Episodes (zf : str) : list BillRow → gmap str RowSendState →
    list Event → gmap str RowSendState → Prop :=
| episodes_nil m :
    Episodes zf [] m [] m
| episodes_cons row rest m0 evs m1 evs' m2 :
    Episode zf row m0 evs m1 →
    Episodes zf rest m1 evs' m2 →
    Episodes zf (row :: rest) m0 (evs ++ evs') m2.

(** No row is in the [sending] state. *)
Definition noneSending (m : gmap str RowSendState) : Prop :=
  ∀ i s, m !! i = Some s → send_state s ≠ sending.

(** At most one row is in the [sending] state. *)
Definition atMostOneSending (m : gmap str RowSendState) : Prop :=
  ∀ i j si sj,
    m !! i = Some si → m !! j = Some sj →
    send_state si = sending → send_state sj = sending → i = j.

(** The three bulk actions of the console. *)
Inductive BulkMode := AllPending | SelectedOnly | RetryFailed.

Definition eligibleRows (mode : BulkMode) (snap : State) : list BillRow :=
  match mode with
  | AllPending => pendingRowsToSend snap
  | SelectedOnly => selectedRowsToSend snap
  | RetryFailed => failedRowsToRetry snap
  end.

Definition runBulk (mode : BulkMode) (lib : Platform) (env : ProcessEnv)
    (o : Oracle) (snap : State) : Eff Sys unit :=
  match mode with
  | AllPending => sendPending lib env o snap
  | SelectedOnly => sendSelectedPendingRows lib env o snap
  | RetryFailed => retryAllFailed lib env o snap
  end.

(** The rows a bulk action goes through: none when a run is already active
    or the archive filename is unavailable. *)
Definition processedRows (mode : BulkMode) (snap : State) : list BillRow :=
  if isSendingAll snap || negb (Js.truthy (zipFilenameOf snap)) then []
  else eligibleRows mode snap.

(** The request names [key] as its account key. *)
Definition requestFor (key : str) (request : Json.value) : Prop :=
  Json.prop request (lit "account_key") = Json.Got (Json.Str key).

(** The event is a request posted for [key] or a transport call serving
    one. *)
Definition transportFor (key : str) (e : Event) : Prop :=
  match e with
  | Fetch request | GmailSend request _ => requestFor key request
  | _ => False
  end.

(** The console after [setRowSendState(rowId, "failed", message)] and
    nothing else. *)
Definition markedFailed (rowId message : str) (sys : Sys) : Sys :=
  let m := <[rowId := {| send_state := failed; send_error := Some message |}]>
             (rowSendStates (ui sys)) in
  {| ui := with_rowSendStates (fun _ => m) (ui sys);
     world := {| tick := tick (world sys); send_logs := send_logs (world sys);
                 contacts := contacts (world sys);
                 trace := trace (world sys) ++ [RowStates m] |} |}.

(** The row state the handler reads from its render. *)
Definition currentState (snap : State) (row : BillRow) : SendState :=
  default idle (send_state <$> rowSendStates snap !! getRowId row).

(** [!row.contact_email] *)
Definition noContactEmail (row : BillRow) : Prop :=
  contact_email row = None ∨ contact_email row = Some [].

(** Neither a transport call nor a send-log write. *)
Definition silentEvent (e : Event) : Prop :=
  match e with
  | GmailSend _ _ | LogInsert _ => False
  | _ => True
  end.

(** The log row was written for this archive filename and account key. *)
Definition logMatches (z k : str) (r : SendLogRow) : Prop :=
  log_zip_filename r = z ∧ log_account_key r = k.

(** What the query reports for a log row. *)
Definition reported (r : SendLogRow) : LastSendStatus :=
  {| ls_status := Some (log_status r); ls_sent_at := Some (sent_at r) |}.

(** What the reducer stores for a selected row. *)
Definition lastStatusOf (row : LogQueryRow) : LastSendStatus :=
  {| ls_status := Actions.narrowStatus (q_status row);
     ls_sent_at := Some (q_sent_at row) |}.

(** The character before the position reached after [x]. *)
Definition lastOr (prev : option ascii) (x : str) : option ascii :=
  match last x with Some c => Some c | None => prev end.

(** [c] is not a character of class [p]. *)
Definition outside (p : ascii → bool) (c : option ascii) : Prop :=
  match c with Some a => p a = false | None => True end.

(** An address of the shape the in-text pattern is written for:
    [local@domain.tld], the local part starting with a word character. *)
Record TextAddress (local domain tld : str) : Prop := {
  local_class : Forall (fun c => Route.localClass c = true) local;
  local_word : ∃ c rest, local = c :: rest ∧ Js.isWord c = true;
  domain_class : Forall (fun c => Route.domainClass c = true) domain;
  domain_nonempty : domain ≠ [];
  tld_letters : Forall (fun c => Js.isLetter c = true) tld;
  tld_length : 2 ≤ length tld
}.

Definition address (local domain tld : str) : str :=
  local ++ lit "@" ++ domain ++ lit "." ++ tld.

(** The text is not part of a longer candidate: it is not preceded by a
    character of the local class and not followed by a word character or a
    character of the domain class. *)
Definition delimited (pre post : str) : Prop :=
  outside Route.localClass (last pre) ∧
  outside Js.isWord (head post) ∧
  outside Route.domainClass (head post).

(** The message the [catch] clause starts from. *)
Definition thrownText (e : Thrown) : str :=
  match e with
  | ErrorWith m => if Js.truthy (Js.trim m) then m else lit "Failed to send email."
  | NotAnError => lit "Failed to send email."
  end.

(** The masked form of [local@domain.tld]: the first two characters of the
    local part (the first one when it has at most two), three stars, and the
    domain, in lower case. *)
Definition masked (local domain tld : str) : str :=
  take (if length local <=? 2 then 1 else 2) (Js.toLowerCase local)
  ++ lit "***@" ++ Js.toLowerCase (domain ++ lit "." ++ tld).

(** [Masks message out]: [message] is plain text around delimited addresses
    of the pattern's shape, and [out] is [message] with each of them replaced
    by its masked form. *)
Inductive Masks : str → str → Prop :=
| masks_plain text :
    "@"%char ∉ text → Masks text text
| masks_address pre local domain tld post out :
    "@"%char ∉ pre →
    TextAddress local domain tld →
    delimited pre post →
    Masks post out →
    Masks (pre ++ address local domain tld ++ post)
          (pre ++ masked local domain tld ++ out).

(** Every [@] of the text comes right after a star. *)
Fixpoint starred (prev : option ascii) (s : str) : bool :=
  match s with
  | [] => true
  | c :: s' =>
      (if bool_decide (c = "@"%char) then bool_decide (prev = Some "*"%char)
       else true)
      && starred (Some c) s'
  end.

(** The transport step of the route throws [e] at world [w]: the mail client
    cannot be configured, or the provider rejects the call. *)
Definition transportThrows (env : ProcessEnv) (o : Oracle) (w : World)
    (e : Thrown) : Prop :=
  (∃ m, Route.getGmailClient env = Some m ∧ e = ErrorWith m) ∨
  (Route.getGmailClient env = None ∧
   ∀ raw, gmail o (S (tick w)) raw = Rejects e).

(** The string does not start with white space. *)
Definition cleanStart (s : str) : Prop :=
  match s with c :: _ => Js.isSpace c = false | [] => True end.

(** The answer of the route to a message the provider accepted. *)
Definition sentResponse (messageId : str) (threadId : option str)
    : Route.Response :=
  {| Route.http_status := 200;
     Route.payload :=
       Some {| Route.p_ok := true; Route.p_provider := lit "gmail";
               Route.p_error := None; Route.p_dryRun := false;
               Route.p_id := Some messageId; Route.p_threadId := threadId;
               Route.p_messageId := Some messageId |} |}.

(** The [To] header the route builds from the fields of a body. *)
Definition toAddressOf (f : Route.Fields) : str :=
  let toEmail :=
    Js.toLowerCase (Route.b_to_email f) in
  let toName := Route.b_to_name f in
  if Js.truthy toName
  then [Route.dquote] ++ Js.removeChar toName Route.dquote ++ [Route.dquote]
       ++ lit " <" ++ toEmail ++ lit ">"
  else toEmail.

(** A send-log row as the route writes them: the archive filename and the
    account key are not empty, the recipient has the shape of an address, a
    [sent] row carries a message id and no error, a [failed] row an error and
    no message id. *)
Definition wellFormedLog (log : SendLogInput) : Prop :=
  log_zip_filename log ≠ [] ∧
  log_account_key log ≠ [] ∧
  Regex.test Route.EMAIL_PATTERN (log_to_email log) = true ∧
  match log_status log with
  | log_sent =>
      log_error log = None ∧ ∃ mid, log_message_id log = Some mid ∧ mid ≠ []
  | log_failed =>
      (∃ message, log_error log = Some message) ∧ log_message_id log = None
  end.

(** What one request adds to the trace: nothing, a send-log write, or a
    transport call followed by a send-log write. *)
Inductive RouteTrace (request : Route.Request) : list Event → Prop :=
| route_silent :
    RouteTrace request []
| route_logged log :
    log_status log = log_failed → wellFormedLog log →
    RouteTrace request [LogInsert log]
| route_transport body raw log :
    Route.request_json request = Some body → wellFormedLog log →
    RouteTrace request [GmailSend body raw; LogInsert log].

(** The send log after a request: as before, or one row longer, the row
    being the one whose write the trace ends with. *)
Definition logGrowth (before after : list SendLogRow) (evs : list Event)
    : Prop :=
  after = before ∨
  ∃ log at_, last evs = Some (LogInsert log) ∧
             after = before ++ [{| sent_at := at_; inserted := log |}].

(** The message the route hands to the mail provider for the fields of a
    body. *)
Definition messageOf (lib : Platform) (env : ProcessEnv) (f : Route.Fields)
    : MimeParams :=
  let accountKey := Route.b_account_key f in
  let tradeDate := Route.b_trade_date f in
  let toName := Route.b_to_name f in
  {| mime_from := Js.trim (default [] (GMAIL_SENDER_EMAIL env));
     mime_to := toAddressOf f;
     mime_subject :=
       lit "Bill " ++ accountKey ++
       (if Js.truthy tradeDate then lit " " ++ tradeDate else []);
     mime_text :=
       lit "Hi " ++ (if Js.truthy toName then toName else accountKey) ++ lit ","
       ++ [Route.newline; Route.newline] ++ lit "Attached is your bill"
       ++ (if Js.truthy tradeDate then lit " for " ++ tradeDate else [])
       ++ lit "." ++ [Route.newline; Route.newline] ++ Route.SIGNATURE;
     mime_filename := Route.b_filename f;
     mime_pdfBuffer := base64Decode lib (Route.b_pdf_base64 f) |}.

(** The send-log row the route writes for the fields of a body served for
    [user]. *)
Definition logOf (f : Route.Fields) (user : User) (status : LogStatus)
    (error message_id : option str) : SendLogInput :=
  {| log_zip_filename := Route.b_zip_filename f;
     log_account_key := Route.b_account_key f;
     log_trade_date := Js.nonEmpty (Route.b_trade_date f);
     log_to_email := Js.toLowerCase (Route.b_to_email f);
     log_to_name := Js.nonEmpty (Route.b_to_name f);
     log_status := status;
     log_error := error;
     log_message_id := message_id;
     log_sent_by_auth_user_id := user_id user |}.

(** The console state after the "select all" box was set to [selected], in
    the render the state [ui sys] gave. *)
Definition afterSelectAll (view : Review.View) (selected : bool) (sys : Sys)
    : State :=
  ui (Review.setAllVisiblePendingRowsSelected (ui sys) view selected sys).2.

(** The ids of the pending rows the filters leave visible. *)
Definition visiblePendingIds (st : State) (view : Review.View) : list str :=
  map Review.item_rowId (Review.visiblePendingRows st view).

(** The contact [createContact] stores for a payload, when the store reads
    [stamp] on its clock. *)
Definition contactOf (payload : ContactUpsertInput) (stamp : str) : Contact :=
  {| c_account_key := ContactActions.normalizeAccountKey (in_account_key payload);
     c_name := ContactActions.normalizeName (in_name payload);
     c_email := ContactActions.normalizeEmail (in_email payload);
     c_updated_at := stamp |}.

(** A contact as the actions store them: a non-empty trimmed key and a
    trimmed lower-case address of the accepted shape. *)
Definition validContact (c : Contact) : Prop :=
  c_account_key c ≠ [] ∧ Js.trim (c_account_key c) = c_account_key c ∧
  Regex.test ContactActions.EMAIL_PATTERN (c_email c) = true ∧
  Js.toLowerCase (Js.trim (c_email c)) = c_email c ∧
  c_name c ≠ Some [].

(** The payload the form of the console submits. *)
Definition formPayload (form : AddContactState) : ContactUpsertInput :=
  {| in_account_key := add_account_key form;
     in_name := Some (add_name form);
     in_email := add_email form |}.

(** A store for the demo deployment: its failures carry the same error and
    its clock stands still. *)
Definition demoDatabase : Database :=
  {| pg_error := fun _ => {| pg_code := lit "08006";
                             pg_message := lit "connection failure" |};
     now := fun _ => lit "2024-01-06T09:00:00+00:00" |}.

(** The payload for a contact of [ZZ9], typed carelessly. *)
Definition zoePayload : ContactUpsertInput :=
  {| in_account_key := lit " ZZ9 "; in_name := Some (lit " Zoe ");
     in_email := lit " Zoe@Example.COM " |}.

(** A row as [mergeRowsWithContacts] makes it once [contact] is known. *)
Definition withContact (contact : Contact) (row : BillRow) : BillRow :=
  {| parsed := parsed row;
     contact_name := c_name contact;
     contact_email := Some (c_email contact);
     status := Pending |}.

(** The form of the console filled in for [ZZ9], typed carelessly. *)
Definition zoeForm : AddContactState :=
  {| add_account_key := lit "ZZ9 "; add_name := lit " Zoe ";
     add_email := lit " Zoe@Example.COM "; add_error := [] |}.

(** The keys [POST] reads from the body. *)
Definition bodyKeys : list str :=
  [ lit "zip_filename"; lit "account_key"; lit "trade_date"; lit "to_email";
    lit "to_name"; lit "filename"; lit "pdf_base64" ].

(** * Properties *)

(** ** Row reconciliation *)

Lemma truthy_true (s : str) : Js.truthy s = true ↔ s ≠ [].
Proof. destruct s; simpl; split; congruence. Qed.

Lemma truthy_false (s : str) : Js.truthy s = false ↔ s = [].
Proof. destruct s; simpl; split; congruence. Qed.

(** A row id names no member of [Object.prototype]. *)
Lemma getRowId_not_inherited (row : BillRow) : getRowId row ∉ Js.objectPrototype.
Proof.
  assert (Hcolon : ":"%char ∈ getRowId row).
  { unfold getRowId. apply elem_of_app. right. apply list_elem_of_here. }
  intros Hin. unfold Js.objectPrototype in Hin.
  repeat (apply elem_of_cons in Hin as [Heq|Hin];
          [rewrite Heq in Hcolon; revert Hcolon;
           apply (bool_decide_unpack _); by vm_compute|]).
  by apply elem_of_nil in Hin.
Qed.

Lemma getStatusFromEmail_Pending (email : option str) :
  getStatusFromEmail email = Pending ↔ ∃ e, email = Some e ∧ e ≠ [].
Proof.
  unfold getStatusFromEmail. destruct email as [e|].
  - destruct (Js.truthy e) eqn:He.
    + apply truthy_true in He. split; [eauto | done].
    + apply truthy_false in He. split; [done | intros (e' & [= <-] & Hne); done].
  - split; [done | intros (e' & [=] & _)].
Qed.

Lemma mergeRow_status (contactsByKey : gmap str Contact) (row : ParsedBillRow) :
  status (mergeRow contactsByKey row) = Pending ↔
  resolvedEmail contactsByKey (account_key row).
Proof.
  unfold mergeRow, resolvedEmail, Js.member. simpl.
  rewrite getStatusFromEmail_Pending.
  destruct (contactsByKey !! account_key row) as [c|]; simpl.
  - split.
    + intros (e & [= <-] & Hne). eauto.
    + intros (c' & [= <-] & Hne). eauto.
  - split; [|intros (c' & [=] & _)].
    by destruct (bool_decide _); intros (e & [=] & _).
Qed.

Lemma mergeRow_statuses (contactsByKey : gmap str Contact) (row : ParsedBillRow) :
  (status (mergeRow contactsByKey row) = Pending ↔
     resolvedEmail contactsByKey (account_key (mergeRow contactsByKey row))) ∧
  (status (mergeRow contactsByKey row) = Blocked ↔
     ¬ resolvedEmail contactsByKey (account_key (mergeRow contactsByKey row))).
Proof.
  pose proof (mergeRow_status contactsByKey row) as H.
  split; [exact H|].
  rewrite <- H. destruct (status (mergeRow contactsByKey row)); split; congruence.
Qed.

Lemma syncContactsForKeys_rows env o keys sys :
  let uniqueKeys := uniqueAccountKeys keys in
  let contactsByKey := (Actions.getContactsByKeys env o uniqueKeys (world sys)).1 in
  rows (ui (syncContactsForKeys env o keys sys).2) =
  map (fun row : BillRow =>
         if decide (account_key row ∈ uniqueKeys)
         then mergeRow contactsByKey row else row) (rows (ui sys)).
Proof.
  simpl. unfold syncContactsForKeys.
  destruct (length (uniqueAccountKeys keys) =? 0) eqn:Hlen.
  - apply Nat.eqb_eq, nil_length_inv in Hlen. rewrite Hlen. simpl.
    rewrite <- (map_id (rows (ui sys))) at 1. apply map_ext. intros r.
    destruct (decide (account_key r ∈ [])) as [H|H]; [|done].
    by apply elem_of_nil in H.
  - unfold bind, call, setRows, modify.
    destruct (Actions.getContactsByKeys env o _ (world sys)) as [m w].
    simpl. apply map_ext. intros row.
    rewrite bool_decide_decide. by destruct (decide _).
Qed.

(** C7: after the merge of parsed records with contacts, and after a
    contact refresh for a set of keys (for the rows it recomputes), a row is
    [Pending] exactly when a contact with a non-empty email is known for its
    account key, and [Blocked] otherwise; the refresh leaves the rows of
    other keys as they were. *)
Theorem status_pending_iff_contact_email :
  (∀ (parsedRows : list ParsedBillRow) (contactsByKey : gmap str Contact)
     (row : BillRow),
     row ∈ mergeRowsWithContacts parsedRows contactsByKey →
     (status row = Pending ↔ resolvedEmail contactsByKey (account_key row)) ∧
     (status row = Blocked ↔ ¬ resolvedEmail contactsByKey (account_key row)))
  ∧
  (∀ env o (keys : list str) (sys : Sys),
     let uniqueKeys := uniqueAccountKeys keys in
     let contactsByKey :=
       (Actions.getContactsByKeys env o uniqueKeys (world sys)).1 in
     let after := rows (ui (syncContactsForKeys env o keys sys).2) in
     length after = length (rows (ui sys)) ∧
     ∀ (i : nat) (row row' : BillRow),
       rows (ui sys) !! i = Some row → after !! i = Some row' →
       parsed row' = parsed row ∧
       if decide (account_key row ∈ uniqueKeys)
       then (status row' = Pending ↔
               resolvedEmail contactsByKey (account_key row')) ∧
            (status row' = Blocked ↔
               ¬ resolvedEmail contactsByKey (account_key row'))
       else row' = row).
Proof.
  split.
  - intros parsedRows contactsByKey row Hin.
    unfold mergeRowsWithContacts in Hin.
    apply list_elem_of_fmap in Hin as (p & -> & _).
    apply mergeRow_statuses.
  - intros env o keys sys uniqueKeys contactsByKey after.
    subst after. rewrite syncContactsForKeys_rows.
    fold uniqueKeys contactsByKey. split; [by rewrite length_map|].
    intros i row row' Hrow Hrow'.
    rewrite list_lookup_fmap, Hrow in Hrow'. simpl in Hrow'.
    injection Hrow' as <-.
    destruct (decide (account_key row ∈ uniqueKeys)); [|done].
    split; [done|]. apply mergeRow_statuses.
Qed.

(** C7 at the demo rows: [PR20] has a contact, [PR21] has none in an empty
    directory. *)
Lemma status_pending_iff_contact_email_witness :
  status Demo.rowPR20 = Pending ∧
  status (mergeRow ∅ Demo.rowPR21) = Blocked.
Proof.
  destruct status_pending_iff_contact_email as [Hmerge _].
  split.
  - apply (Hmerge [parsed Demo.rowPR20] {[ lit "PR20" := Demo.alice ]}).
    + apply list_elem_of_here.
    + exists Demo.alice. split; [reflexivity | discriminate].
  - apply (Hmerge [parsed Demo.rowPR21] ∅).
    + apply list_elem_of_here.
    + intros (c & Hc & _). discriminate Hc.
Defined.

(** ** Archive parsing: the manifest path *)

Lemma readManifest_no_success_list lib zip manifestFile manifestData :
  zipFile zip "manifest.json" = Some manifestFile →
  JSON_parse lib (content manifestFile) = Some manifestData →
  Json.isArray (Json.prop manifestData "success") = None →
  parsed_source (readManifest lib zip) = manifest ∧
  parsedRows (readManifest lib zip) = [].
Proof.
  intros Hfile Hparse Hsuccess. unfold readManifest.
  rewrite Hfile, Hparse, Hsuccess.
  by destruct (Json.prop manifestData "trade_date").
Qed.

(** C10: when [manifest.json] parses but its [success] is missing or not an
    array, parsing yields no record with source [manifest]; the filename
    fallback is not consulted, whatever the archive holds, and the console
    shows a zero-row summary. *)
Theorem manifest_without_success_list_yields_no_rows
    lib zip manifestFile manifestData :
  zipFile zip "manifest.json" = Some manifestFile →
  JSON_parse lib (content manifestFile) = Some manifestData →
  Json.isArray (Json.prop manifestData "success") = None →
  parsedRows (parseArchive lib zip) = [] ∧
  parsed_source (parseArchive lib zip) = manifest ∧
  ∀ env o file sys,
    loadAsync file = inl zip →
    let after := ui (parseUploadedZip lib env o file sys).2 in
    rows after = [] ∧
    summary after =
      Some {| zipFilename := file_name file; rowCount := 0; source := manifest |} ∧
    zipRef after = Some zip.
Proof.
  intros Hfile Hparse Hsuccess.
  destruct (readManifest_no_success_list _ _ _ _ Hfile Hparse Hsuccess)
    as [Hsource Hrows].
  assert (Harchive : parsedRows (parseArchive lib zip) = [] ∧
                     parsed_source (parseArchive lib zip) = manifest).
  { unfold parseArchive. rewrite Hsource. simpl. rewrite Hrows. simpl.
    by rewrite Hsource. }
  destruct Harchive as [Hr Hs]. split; [done|]. split; [done|].
  intros env o file sys Hload. unfold parseUploadedZip.
  rewrite Hload, Hr, Hs. simpl. done.
Qed.

(** C10 at an archive holding [manifest.json = {}] and a bill the fallback
    would accept. *)
Lemma manifest_without_success_list_yields_no_rows_witness :
  parseFallbackRows Demo.emptyManifestZip ≠ [] ∧
  parsedRows (parseArchive Demo.lib Demo.emptyManifestZip) = [] ∧
  parsed_source (parseArchive Demo.lib Demo.emptyManifestZip) = manifest.
Proof.
  split; [discriminate|].
  pose proof (manifest_without_success_list_yields_no_rows Demo.lib
                Demo.emptyManifestZip
                {| name := lit "manifest.json"; dir := false; content := lit "{}" |}
                (Json.Obj [])) as H.
  destruct H as (Hrows & Hsource & _); [reflexivity | reflexivity | reflexivity |].
  split; [exact Hrows | exact Hsource].
Defined.

(** ** The send route *)

Lemma truthy_ne (s : str) : s ≠ [] → Js.truthy s = true.
Proof. by destruct s. Qed.

Lemma length_eqb_ne {A} (l : list A) : l ≠ [] → (length l =? 0) = false.
Proof. by destruct l. Qed.

(** C9: an authorized request that passes validation (its body is read into
    the fields [f], and [f] passes every check), with a valid sender
    configured and [dryRun=1] in the URL, is answered [ok: true, dryRun: true]
    without a call to the mail provider and without a send-log write: the
    world is as before, but for the session having been looked up. *)
Theorem dry_run_has_no_effect lib env o request body f w :
  authorized env (session o (tick w)) →
  Route.request_json request = Some body →
  Route.readFields body = Some f →
  validInput lib f →
  validSender env →
  Route.searchParams_get (Route.searchParams request) "dryRun" = Some (lit "1") →
  Route.POST lib env o request w = (dryRunResponse, ticked w).
Proof.
  intros (Hauth & u & Hu & Hadmin) Hbody Hread
    (Hzip & Hkey & Hmail & Hat & Hpdf & Hb64 & Hbuf)
    (e & He & Hne & Hsender) Hdry.
  unfold Route.POST, bind, nextTick. cbv beta iota zeta.
  rewrite Hauth. cbv beta iota. rewrite Hu, Hadmin, Hbody, Hread. cbv beta iota.
  unfold Route.handle; cbv beta iota zeta.
  rewrite (truthy_ne _ Hzip), (truthy_ne _ Hkey), Hmail, Hat, Hpdf,
    (truthy_ne _ Hb64), (length_eqb_ne _ Hbuf); cbv beta iota.
  rewrite He; cbn [fmap option_fmap option_map];
    rewrite (truthy_ne _ Hne), Hsender; cbv beta iota.
  rewrite Hdry; by rewrite bool_decide_eq_true_2.
Qed.

(** C9 at the demo deployment: a well-formed request for [PR20] sent to
    [/api/send-email?dryRun=1]. *)
Lemma dry_run_has_no_effect_witness :
  Route.POST Demo.lib Demo.env (Demo.oracle Demo.accepted)
    {| Route.searchParams := [(lit "dryRun", lit "1")];
       Route.request_json := Some (Demo.body "alice@example.com") |}
    Demo.world0 =
  (dryRunResponse, ticked Demo.world0).
Proof.
  eapply (dry_run_has_no_effect Demo.lib Demo.env (Demo.oracle Demo.accepted) _
            (Demo.body "alice@example.com")).
  - split; [reflexivity|].
    exists {| user_id := lit "u1"; user_email := Some (lit "ops@example.com") |}.
    split; reflexivity.
  - reflexivity.
  - reflexivity.
  - repeat split; try discriminate; reflexivity.
  - exists (lit "billing@example.com"). repeat split; try discriminate; reflexivity.
  - reflexivity.
Defined.

(** ** Traces of the route, the server actions and the send loop *)

Ltac break_match :=
  match goal with
  | |- context [if ?c then _ else _] => destruct c eqn:?
  | |- context [match ?x with _ => _ end] => destruct x eqn:?
  end.

Ltac run_eff :=
  unfold bind, ret, emit, nextTick, appendLog, getWorld; cbv beta iota zeta.

Ltac close_trace :=
  unfold grows; simpl; eexists; split;
  [ rewrite <- ?app_assoc; try reflexivity; by rewrite app_nil_r
  | repeat constructor ].

Lemma grows_refl w : grows w w [].
Proof. unfold grows. by rewrite app_nil_r. Qed.

Lemma grows_trans w1 w2 w3 evs evs' :
  grows w1 w2 evs → grows w2 w3 evs' → grows w1 w3 (evs ++ evs').
Proof. unfold grows. intros H1 H2. by rewrite H2, H1, app_assoc. Qed.

Lemma writeSendLog_events o log w :
  trace (Route.writeSendLog o log w).2 = trace w ++ [LogInsert log].
Proof.
  unfold Route.writeSendLog. run_eff. cbn [tick].
  by destruct (storeError o (tick w)).
Qed.

Lemma logged_events body o log (r : Route.Response) w0 w evs :
  trace w = trace w0 ++ evs → Forall (routeEvent body) evs →
  ∃ evs', trace ((Route.writeSendLog o log ;; ret r)%eff w).2 = trace w0 ++ evs' ∧
          Forall (routeEvent body) evs'.
Proof.
  intros Ht Hevs. exists (evs ++ [LogInsert log]).
  pose proof (writeSendLog_events o log w) as Hw.
  unfold bind, ret. destruct (Route.writeSendLog o log w) as [[] w1]. cbn [snd] in *.
  split; [by rewrite Hw, Ht, app_assoc|].
  apply Forall_app. split; [done | by repeat constructor].
Qed.

Lemma handle_events lib env o request u body f w :
  ∃ evs, grows w (Route.handle lib env o request u body f w).2 evs ∧
         Forall (routeEvent body) evs.
Proof.
  unfold grows.
  assert (Hsilent : ∀ r : Route.Response,
            ∃ evs, trace (ret r w).2 = trace w ++ evs ∧ Forall (routeEvent body) evs).
  { intros r. exists []. split; [by rewrite app_nil_r | constructor]. }
  assert (Hlogged : ∀ log (r : Route.Response),
            ∃ evs, trace ((Route.writeSendLog o log ;; ret r)%eff w).2 = trace w ++ evs ∧
                   Forall (routeEvent body) evs).
  { intros log r. apply (logged_events body o log r w w []);
      [by rewrite app_nil_r | constructor]. }
  unfold Route.handle. cbv beta iota zeta.
  destruct (negb (Js.truthy (Route.b_zip_filename f))); [apply Hsilent|].
  destruct (negb (Js.truthy (Route.b_account_key f))); [apply Hsilent|].
  destruct (negb (Regex.test _ _) || _); [apply Hsilent|].
  destruct (negb (Js.endsWith _ _)); [apply Hsilent|].
  destruct (negb (Js.truthy (Route.b_pdf_base64 f))); [apply Hsilent|].
  destruct (length _ =? 0); [apply Hsilent|].
  match goal with
  | |- context [match ?s with Some _ => _ | None => _ end] =>
      destruct s as [senderEmail|]
  end; [|apply Hlogged].
  destruct (bool_decide _); [apply Hsilent|].
  destruct (Route.getGmailClient env) as [m|]; [apply Hlogged|].
  unfold bind at 1, emit at 1. cbv beta iota zeta.
  unfold bind at 1, nextTick at 1. cbv beta iota zeta.
  cbn [tick send_logs contacts trace].
  match goal with
  | |- context [gmail o (tick w) ?raw] =>
      set (sending_raw := raw);
      destruct (gmail o (tick w) sending_raw) as [r|e]
  end.
  - destruct (data_id r ≫= Js.nonEmpty) as [mid|];
      eapply (logged_events body o _ _ w _ [GmailSend body sending_raw]);
      try done; by repeat constructor.
  - unfold Route.onTransportError. cbv zeta.
    eapply (logged_events body o _ _ w _ [GmailSend body sending_raw]);
      try done; by repeat constructor.
Qed.

Lemma POST_events lib env o request body w :
  Route.request_json request = Some body →
  ∃ evs, grows w (Route.POST lib env o request w).2 evs ∧
         Forall (routeEvent body) evs.
Proof.
  intros Hbody. unfold Route.POST. run_eff. rewrite Hbody.
  destruct (negb (Auth.isAuthenticated _)); [close_trace|].
  destruct (user _) as [u|]; [|close_trace].
  destruct (negb (Auth.hasAdminAccess _ _ _)); [close_trace|].
  destruct (Route.readFields body) as [f|]; [|close_trace].
  destruct (handle_events lib env o request u body f
              {| tick := S (tick w); send_logs := send_logs w;
                 contacts := contacts w; trace := trace w |}) as (evs & H & HP).
  by exists evs.
Qed.

Lemma getLastSendStatusForZip_events env o z keys w :
  ∃ rest,
    grows w (Actions.getLastSendStatusForZip env o z keys w).2
      (GetLastSendStatus z keys :: rest) ∧
    Forall auditEvent (GetLastSendStatus z keys :: rest).
Proof.
  unfold grows, Actions.getLastSendStatusForZip. run_eff.
  repeat break_match; close_trace.
Qed.

(** *** The follow-up query changes nothing but the cached log statuses *)

Lemma uniqueAccountKeys_singleton (key : str) :
  uniqueAccountKeys [key] =
  if Js.truthy (Js.trim key) then [Js.trim key] else [].
Proof.
  unfold uniqueAccountKeys, normalizeAccountKey. simpl.
  destruct (Js.truthy (Js.trim key)) eqn:H.
  - by rewrite filter_cons_True by done.
  - rewrite filter_cons_False by (rewrite H; done). done.
Qed.

Lemma refreshLastLogStatusForKeys_spec env o snap (key : str) sys :
  Js.truthy (zipFilenameOf snap) = true →
  let sys' := (refreshLastLogStatusForKeys env o snap [key] sys).2 in
  (∃ f, ui sys' = with_lastLogStatusByKey f (ui sys)) ∧
  ∃ audit,
    grows (world sys) (world sys') audit ∧
    Forall auditEvent audit ∧
    (Js.trim key ≠ [] →
     ∃ rest, audit = GetLastSendStatus (zipFilenameOf snap) [Js.trim key] :: rest).
Proof.
  intros Hzf. unfold refreshLastLogStatusForKeys.
  rewrite Hzf, uniqueAccountKeys_singleton. cbn [length Nat.ltb Nat.leb negb orb].
  destruct (Js.truthy (Js.trim key)) eqn:Hkey.
  - cbn [length Nat.eqb]. unfold bind, call, setLastLogStatusByKey, modify.
    destruct (getLastSendStatusForZip_events env o (zipFilenameOf snap)
                [Js.trim key] (world sys)) as (rest & Hg & Ha).
    destruct (Actions.getLastSendStatusForZip _ _ _ _ _) as [latest w'].
    simpl in *. split; [by eexists|].
    exists (GetLastSendStatus (zipFilenameOf snap) [Js.trim key] :: rest).
    split; [done|]. split; [done|]. by eexists.
  - simpl. split.
    + exists (fun m => m). by destruct (ui sys).
    + exists []. split; [apply grows_refl|]. split; [constructor|].
      intros Hne. by destruct (Js.trim key).
Qed.

(** *** One call of [sendEmailForRow] *)

Lemma routeEvent_attemptEvent zf row pdfBase64 e :
  routeEvent (requestBody zf row pdfBase64) e → attemptEvent zf row e.
Proof. destruct e; simpl; try done. intros ->. by eexists. Qed.

Lemma call_POST_spec lib env o body sys :
  let r := call (Route.POST lib env o
                   {| Route.searchParams := []; Route.request_json := Some body |})
             sys in
  ui r.2 = ui sys ∧
  ∃ evs, grows (world sys) (world r.2) evs ∧ Forall (routeEvent body) evs.
Proof.
  unfold call.
  destruct (POST_events lib env o
              {| Route.searchParams := []; Route.request_json := Some body |}
              body (world sys) eq_refl) as (evs & Hg & HP).
  destruct (Route.POST _ _ _ _ _) as [resp w']. simpl in *. eauto.
Qed.

Ltac step_eff H :=
  cbn [bind getState call emit nextTick ret modify fst snd ui world tick
       send_logs contacts trace] in H.

Lemma trySend_spec lib env o snap row sys :
  let r := trySend lib env o snap row sys in
  ui r.2 = ui sys ∧
  ∃ served,
    grows (world sys) (world r.2) served ∧
    Forall (attemptEvent (zipFilenameOf snap) row) served.
Proof.
  destruct (trySend lib env o snap row sys) as [outcome sys'] eqn:Hres.
  cbn [snd]. unfold trySend in Hres. step_eff Hres.
  destruct (zipRef (ui sys)) as [zip|];
    [|injection Hres as _ <-;
      split; [done | exists []; split; [apply grows_refl | constructor]]].
  destruct (findPdfEntry zip row) as [pdfEntry|];
    [|injection Hres as _ <-;
      split; [done | exists []; split; [apply grows_refl | constructor]]].
  destruct (toBase64 lib (content pdfEntry)) as [pdfBase64|];
    [|injection Hres as _ <-;
      split; [done | exists []; split; [apply grows_refl | constructor]]].
  step_eff Hres.
  set (body := requestBody (zipFilenameOf snap) row pdfBase64) in Hres.
  set (sys1 := {| ui := ui sys; world := _ |}) in Hres.
  assert (Hfetch : grows (world sys) (world sys1) [Fetch body]) by done.
  assert (HF : attemptEvent (zipFilenameOf snap) row (Fetch body))
    by (by eexists).
  destruct (call_POST_spec lib env o body sys1) as (Hui & evs & Hg & HP).
  assert (Hall : Forall (attemptEvent (zipFilenameOf snap) row)
                   ([Fetch body] ++ evs)).
  { apply Forall_app. split; [by constructor|].
    eapply Forall_impl; [exact HP|]. intros x. apply routeEvent_attemptEvent. }
  destruct (network o _) as [|e|e]; unfold bind in Hres.
  - destruct (call _ sys1) as [response sys2]. simpl in Hui, Hg.
    assert (sys' = sys2) as ->.
    { destruct (_ || _) in Hres; by injection Hres. }
    split; [done|]. exists ([Fetch body] ++ evs). split; [|done].
    by eapply grows_trans.
  - injection Hres as _ <-. split; [done|].
    exists [Fetch body]. split; [done | by constructor].
  - destruct (call _ sys1) as [response sys2]. simpl in Hui, Hg.
    injection Hres as _ <-.
    split; [done|]. exists ([Fetch body] ++ evs). split; [|done].
    by eapply grows_trans.
Qed.

Lemma setRowSendState_spec rowId st err sys :
  let m := <[rowId := {| send_state := st; send_error := err |}]>
             (rowSendStates (ui sys)) in
  (setRowSendState rowId st err sys).2 =
  {| ui := with_rowSendStates (fun _ => m) (ui sys);
     world := {| tick := tick (world sys); send_logs := send_logs (world sys);
                 contacts := contacts (world sys);
                 trace := trace (world sys) ++ [RowStates m] |} |}.
Proof. done. Qed.

(** The end of an attempt: the row is settled, then the log is queried. *)
Lemma settle_and_refresh env o snap (row : BillRow) st err (result : bool) sys :
  Js.truthy (zipFilenameOf snap) = true →
  let m := <[getRowId row := {| send_state := st; send_error := err |}]>
             (rowSendStates (ui sys)) in
  let r := bind (bind (setRowSendState (getRowId row) st err)
                   (fun _ => ret result))
             (fun result =>
                bind (refreshLastLogStatusForKeys env o snap [account_key row])
                  (fun _ => ret result)) sys in
  rowSendStates (ui r.2) = m ∧
  ∃ audit,
    grows (world sys) (world r.2) ([RowStates m] ++ audit) ∧
    Forall auditEvent audit ∧
    (Js.trim (account_key row) ≠ [] →
     ∃ rest, audit = GetLastSendStatus (zipFilenameOf snap)
                       [Js.trim (account_key row)] :: rest).
Proof.
  intros Hzf m r.
  destruct r as [res sys'] eqn:Hres. subst r. cbn [snd]. unfold bind in Hres.
  pose proof (setRowSendState_spec (getRowId row) st err sys) as Hset.
  destruct (setRowSendState _ _ _ sys) as [[] sys1]. simpl in Hset.
  unfold ret at 1 in Hres.
  destruct (refreshLastLogStatusForKeys_spec env o snap (account_key row) sys1 Hzf)
    as ((f & Hf) & audit & Hga & Haudit & Hshape).
  destruct (refreshLastLogStatusForKeys env o snap _ sys1) as [[] sys2].
  injection Hres as _ <-.
  simpl in *. rewrite Hf, Hset. split; [done|].
  exists audit. split; [|done].
  unfold grows in *. rewrite Hga, Hset. simpl. by rewrite <- app_assoc.
Qed.

Lemma sendEmailForRow_episode lib env o snap row sys :
  let r := sendEmailForRow lib env o snap row sys in
  ∃ evs,
    grows (world sys) (world r.2) evs ∧
    Episode (zipFilenameOf snap) row (rowSendStates (ui sys)) evs
      (rowSendStates (ui r.2)).
Proof.
  destruct (sendEmailForRow lib env o snap row sys) as [result sys'] eqn:Hres.
  cbn [snd]. unfold sendEmailForRow in Hres.
  destruct (bool_decide _) in Hres.
  { injection Hres as _ <-. exists []. split; [apply grows_refl | constructor]. }
  destruct (negb (default false _)) in Hres.
  { unfold bind in Hres.
    pose proof (setRowSendState_spec (getRowId row) failed
                  (Some (lit "No contact email available.")) sys) as Hset.
    destruct (setRowSendState _ _ _ sys) as [[] sys1]. simpl in Hset.
    injection Hres as _ <-. subst sys1. eexists. split; [done|].
    apply episode_refused. }
  destruct (negb (Js.truthy (zipFilenameOf snap))) eqn:Hzf in Hres.
  { unfold bind in Hres.
    pose proof (setRowSendState_spec (getRowId row) failed
                  (Some (lit "ZIP filename is unavailable. Re-upload the file."))
                  sys) as Hset.
    destruct (setRowSendState _ _ _ sys) as [[] sys1]. simpl in Hset.
    injection Hres as _ <-. subst sys1. eexists. split; [done|].
    apply episode_refused. }
  apply negb_false_iff in Hzf.
  unfold bind at 1 2 in Hres. unfold setActionError, modify in Hres.
  set (sys0 := {| ui := with_actionError [] (ui sys); world := world sys |}) in Hres.
  pose proof (setRowSendState_spec (getRowId row) sending None sys0) as Hset.
  destruct (setRowSendState _ _ _ sys0) as [[] sys1]. simpl in Hset.
  unfold bind at 1 in Hres.
  destruct (trySend_spec lib env o snap row sys1) as (Hui & served & Hg & Hserved).
  destruct (trySend lib env o snap row sys1) as [outcome sys2].
  simpl in Hui, Hg.
  set (m1 := <[getRowId row := {| send_state := sending; send_error := None |}]>
               (rowSendStates (ui sys))) in *.
  assert (Hm1 : rowSendStates (ui sys2) = m1) by (by rewrite Hui, Hset).
  assert (Hg1 : grows (world sys) (world sys2) ([RowStates m1] ++ served)).
  { unfold grows in *. rewrite Hg, Hset. simpl. by rewrite <- app_assoc. }
  destruct outcome as [errorMessage|[]].
  - destruct (settle_and_refresh env o snap row failed (Some errorMessage) false
                sys2 Hzf) as (Hm & audit & Hga & Haudit & Hshape).
    rewrite Hres in Hm, Hga. simpl in Hm, Hga. rewrite Hm1 in Hm, Hga.
    set (out := {| send_state := failed; send_error := Some errorMessage |}) in *.
    exists (([RowStates m1] ++ served) ++ [RowStates (<[getRowId row := out]> m1)]
            ++ audit).
    split; [by eapply grows_trans|]. rewrite Hm, <- app_assoc.
    apply (episode_attempt _ _ _ served out audit); try done. by right.
  - destruct (settle_and_refresh env o snap row sent None true
                sys2 Hzf) as (Hm & audit & Hga & Haudit & Hshape).
    rewrite Hres in Hm, Hga. simpl in Hm, Hga. rewrite Hm1 in Hm, Hga.
    set (out := {| send_state := sent; send_error := None |}) in *.
    exists (([RowStates m1] ++ served) ++ [RowStates (<[getRowId row := out]> m1)]
            ++ audit).
    split; [by eapply grows_trans|]. rewrite Hm, <- app_assoc.
    apply (episode_attempt _ _ _ served out audit); try done. by left.
Qed.

Lemma sendEach_episodes lib env o snap list sys :
  let r := sendEach lib env o snap list sys in
  ∃ evs,
    grows (world sys) (world r.2) evs ∧
    Episodes (zipFilenameOf snap) list (rowSendStates (ui sys)) evs
      (rowSendStates (ui r.2)).
Proof.
  revert sys. induction list as [|row rest IH]; intros sys.
  - exists []. split; [apply grows_refl | constructor].
  - simpl. unfold bind.
    destruct (sendEmailForRow_episode lib env o snap row sys)
      as (evs & Hg & Hep).
    destruct (sendEmailForRow lib env o snap row sys) as [b sys1].
    destruct (IH sys1) as (evs' & Hg' & Heps). simpl in *.
    exists (evs ++ evs'). split; [by eapply grows_trans|].
    by econstructor.
Qed.

(** *** Bulk runs *)

Lemma runBulk_episodes mode lib env o snap sys :
  let r := runBulk mode lib env o snap sys in
  ∃ evs,
    grows (world sys) (world r.2) evs ∧
    Episodes (zipFilenameOf snap) (processedRows mode snap)
      (rowSendStates (ui sys)) evs (rowSendStates (ui r.2)).
Proof.
  assert (Hidle : ∀ sys',
            world sys' = world sys →
            rowSendStates (ui sys') = rowSendStates (ui sys) →
            ∃ evs, grows (world sys) (world sys') evs ∧
                   Episodes (zipFilenameOf snap) []
                     (rowSendStates (ui sys)) evs (rowSendStates (ui sys'))).
  { intros sys' -> ->. exists []. split; [apply grows_refl | constructor]. }
  assert (Hrun : ∀ rowsToSend,
    let r := bind (setActionError [])
               (fun _ => bind (setIsSendingAll true)
                  (fun _ => bind (sendEach lib env o snap rowsToSend)
                     (fun _ => setIsSendingAll false))) sys in
    ∃ evs, grows (world sys) (world r.2) evs ∧
           Episodes (zipFilenameOf snap) rowsToSend
             (rowSendStates (ui sys)) evs (rowSendStates (ui r.2))).
  { intros rowsToSend r. destruct r as [[] sys'] eqn:Hr. subst r. cbn [snd].
    unfold bind at 1 2 in Hr. unfold setActionError, setIsSendingAll in Hr.
    unfold modify at 1 2 in Hr. cbv beta iota zeta in Hr.
    set (sys1 := {| ui := _; world := _ |}) in Hr.
    destruct (sendEach_episodes lib env o snap rowsToSend sys1)
      as (evs & Hg & Heps).
    unfold bind in Hr.
    destruct (sendEach lib env o snap rowsToSend sys1) as [[] sys2].
    injection Hr as <-. by exists evs. }
  unfold processedRows, runBulk.
  destruct mode; simpl;
    unfold sendPending, sendSelectedPendingRows, retryAllFailed.
  all: destruct (isSendingAll snap); simpl; [by apply Hidle|].
  all: destruct (Js.truthy (zipFilenameOf snap)); simpl; [|by apply Hidle].
  - apply Hrun.
  - destruct (length (selectedRowsToSend snap) =? 0) eqn:Hlen; [|apply Hrun].
    apply Nat.eqb_eq, nil_length_inv in Hlen. rewrite Hlen. by apply Hidle.
  - destruct (length (failedRowsToRetry snap) =? 0) eqn:Hlen; [|apply Hrun].
    apply Nat.eqb_eq, nil_length_inv in Hlen. rewrite Hlen. by apply Hidle.
Qed.

Lemma requestBody_account_key zf (row : BillRow) pdfBase64 :
  requestFor (account_key row) (requestBody zf row pdfBase64).
Proof. reflexivity. Qed.

Lemma requestFor_inj key key' request :
  requestFor key request → requestFor key' request → key = key'.
Proof. unfold requestFor. intros -> [= ->]. done. Qed.

Lemma attemptEvent_transportFor zf (row : BillRow) key e :
  attemptEvent zf row e → transportFor key e → key = account_key row.
Proof.
  destruct e; simpl; try done.
  - intros [b ->] H. eapply requestFor_inj; [exact H | apply requestBody_account_key].
  - intros [b ->] H. eapply requestFor_inj; [exact H | apply requestBody_account_key].
Qed.

Lemma auditEvent_not_transport key e : auditEvent e → ¬ transportFor key e.
Proof. destruct e; simpl; tauto. Qed.

(** Requests and transport calls of an episode are for the episode's row. *)
Lemma Episode_transport zf (row : BillRow) m0 evs m1 key e :
  Episode zf row m0 evs m1 → e ∈ evs → transportFor key e →
  key = account_key row.
Proof.
  intros Hep Hin Ht. destruct Hep as [|message|served outcome audit m1' m2 Hs Ho Ha Hshape].
  - by apply elem_of_nil in Hin.
  - apply list_elem_of_singleton in Hin as ->. done.
  - rewrite !elem_of_app in Hin. destruct Hin as [Hin|[Hin|[Hin|Hin]]].
    + apply list_elem_of_singleton in Hin as ->. done.
    + rewrite Forall_forall in Hs. eapply attemptEvent_transportFor; eauto.
    + apply list_elem_of_singleton in Hin as ->. done.
    + rewrite Forall_forall in Ha. by destruct (auditEvent_not_transport key e (Ha _ Hin)).
Qed.

Lemma Episodes_transport zf l m0 evs m1 key e :
  Episodes zf l m0 evs m1 → e ∈ evs → transportFor key e →
  ∃ row : BillRow, row ∈ l ∧ key = account_key row.
Proof.
  induction 1 as [|row rest m0 evs m1 evs' m2 Hep Heps IH]; intros Hin Ht.
  - by apply elem_of_nil in Hin.
  - apply elem_of_app in Hin as [Hin|Hin].
    + exists row. split; [apply list_elem_of_here|].
      eapply Episode_transport; eauto.
    + destruct (IH Hin Ht) as (row' & Hrow' & ->).
      exists row'. split; [by apply list_elem_of_further | done].
Qed.

(** *** Eligibility for "send all pending" *)

Lemma pendingRowsToSend_spec snap (row : BillRow) :
  row ∈ pendingRowsToSend snap ↔
  row ∈ rows snap ∧ status row = Pending ∧
  shouldSkipRowBecauseSentEarlier snap row = false ∧
  (send_state <$> rowSendStates snap !! getRowId row) ≠ Some sent.
Proof.
  unfold pendingRowsToSend. rewrite list_elem_of_filter.
  unfold isPending, notSentInSession.
  rewrite !andb_true_iff, !negb_true_iff, bool_decide_eq_true,
    bool_decide_eq_false.
  tauto.
Qed.

Lemma processedRows_AllPending snap (row : BillRow) :
  row ∈ processedRows AllPending snap → row ∈ pendingRowsToSend snap.
Proof.
  unfold processedRows. destruct (_ || _); [|done].
  intros H. by apply elem_of_nil in H.
Qed.

(** C1: with "skip already sent" enabled (the initial value of the toggle),
    a row whose last known log status is [sent] is left out of a
    "send all pending" run: it is not among the rows the run goes through,
    which are all pending, not sent in this session and not sent earlier, and
    the run posts no request and makes no transport call for its account
    key. *)
Theorem send_pending_skips_rows_sent_earlier lib env o snap sys
    (row : BillRow) :
  skipAlreadySent snap = true →
  lastLogStatusOf snap row = Some log_sent →
  skipAlreadySent initialState = true ∧
  (row ∉ processedRows AllPending snap) ∧
  (∀ row' : BillRow,
     row' ∈ processedRows AllPending snap →
     row' ∈ rows snap ∧ status row' = Pending ∧
     lastLogStatusOf snap row' ≠ Some log_sent ∧
     (send_state <$> rowSendStates snap !! getRowId row') ≠ Some sent) ∧
  ∃ evs,
    grows (world sys) (world (sendPending lib env o snap sys).2) evs ∧
    Episodes (zipFilenameOf snap) (processedRows AllPending snap)
      (rowSendStates (ui sys)) evs
      (rowSendStates (ui (sendPending lib env o snap sys).2)) ∧
    ∀ e, e ∈ evs → ¬ transportFor (account_key row) e.
Proof.
  intros Hskip Hsent.
  assert (Hskipped : ∀ row' : BillRow,
            row' ∈ processedRows AllPending snap →
            lastLogStatusOf snap row' ≠ Some log_sent).
  { intros row' Hin. apply processedRows_AllPending, pendingRowsToSend_spec in Hin.
    destruct Hin as (_ & _ & Hno & _).
    unfold shouldSkipRowBecauseSentEarlier in Hno. rewrite Hskip in Hno.
    simpl in Hno. by apply bool_decide_eq_false in Hno. }
  split; [done|]. split; [by intros Hin; apply Hskipped in Hin|]. split.
  { intros row' Hin. split_and!; [| |by apply Hskipped|].
    all: apply processedRows_AllPending, pendingRowsToSend_spec in Hin; tauto. }
  destruct (runBulk_episodes AllPending lib env o snap sys) as (evs & Hg & Heps).
  exists evs. split; [done|]. split; [done|].
  intros e Hin Ht.
  destruct (Episodes_transport _ _ _ _ _ _ _ Heps Hin Ht) as (row' & Hrow' & Hkey).
  apply (Hskipped row' Hrow').
  unfold lastLogStatusOf in *. by rewrite <- Hkey.
Qed.

(** C1 at the demo archive, uploaded again after [PR20] was sent: the run
    sends [PR21] only. *)
Lemma send_pending_skips_rows_sent_earlier_witness :
  (Demo.rowPR20 ∉ processedRows AllPending (ui Demo.uploadedAgain)) ∧
  processedRows AllPending (ui Demo.uploadedAgain) = [Demo.rowPR21].
Proof.
  split; [|vm_compute; reflexivity].
  apply (send_pending_skips_rows_sent_earlier Demo.lib Demo.env
           (Demo.oracle Demo.accepted) (ui Demo.uploadedAgain)
           Demo.uploadedAgain Demo.rowPR20).
  - vm_compute. reflexivity.
  - vm_compute. reflexivity.
Defined.

(** *** At most one row is being sent *)

Lemma noneSending_insert m i (s : RowSendState) :
  noneSending m → send_state s ≠ sending → noneSending (<[i := s]> m).
Proof.
  intros Hm Hs j sj. rewrite lookup_insert. case_decide.
  - by intros [= <-].
  - apply Hm.
Qed.

Lemma noneSending_atMostOne m : noneSending m → atMostOneSending m.
Proof. intros Hm i j si sj Hi _ Hsi. by destruct (Hm i si Hi). Qed.

Lemma atMostOneSending_insert m i (s : RowSendState) :
  noneSending m → atMostOneSending (<[i := s]> m).
Proof.
  intros Hm j k sj sk. rewrite !lookup_insert.
  case_decide; case_decide; subst; try done.
  - intros _ Hk _ Hs. by destruct (Hm k sk Hk).
  - intros Hj _ Hs. by destruct (Hm j sj Hj).
  - intros Hj _ Hs. by destruct (Hm j sj Hj).
Qed.

Lemma Episode_sending zf (row : BillRow) m0 evs m1 :
  Episode zf row m0 evs m1 →
  noneSending m0 →
  noneSending m1 ∧ ∀ m, RowStates m ∈ evs → atMostOneSending m.
Proof.
  intros Hep H0.
  destruct Hep as [|message|served outcome audit m1' m2 Hs Ho Ha Hshape].
  - split; [done|]. intros m' Hin. by apply elem_of_nil in Hin.
  - split; [by apply noneSending_insert|].
    intros m' Hin. apply list_elem_of_singleton in Hin as [= ->].
    by apply atMostOneSending_insert.
  - assert (Hm2 : m2 = <[getRowId row := outcome]> m0)
      by (subst m2 m1'; apply insert_insert_eq).
    assert (Hnone : noneSending m2).
    { rewrite Hm2. apply noneSending_insert; [done|].
      destruct Ho as [Ho|Ho]; by rewrite Ho. }
    split; [done|]. intros m' Hin.
    rewrite !elem_of_app in Hin. destruct Hin as [Hin|[Hin|[Hin|Hin]]].
    + apply list_elem_of_singleton in Hin as [= ->].
      by apply atMostOneSending_insert.
    + rewrite Forall_forall in Hs. exfalso. exact (Hs _ Hin).
    + apply list_elem_of_singleton in Hin as [= ->].
      by apply noneSending_atMostOne.
    + rewrite Forall_forall in Ha. exfalso. exact (Ha _ Hin).
Qed.

Lemma Episodes_sending zf l m0 evs m1 :
  Episodes zf l m0 evs m1 →
  noneSending m0 →
  noneSending m1 ∧ ∀ m, RowStates m ∈ evs → atMostOneSending m.
Proof.
  induction 1 as [m0|row rest m0 evs m1 evs' m2 Hep Heps IH]; intros H0.
  - split; [done|]. intros m' Hin. by apply elem_of_nil in Hin.
  - destruct (Episode_sending _ _ _ _ _ Hep H0) as [H1 Hevs].
    destruct (IH H1) as [H2 Hevs'].
    split; [done|]. intros m' Hin. apply elem_of_app in Hin as [Hin|Hin]; eauto.
Qed.

(** C8, as the code has it: a bulk action goes through its rows one after
    the other, each row's episode (entering [sending], the request, the
    outcome, the audit-log follow-up query) being over before the next one
    starts; when no row is [sending] as the run starts, no state of the run
    has two rows [sending], and none is [sending] at its end. *)
Theorem bulk_runs_are_sequential mode lib env o snap sys :
  noneSending (rowSendStates (ui sys)) →
  ∃ evs,
    grows (world sys) (world (runBulk mode lib env o snap sys).2) evs ∧
    Episodes (zipFilenameOf snap) (processedRows mode snap)
      (rowSendStates (ui sys)) evs
      (rowSendStates (ui (runBulk mode lib env o snap sys).2)) ∧
    (∀ m, RowStates m ∈ evs → atMostOneSending m) ∧
    noneSending (rowSendStates (ui (runBulk mode lib env o snap sys).2)).
Proof.
  intros H0.
  destruct (runBulk_episodes mode lib env o snap sys) as (evs & Hg & Heps).
  destruct (Episodes_sending _ _ _ _ _ Heps H0) as [H1 Hevs].
  by exists evs.
Qed.

Lemma uploaded_rowSendStates : rowSendStates (ui Demo.uploaded) = ∅.
Proof. vm_compute. reflexivity. Defined.

(** C8 at the demo archive, just uploaded: a "send all pending" run. *)
Lemma bulk_runs_are_sequential_witness :
  noneSending
    (rowSendStates
       (ui (runBulk AllPending Demo.lib Demo.env (Demo.oracle Demo.accepted)
              (ui Demo.uploaded) Demo.uploaded).2)).
Proof.
  destruct (bulk_runs_are_sequential AllPending Demo.lib Demo.env
              (Demo.oracle Demo.accepted) (ui Demo.uploaded) Demo.uploaded)
    as (evs & _ & _ & _ & Hend).
  - rewrite uploaded_rowSendStates. intros i s Hi.
    rewrite lookup_empty in Hi. discriminate Hi.
  - exact Hend.
Defined.

(** C8 as stated fails when a row is already [sending] as the run starts
    (its own button was used and the answer is pending): the run refuses that
    row and moves on, so the sixth state of the trace has [PR20] and [PR21]
    both [sending]. *)
Lemma two_rows_sending_during_bulk_run :
  isSendingAll (ui Demo.busy) = false ∧
  trace (world Demo.busyRun) !! 5 = Some (RowStates Demo.bothSending) ∧
  ¬ atMostOneSending Demo.bothSending.
Proof.
  split; [vm_compute; reflexivity|]. split; [vm_compute; reflexivity|].
  intros H.
  specialize (H (getRowId Demo.rowPR20) (getRowId Demo.rowPR21)
                {| send_state := sending; send_error := None |}
                {| send_state := sending; send_error := None |}).
  assert (Hne : getRowId Demo.rowPR20 ≠ getRowId Demo.rowPR21)
    by (apply (bool_decide_unpack _); by vm_compute).
  apply Hne, H; [vm_compute; reflexivity | vm_compute; reflexivity | done | done].
Qed.

(** ** Refused transitions into [sending] *)

Lemma noContactEmail_guard (row : BillRow) :
  negb (default false (Js.truthy <$> contact_email row)) = true ↔
  noContactEmail row.
Proof.
  unfold noContactEmail. destruct (contact_email row) as [[|c e]|]; simpl.
  - split; [by right | done].
  - split; [done | by intros [|]].
  - split; [by left | done].
Qed.

(** C4, as the code has it: a send is refused, returning [false] without the
    row entering [sending] and without a request, in three cases.  A row
    already [sending] is left as it is (a no-op); a row without a contact
    email, and a row sent when the archive filename is unavailable, are
    marked [failed] with a message of their own. *)
Theorem refused_send_transitions lib env o snap (row : BillRow) sys :
  (currentState snap row = sending →
   sendEmailForRow lib env o snap row sys = (false, sys)) ∧
  (currentState snap row ≠ sending → noContactEmail row →
   sendEmailForRow lib env o snap row sys =
   (false, markedFailed (getRowId row) "No contact email available." sys)) ∧
  (currentState snap row ≠ sending → ¬ noContactEmail row →
   zipFilenameOf snap = [] →
   sendEmailForRow lib env o snap row sys =
   (false, markedFailed (getRowId row)
             "ZIP filename is unavailable. Re-upload the file." sys)).
Proof.
  unfold sendEmailForRow, currentState. split_and!.
  - intros Hs. by rewrite bool_decide_eq_true_2.
  - intros Hs Hno. rewrite bool_decide_eq_false_2 by done.
    apply noContactEmail_guard in Hno. by rewrite Hno.
  - intros Hs Hno Hzf. rewrite bool_decide_eq_false_2 by done.
    rewrite <- noContactEmail_guard in Hno. apply not_true_is_false in Hno.
    by rewrite Hno, Hzf.
Qed.

(** C4 at the demo console: [ZZ9] has no contact, and [PR20] is refused
    while it is being sent. *)
Lemma refused_send_transitions_witness :
  sendEmailForRow Demo.lib Demo.env (Demo.oracle Demo.accepted)
    (ui Demo.busy) Demo.rowPR20 Demo.busy = (false, Demo.busy) ∧
  sendEmailForRow Demo.lib Demo.env (Demo.oracle Demo.accepted)
    (ui Demo.uploaded) Demo.rowZZ9 Demo.uploaded =
  (false, markedFailed (getRowId Demo.rowZZ9) "No contact email available."
            Demo.uploaded).
Proof.
  split.
  - apply (refused_send_transitions Demo.lib Demo.env (Demo.oracle Demo.accepted)
             (ui Demo.busy) Demo.rowPR20 Demo.busy).
    vm_compute. reflexivity.
  - apply (refused_send_transitions Demo.lib Demo.env (Demo.oracle Demo.accepted)
             (ui Demo.uploaded) Demo.rowZZ9 Demo.uploaded).
    + vm_compute. discriminate.
    + left. reflexivity.
Defined.

(** C4 as stated fails for a row without a contact email: the refused send
    is not a no-op, the row goes from no send state (idle) to [failed] with
    an error. *)
Lemma refused_send_is_not_a_noop :
  rowSendStates (ui Demo.uploaded) !! getRowId Demo.rowZZ9 = None ∧
  rowSendStates
    (ui (sendEmailForRow Demo.lib Demo.env (Demo.oracle Demo.accepted)
           (ui Demo.uploaded) Demo.rowZZ9 Demo.uploaded).2)
    !! getRowId Demo.rowZZ9 =
  Some {| send_state := failed;
          send_error := Some (lit "No contact email available.") |}.
Proof. split; vm_compute; reflexivity. Qed.

(** ** Validation errors at the send boundary *)

Lemma length_eqb_false {A} (l : list A) : (length l =? 0) = false → l ≠ [].
Proof. by destruct l. Qed.

(** The fields pass the checks exactly when no check has a message for
    them. *)
Lemma rejection_None lib f : rejection lib f = None ↔ validInput lib f.
Proof.
  unfold rejection, validInput. cbv zeta.
  case_bool_decide as Hzip; [split; [done | by intros (? & _)]|].
  case_bool_decide as Hkey; [split; [done | by intros (_ & ? & _)]|].
  destruct (Regex.test _ _) eqn:Hmail; cbn [orb negb];
    [|split; [done | by intros (_ & _ & ? & _)]].
  destruct (Js.includesChar _ _) eqn:Hat; cbn [negb];
    [|split; [done | by intros (_ & _ & _ & ? & _)]].
  destruct (Js.endsWith _ _) eqn:Hpdf; cbn [negb];
    [|split; [done | by intros (_ & _ & _ & _ & ? & _)]].
  case_bool_decide as Hb64; [split; [done | by intros (_ & _ & _ & _ & _ & ? & _)]|].
  case_bool_decide as Hbuf; [split; [done | by intros (_ & _ & _ & _ & _ & _ & ?)]|].
  done.
Qed.

(** The route answers fields that fail a check with a 400 and the message of
    the check, and does nothing else. *)
Lemma handle_invalid lib env o request u body f w message :
  rejection lib f = Some message →
  Route.handle lib env o request u body f w = (Route.badRequest message, w).
Proof.
  unfold rejection, Route.handle. cbv beta iota zeta.
  case_bool_decide as Hzip.
  { intros [= <-]. by rewrite Hzip. }
  rewrite (truthy_ne _ Hzip). cbn [negb].
  case_bool_decide as Hkey.
  { intros [= <-]. by rewrite Hkey. }
  rewrite (truthy_ne _ Hkey). cbn [negb].
  destruct (Regex.test Route.EMAIL_PATTERN _); cbn [negb orb];
    [|by intros [= <-]].
  destruct (Js.includesChar _ _); cbn [negb]; [|by intros [= <-]].
  destruct (Js.endsWith _ _); cbn [negb]; [|by intros [= <-]].
  case_bool_decide as Hb64.
  { intros [= <-]. by rewrite Hb64. }
  rewrite (truthy_ne _ Hb64). cbn [negb].
  case_bool_decide as Hbuf.
  { intros [= <-]. by rewrite Hbuf. }
  done.
Qed.

Lemma POST_invalid lib env o request body f w message :
  authorized env (session o (tick w)) →
  Route.request_json request = Some body →
  Route.readFields body = Some f →
  rejection lib f = Some message →
  Route.POST lib env o request w = (Route.badRequest message, ticked w).
Proof.
  intros (Hauth & u & Hu & Hadmin) Hbody Hread Hinvalid.
  unfold Route.POST, bind, nextTick. cbv beta iota zeta.
  rewrite Hauth. cbv beta iota. rewrite Hu, Hadmin, Hbody, Hread. cbv beta iota.
  by apply handle_invalid.
Qed.

Ltac step_goal :=
  cbn [bind getState call emit nextTick ret modify fst snd ui world tick
       send_logs contacts trace].

Lemma getLastSendStatusForZip_send_logs env o z keys w :
  send_logs (Actions.getLastSendStatusForZip env o z keys w).2 = send_logs w.
Proof.
  unfold Actions.getLastSendStatusForZip. run_eff. by repeat break_match.
Qed.

Lemma refreshLastLogStatusForKeys_send_logs env o snap keys sys :
  send_logs (world (refreshLastLogStatusForKeys env o snap keys sys).2) =
  send_logs (world sys).
Proof.
  unfold refreshLastLogStatusForKeys.
  set (ks := if 0 <? length keys then _ else _).
  destruct (negb (Js.truthy (zipFilenameOf snap)) || (length ks =? 0)).
  - by destruct (negb (Js.truthy (zipFilenameOf snap))).
  - unfold bind, call, setLastLogStatusByKey, modify.
    pose proof (getLastSendStatusForZip_send_logs env o (zipFilenameOf snap) ks
                  (world sys)) as H.
    by destruct (Actions.getLastSendStatusForZip _ _ _ _ _).
Qed.

Lemma auditEvent_silent e : auditEvent e → silentEvent e.
Proof. by destruct e. Qed.

(** What the console makes of a request the route rejects. *)
Lemma trySend_invalid lib env o snap (row : BillRow) sys zip pdfEntry pdfBase64
    f message :
  zipRef (ui sys) = Some zip →
  findPdfEntry zip row = Some pdfEntry →
  toBase64 lib (content pdfEntry) = Some pdfBase64 →
  network o (tick (world sys)) = Delivered →
  authorized env (session o (S (tick (world sys)))) →
  Route.readFields (requestBody (zipFilenameOf snap) row pdfBase64) = Some f →
  rejection lib f = Some message →
    trySend lib env o snap row sys =
    (inl message,
     {| ui := ui sys;
        world :=
          {| tick := S (S (tick (world sys)));
             send_logs := send_logs (world sys);
             contacts := contacts (world sys);
             trace := trace (world sys) ++
                      [Fetch (requestBody (zipFilenameOf snap) row pdfBase64)] |} |}).
Proof.
  intros Hzip Hentry Hb64 Hnet Hauth Hread Hinvalid.
  unfold trySend. step_goal.
  rewrite Hzip, Hentry, Hb64. step_goal. rewrite Hnet. unfold bind, call.
  set (body := requestBody (zipFilenameOf snap) row pdfBase64) in *.
  pose proof (POST_invalid lib env o
                {| Route.searchParams := []; Route.request_json := Some body |}
                body f
                {| tick := S (tick (world sys)); send_logs := send_logs (world sys);
                   contacts := contacts (world sys);
                   trace := trace (world sys) ++ [Fetch body] |}
                message Hauth eq_refl Hread Hinvalid) as Hm.
  cbn [world]. by rewrite Hm.
Qed.

(** C3, as the code has it: the fields read from a body fail the validation
    of the route exactly when one of its checks has a message for them
    ([rejection]); the request is then answered 400 with the message of the
    first such check before anything else happens: no transport call and no
    send-log write (validation errors are not logged); and the console
    records the row it sent the request for as [failed] with that same
    message. *)
Theorem validation_errors_rejected_unlogged :
  (∀ lib f, rejection lib f = None ↔ validInput lib f)
  ∧
  (∀ lib env o request body f w message,
     authorized env (session o (tick w)) →
     Route.request_json request = Some body →
     Route.readFields body = Some f →
     rejection lib f = Some message →
     Route.POST lib env o request w = (Route.badRequest message, ticked w))
  ∧
  (∀ lib env o snap (row : BillRow) sys zip pdfEntry pdfBase64 f message,
     currentState snap row ≠ sending →
     ¬ noContactEmail row →
     zipFilenameOf snap ≠ [] →
     zipRef (ui sys) = Some zip →
     findPdfEntry zip row = Some pdfEntry →
     toBase64 lib (content pdfEntry) = Some pdfBase64 →
     network o (tick (world sys)) = Delivered →
     authorized env (session o (S (tick (world sys)))) →
     Route.readFields (requestBody (zipFilenameOf snap) row pdfBase64) = Some f →
     rejection lib f = Some message →
     ∃ evs,
       (sendEmailForRow lib env o snap row sys).1 = false ∧
       rowSendStates (ui (sendEmailForRow lib env o snap row sys).2)
         !! getRowId row =
       Some {| send_state := failed; send_error := Some message |} ∧
       grows (world sys) (world (sendEmailForRow lib env o snap row sys).2) evs ∧
       Forall silentEvent evs ∧
       send_logs (world (sendEmailForRow lib env o snap row sys).2) =
       send_logs (world sys)).
Proof.
  split; [apply rejection_None|]. split; [apply POST_invalid|].
  intros lib env o snap row sys zip pdfEntry pdfBase64 f message
    Hs Hemail Hzf Hzip Hentry Hb64 Hnet Hauth Hread Hinvalid.
  rewrite <- noContactEmail_guard in Hemail. apply not_true_is_false in Hemail.
  apply truthy_true in Hzf.
  destruct (sendEmailForRow lib env o snap row sys) as [res sys'] eqn:Hres.
  cbn [fst snd].
  unfold sendEmailForRow in Hres. fold (currentState snap row) in Hres.
  rewrite bool_decide_eq_false_2 in Hres by done.
  rewrite Hemail, Hzf in Hres. cbn [negb] in Hres.
  unfold bind at 1 2 in Hres. unfold setActionError, modify in Hres.
  cbv beta iota zeta in Hres.
  set (sys0 := {| ui := with_actionError [] (ui sys); world := world sys |}) in Hres.
  pose proof (setRowSendState_spec (getRowId row) sending None sys0) as Hset.
  destruct (setRowSendState _ _ _ sys0) as [[] sys1]. simpl in Hset.
  unfold bind at 1 in Hres.
  pose proof (trySend_invalid lib env o snap row sys1 zip pdfEntry pdfBase64
                f message) as Htry.
  specialize (Htry ltac:(by rewrite Hset) Hentry Hb64 ltac:(by rewrite Hset)
                ltac:(by rewrite Hset) Hread Hinvalid).
  rewrite Htry in Hres.
  set (sys2 := {| ui := ui sys1; world := _ |}) in Hres.
  destruct (settle_and_refresh env o snap row failed (Some message) false
              sys2 Hzf) as (Hm & audit & Hga & Haudit & _).
  rewrite Hres in Hm, Hga. cbn [snd] in Hm, Hga.
  assert (Hlogs : send_logs (world sys') = send_logs (world sys2)).
  { unfold bind in Hres.
    pose proof (setRowSendState_spec (getRowId row) failed (Some message) sys2)
      as H3.
    destruct (setRowSendState _ _ _ sys2) as [[] sys3]. simpl in H3.
    pose proof (refreshLastLogStatusForKeys_send_logs env o snap
                  [account_key row] sys3) as H4.
    unfold ret at 1 in Hres.
    destruct (refreshLastLogStatusForKeys env o snap _ sys3) as [[] sys4].
    injection Hres as _ <-. simpl in H4. rewrite H4, H3. done. }
  assert (res = false) as ->.
  { unfold bind in Hres.
    destruct (setRowSendState _ _ _ sys2) as [[] sys3]. unfold ret at 1 in Hres.
    destruct (refreshLastLogStatusForKeys env o snap _ sys3) as [[] sys4].
    by injection Hres as <- _. }
  exists ([RowStates (rowSendStates (ui sys1));
           Fetch (requestBody (zipFilenameOf snap) row pdfBase64)] ++
          [RowStates (<[getRowId row := {| send_state := failed;
                                           send_error := Some message |}]>
                        (rowSendStates (ui sys2)))] ++ audit).
  split; [done|]. split; [rewrite Hm; apply lookup_insert_eq|].
  split.
  { eapply grows_trans; [|exact Hga]. subst sys2. rewrite Hset.
    unfold grows. simpl. by rewrite <- app_assoc. }
  split.
  { repeat (apply Forall_cons; split; [done|]).
    eapply Forall_impl; [exact Haudit | apply auditEvent_silent]. }
  rewrite Hlogs. subst sys2. simpl. by rewrite Hset.
Qed.

(** C3 at the demo deployment: a request whose recipient is no address. *)
Lemma validation_errors_rejected_unlogged_witness :
  Route.POST Demo.lib Demo.env (Demo.oracle Demo.accepted)
    (Demo.request "alice.example.com") Demo.world0 =
  (Route.badRequest "to_email must be a valid email address.",
   ticked Demo.world0).
Proof.
  destruct validation_errors_rejected_unlogged as (_ & Hroute & _).
  eapply (Hroute Demo.lib Demo.env (Demo.oracle Demo.accepted)
            (Demo.request "alice.example.com") (Demo.body "alice.example.com")).
  - split; [reflexivity|].
    exists {| user_id := lit "u1"; user_email := Some (lit "ops@example.com") |}.
    split; reflexivity.
  - reflexivity.
  - reflexivity.
  - vm_compute. reflexivity.
Defined.

(** C3 as stated fails on its last part: the malformed recipient is rejected
    with its message, and the send log and the trace stay empty: no send-log
    entry is written for a validation error. *)
Lemma validation_error_is_not_logged :
  (Route.POST Demo.lib Demo.env (Demo.oracle Demo.accepted)
     (Demo.request "alice.example.com") Demo.world0).1 =
  Route.badRequest "to_email must be a valid email address." ∧
  send_logs (Route.POST Demo.lib Demo.env (Demo.oracle Demo.accepted)
               (Demo.request "alice.example.com") Demo.world0).2 = [] ∧
  trace (Route.POST Demo.lib Demo.env (Demo.oracle Demo.accepted)
           (Demo.request "alice.example.com") Demo.world0).2 = [].
Proof. repeat split; vm_compute; reflexivity. Qed.

(** ** Facts about the string primitives *)

Lemma trimStart_clean s : cleanStart (Js.trimStart s).
Proof.
  induction s as [|c s IH]; [done|]. simpl.
  destruct (Js.isSpace c) eqn:Hc; [exact IH | exact Hc].
Qed.

Lemma trimStart_id s : cleanStart s → Js.trimStart s = s.
Proof. destruct s as [|c s]; [done|]. simpl. by intros ->. Qed.

Lemma trimStart_suffix s : ∃ sp, s = sp ++ Js.trimStart s.
Proof.
  induction s as [|c s [sp IH]]; [by exists []|]. simpl.
  destruct (Js.isSpace c).
  - exists (c :: sp). simpl. by rewrite <- IH.
  - by exists [].
Qed.

Lemma trimEnd_prefix s : ∃ sp, s = Js.trimEnd s ++ sp.
Proof.
  unfold Js.trimEnd. destruct (trimStart_suffix (rev s)) as [sp Hsp].
  exists (rev sp). rewrite <- rev_app_distr, <- Hsp. by rewrite rev_involutive.
Qed.

Lemma trimEnd_clean_start s : cleanStart s → cleanStart (Js.trimEnd s).
Proof.
  destruct (trimEnd_prefix s) as [sp Hsp].
  destruct (Js.trimEnd s) as [|c t]; [done|].
  rewrite Hsp. done.
Qed.

Lemma trimEnd_idemp s : Js.trimEnd (Js.trimEnd s) = Js.trimEnd s.
Proof.
  unfold Js.trimEnd. rewrite rev_involutive.
  by rewrite (trimStart_id _ (trimStart_clean _)).
Qed.

Lemma trim_idemp s : Js.trim (Js.trim s) = Js.trim s.
Proof.
  unfold Js.trim.
  rewrite (trimStart_id (Js.trimEnd (Js.trimStart s))).
  - apply trimEnd_idemp.
  - apply trimEnd_clean_start, trimStart_clean.
Qed.

Example trim_ex : Js.trim "  PR20 	" = lit "PR20".
Proof. reflexivity. Qed.

(** The no-break space U+00A0 is white space, and the capital letters of
    Latin-1 have their lower-case forms ([É] becomes [é]). *)
Example trim_no_break_space :
  Js.trim ([ascii_of_nat 160] ++ lit "PR20" ++ [ascii_of_nat 160]) = lit "PR20".
Proof. reflexivity. Qed.

Example toLowerCase_latin1 :
  Js.toLowerCase (lit "CAF" ++ [ascii_of_nat 201]) = lit "caf" ++ [ascii_of_nat 233].
Proof. reflexivity. Qed.

Lemma elem_of_dedup (k : str) seen l :
  k ∈ Js.dedup seen l ↔ k ∈ l ∧ k ∉ seen.
Proof.
  revert seen. induction l as [|x l IH]; intros seen; simpl.
  - split; [by intros H%elem_of_nil | by intros [H%elem_of_nil _]].
  - case_bool_decide as Hx.
    + rewrite IH, elem_of_cons. split; [tauto|].
      intros [[->|Hin] Hk]; [done | tauto].
    + rewrite !elem_of_cons, IH, elem_of_cons.
      destruct (decide (k = x)) as [->|Hne]; [tauto|]. tauto.
Qed.

(** The keys a server action queries are trimmed and not empty. *)
Lemma elem_of_normalizeAccountKeys (k : str) keys :
  k ∈ Actions.normalizeAccountKeys keys ↔
  k ≠ [] ∧ ∃ key, key ∈ keys ∧ k = Js.trim key.
Proof.
  unfold Actions.normalizeAccountKeys, Actions.normalizeAccountKey.
  rewrite elem_of_dedup, list_elem_of_filter, list_elem_of_fmap, truthy_true.
  split.
  - intros [[Hne (key & -> & Hin)] _]. eauto.
  - intros [Hne (key & Hin & ->)]. split; [eauto | apply not_elem_of_nil].
Qed.

Lemma normalizeAccountKeys_trimmed (k : str) keys :
  k ∈ Actions.normalizeAccountKeys keys → Js.trim k = k ∧ k ≠ [].
Proof.
  rewrite elem_of_normalizeAccountKeys. intros [Hne (key & _ & ->)].
  split; [apply trim_idemp | done].
Qed.

(** ** The audit-log query *)

(** The reducer keeps, for every key, the first row it meets, unless the key
    names a member every object inherits. *)
Lemma lastStatusStep_lookup acc row (k : str) :
  Actions.lastStatusStep acc row !! k =
  match acc !! k with
  | Some v => Some v
  | None =>
      if decide (k ≠ [] ∧ (k ∉ Js.objectPrototype) ∧
                 Js.trim (q_account_key row) = k)
      then Some (lastStatusOf row) else None
  end.
Proof.
  unfold Actions.lastStatusStep, Actions.normalizeAccountKey, Js.member.
  set (key := Js.trim (q_account_key row)).
  destruct (Js.truthy key) eqn:Hkey; cbn [negb orb].
  - apply truthy_true in Hkey.
    destruct (acc !! key) as [v|] eqn:Hsome.
    + destruct (acc !! k) eqn:Hk; [done|].
      rewrite decide_False; [done | intros (_ & _ & <-); congruence].
    + case_bool_decide as Hproto.
      * destruct (acc !! k) eqn:Hk; [done|].
        rewrite decide_False; [done | intros (_ & Hno & <-); done].
      * unfold Js.assign. rewrite bool_decide_eq_false_2.
        2: { intros ->. apply Hproto. apply (bool_decide_unpack _). by vm_compute. }
        destruct (decide (key = k)) as [<-|Hne].
        -- rewrite lookup_insert_eq, Hsome. by rewrite decide_True.
        -- rewrite lookup_insert_ne by done. destruct (acc !! k); [done|].
           rewrite decide_False; [done | tauto].
  - apply truthy_false in Hkey. destruct (acc !! k); [done|].
    rewrite decide_False; [done | intros (Hk & _ & <-); done].
Qed.

Lemma lastStatusReduce_from acc data (k : str) :
  foldl Actions.lastStatusStep acc data !! k =
  match acc !! k with
  | Some v => Some v
  | None =>
      if decide (k = [] ∨ k ∈ Js.objectPrototype) then None
      else lastStatusOf <$>
             find (fun r => bool_decide (Js.trim (q_account_key r) = k)) data
  end.
Proof.
  revert acc. induction data as [|row data IH]; intros acc; simpl.
  - destruct (acc !! k); [done|]. by destruct (decide _).
  - rewrite IH, lastStatusStep_lookup.
    destruct (acc !! k); [done|].
    destruct (decide (k = [] ∨ k ∈ Js.objectPrototype)) as [Hk|Hk].
    + rewrite decide_False; [done | tauto].
    + case_bool_decide as Hrow.
      * rewrite decide_True; [done | tauto].
      * rewrite decide_False; [done | tauto].
Qed.

Lemma lastStatusReduce_lookup data (k : str) :
  k ≠ [] → k ∉ Js.objectPrototype →
  Actions.lastStatusReduce data !! k =
  lastStatusOf <$> find (fun r => bool_decide (Js.trim (q_account_key r) = k)) data.
Proof.
  intros Hk Hproto. unfold Actions.lastStatusReduce.
  rewrite lastStatusReduce_from, lookup_empty. rewrite decide_False; [done | tauto].
Qed.

Lemma lastStatusReduce_inherited data (k : str) :
  k = [] ∨ k ∈ Js.objectPrototype → Actions.lastStatusReduce data !! k = None.
Proof.
  intros Hk. unfold Actions.lastStatusReduce.
  rewrite lastStatusReduce_from, lookup_empty. by rewrite decide_True.
Qed.

#[local] Instance newerFirst_transitive : Transitive Actions.newerFirst.
Proof. unfold Actions.newerFirst. intros a b c. lia. Qed.

#[local] Instance newerFirst_total : Total Actions.newerFirst.
Proof. unfold Actions.newerFirst. intros a b. lia. Qed.

(** In a list ordered newest first, the first row of a key is a newest one. *)
Lemma find_newest data (P : LogQueryRow → bool) row :
  StronglySorted Actions.newerFirst data →
  find P data = Some row →
  row ∈ data ∧ P row = true ∧
  ∀ row', row' ∈ data → P row' = true → (q_sent_at row' <= q_sent_at row)%N.
Proof.
  induction 1 as [|x data Hsorted IH Hall]; [done|]. simpl.
  destruct (P x) eqn:Hx.
  - intros [= <-]. split; [apply list_elem_of_here|]. split; [done|].
    intros row' Hin _. apply elem_of_cons in Hin as [->|Hin]; [done|].
    rewrite Forall_forall in Hall. apply (Hall row' Hin).
  - intros Hfind. destruct (IH Hfind) as (Hin & HP & Hmax).
    split; [by apply list_elem_of_further|]. split; [done|].
    intros row' Hin' HP'. apply elem_of_cons in Hin' as [->|Hin']; [congruence|].
    by apply Hmax.
Qed.

Lemma narrowStatus_statusText s : Actions.narrowStatus (statusText s) = Some s.
Proof. by destruct s. Qed.

Lemma elem_of_selectSendLogs logs z keys (row : LogQueryRow) :
  row ∈ Actions.selectSendLogs logs z keys ↔
  ∃ r : SendLogRow,
    r ∈ logs ∧ logMatches z (q_account_key row) r ∧
    q_account_key row ∈ keys ∧
    q_status row = statusText (log_status r) ∧ q_sent_at row = sent_at r.
Proof.
  unfold Actions.selectSendLogs, logMatches.
  rewrite merge_sort_Permutation, list_elem_of_fmap.
  setoid_rewrite list_elem_of_filter. split.
  - intros (r & -> & (Hz & Hk) & Hin). exists r. simpl. tauto.
  - intros (r & Hin & (Hz & Hk) & Hkeys & Hs & Ht). exists r.
    split; [|rewrite Hk; tauto].
    destruct row. simpl in *. by subst.
Qed.

Lemma selectSendLogs_sorted logs z keys :
  StronglySorted Actions.newerFirst (Actions.selectSendLogs logs z keys).
Proof. apply StronglySorted_merge_sort; apply _. Qed.

Lemma getLastSendStatusForZip_result env o zip_filename accountKeys w :
  Auth.isAdminSession env (session o (tick w)) = true →
  storeError o (S (tick w)) = false →
  Js.trim zip_filename ≠ [] →
  (Actions.getLastSendStatusForZip env o zip_filename accountKeys w).1 =
  Actions.lastStatusReduce
    (Actions.selectSendLogs (send_logs w) (Js.trim zip_filename)
       (Actions.normalizeAccountKeys accountKeys)).
Proof.
  intros Hadmin Hstore Hzf. apply truthy_true in Hzf.
  unfold Actions.getLastSendStatusForZip, Actions.normalizeZipFilename.
  run_eff. simpl. rewrite Hadmin, Hzf. simpl.
  destruct (Actions.normalizeAccountKeys accountKeys) as [|k ks] eqn:Hkeys.
  - simpl. unfold Actions.selectSendLogs.
    assert (Hnone : filter (fun r : SendLogRow =>
                              log_zip_filename r = Js.trim zip_filename ∧
                              log_account_key r ∈ []) (send_logs w) = []).
    { induction (send_logs w) as [|r l IH]; [done|].
      rewrite filter_cons_False; [done|]. intros [_ Hin].
      by apply elem_of_nil in Hin. }
    by rewrite Hnone.
  - simpl. by rewrite Hstore.
Qed.

(** C2, as the code has it: for an administrator's session and a store that
    answers, the query maps every requested key that has a log entry for the
    archive filename, and is not the name of a member every object inherits
    ([constructor], [toString], ...), to the status and [sent_at] of a most
    recent one, and leaves out the keys without entry.  The most recent entry
    is the first one the store returns for the key: the store is asked to
    order the rows by [sent_at] descending, and no maximum is computed by the
    caller.  A key that names an inherited member is left out whatever the
    log holds: the reducer finds the member where it looks for an earlier
    row. *)
Theorem last_send_status_is_latest_log_entry env o zip_filename accountKeys w
    (k : str) :
  Auth.isAdminSession env (session o (tick w)) = true →
  storeError o (S (tick w)) = false →
  Js.trim zip_filename ≠ [] →
  (k ∈ Actions.normalizeAccountKeys accountKeys →
   k ∉ Js.objectPrototype →
   (∃ r, r ∈ send_logs w ∧ logMatches (Js.trim zip_filename) k r) →
   ∃ r0,
     r0 ∈ send_logs w ∧ logMatches (Js.trim zip_filename) k r0 ∧
     (Actions.getLastSendStatusForZip env o zip_filename accountKeys w).1 !! k
     = Some (reported r0) ∧
     ∀ r, r ∈ send_logs w → logMatches (Js.trim zip_filename) k r →
          (sent_at r <= sent_at r0)%N) ∧
  ((¬ ∃ r, r ∈ send_logs w ∧ logMatches (Js.trim zip_filename) k r) →
   (Actions.getLastSendStatusForZip env o zip_filename accountKeys w).1 !! k
   = None) ∧
  (k ∉ Actions.normalizeAccountKeys accountKeys →
   (Actions.getLastSendStatusForZip env o zip_filename accountKeys w).1 !! k
   = None) ∧
  (k ∈ Js.objectPrototype →
   (Actions.getLastSendStatusForZip env o zip_filename accountKeys w).1 !! k
   = None).
Proof.
  intros Hadmin Hstore Hzf.
  rewrite (getLastSendStatusForZip_result _ _ _ _ _ Hadmin Hstore Hzf).
  set (z := Js.trim zip_filename).
  set (keys := Actions.normalizeAccountKeys accountKeys).
  set (data := Actions.selectSendLogs (send_logs w) z keys).
  destruct (decide (k ∈ Js.objectPrototype)) as [Hproto|Hproto].
  { rewrite lastStatusReduce_inherited by tauto. by split_and!. }
  set (P := fun r : LogQueryRow => bool_decide (Js.trim (q_account_key r) = k)).
  assert (HP : ∀ row, row ∈ data → P row = true ↔ q_account_key row = k).
  { intros row Hin. apply elem_of_selectSendLogs in Hin as (r & _ & _ & Hkeys & _).
    apply normalizeAccountKeys_trimmed in Hkeys as [Htrim _].
    unfold P. by rewrite bool_decide_eq_true, Htrim. }
  assert (Hfound : ∀ row, find P data = Some row →
            ∃ r0, r0 ∈ send_logs w ∧ logMatches z k r0 ∧
                  lastStatusOf row = reported r0 ∧ q_sent_at row = sent_at r0).
  { intros row Hfind.
    destruct (find_newest data P row (selectSendLogs_sorted _ _ _) Hfind)
      as (Hin & HProw & _).
    apply HP in HProw; [|done].
    apply elem_of_selectSendLogs in Hin as (r0 & Hr0 & Hm & _ & Hs & Ht).
    exists r0. rewrite HProw in Hm. split_and!; try done.
    unfold lastStatusOf, reported. by rewrite Hs, Ht, narrowStatus_statusText. }
  assert (Hempty : k = [] → find P data = None).
  { intros ->. destruct (find P data) as [row|] eqn:Hfind; [|done].
    destruct (find_newest data P row (selectSendLogs_sorted _ _ _) Hfind)
      as (Hin & HProw & _).
    apply HP in HProw; [|done].
    apply elem_of_selectSendLogs in Hin as (_ & _ & _ & Hkeys & _).
    apply normalizeAccountKeys_trimmed in Hkeys as [_ Hne]. done. }
  assert (Hlookup : Actions.lastStatusReduce data !! k = lastStatusOf <$> find P data).
  { destruct (decide (k = [])) as [Hk|Hk].
    - rewrite (Hempty Hk). apply lastStatusReduce_inherited. by left.
    - by apply lastStatusReduce_lookup. }
  rewrite Hlookup. split_and!.
  - intros Hk _ (r & Hr & Hm).
    assert (Hrow : ∀ r : SendLogRow, r ∈ send_logs w → logMatches z k r →
              ∃ row, row ∈ data ∧ P row = true ∧ q_sent_at row = sent_at r).
    { intros r' Hr' [Hz' Hk'].
      exists {| q_account_key := log_account_key r';
                q_status := statusText (log_status r');
                q_sent_at := sent_at r' |}.
      assert (Hin : {| q_account_key := log_account_key r';
                       q_status := statusText (log_status r');
                       q_sent_at := sent_at r' |} ∈ data).
      { apply elem_of_selectSendLogs. exists r'. simpl.
        split_and!; try done. by rewrite Hk'. }
      split; [done|]. split; [|done]. apply HP; [done|]. done. }
    destruct (Hrow r Hr Hm) as (row & Hin & HProw & _).
    destruct (find P data) as [row0|] eqn:Hfind.
    + destruct (Hfound row0 eq_refl) as (r0 & Hr0 & Hm0 & Hrep & Ht0).
      exists r0. split_and!; try done.
      * simpl. by rewrite Hrep.
      * intros r' Hr' Hm'. destruct (Hrow r' Hr' Hm') as (row' & Hin' & HP' & <-).
        rewrite <- Ht0.
        by apply (find_newest data P row0 (selectSendLogs_sorted _ _ _) Hfind).
    + exfalso. apply list_elem_of_In in Hin.
      pose proof (find_none P data Hfind row Hin) as Hno. congruence.
  - intros Hno. destruct (find P data) as [row0|] eqn:Hfind; [|done].
    destruct (Hfound row0 eq_refl) as (r0 & Hr0 & Hm0 & _). destruct Hno. eauto.
  - intros Hk. destruct (find P data) as [row0|] eqn:Hfind; [|done].
    destruct (find_newest data P row0 (selectSendLogs_sorted _ _ _) Hfind)
      as (Hin & HProw & _).
    apply HP in HProw; [|done].
    apply elem_of_selectSendLogs in Hin as (_ & _ & _ & Hkeys & _).
    rewrite HProw in Hkeys. done.
  - done.
Qed.

(** C2 at the demo log, which holds one entry, a [sent] one for [PR20]: it
    is what the query reports for [PR20], and nothing is reported for
    [PR21]. *)
Lemma last_send_status_is_latest_log_entry_witness :
  (Actions.getLastSendStatusForZip Demo.env (Demo.oracle Demo.accepted)
     (lit "batch.zip") [lit "PR20"; lit "PR21"] Demo.world1).1 !! lit "PR20"
  = Some {| ls_status := Some log_sent; ls_sent_at := Some 100%N |} ∧
  (Actions.getLastSendStatusForZip Demo.env (Demo.oracle Demo.accepted)
     (lit "batch.zip") [lit "PR20"; lit "PR21"] Demo.world1).1 !! lit "PR21"
  = None.
Proof.
  split.
  - destruct (last_send_status_is_latest_log_entry Demo.env
                (Demo.oracle Demo.accepted) (lit "batch.zip")
                [lit "PR20"; lit "PR21"] Demo.world1 (lit "PR20"))
      as (Hpresent & _); [reflexivity | reflexivity | discriminate |].
    destruct Hpresent as (r0 & Hin & _ & Hreported & _).
    + apply (bool_decide_unpack _). by vm_compute.
    + apply (bool_decide_unpack _). by vm_compute.
    + eexists. split; [apply list_elem_of_here | by split].
    + apply list_elem_of_singleton in Hin. subst r0. exact Hreported.
  - destruct (last_send_status_is_latest_log_entry Demo.env
                (Demo.oracle Demo.accepted) (lit "batch.zip")
                [lit "PR20"; lit "PR21"] Demo.world1 (lit "PR21"))
      as (_ & Habsent & _); [reflexivity | reflexivity | discriminate |].
    apply Habsent. intros (r & Hin & Hm). destruct Hm as [_ Hkey].
    apply list_elem_of_singleton in Hin. subst r. discriminate Hkey.
Defined.

(** C2 as stated fails on "a client-side maximum over the returned entries":
    given the rows of a key oldest first, the reducer reports the first one,
    not the most recent. *)
Lemma reducer_reports_first_row_not_latest :
  Actions.lastStatusReduce
    [ {| q_account_key := lit "PR20"; q_status := lit "failed"; q_sent_at := 1 |};
      {| q_account_key := lit "PR20"; q_status := lit "sent"; q_sent_at := 2 |} ]
    !! lit "PR20"
  = Some {| ls_status := Some log_failed; ls_sent_at := Some 1%N |}.
Proof. vm_compute. reflexivity. Qed.

(** ** Archive parsing: the filename fallback *)

Lemma split_nonempty s c : Js.split s c ≠ [].
Proof.
  destruct s as [|a s]; simpl; [done|].
  case_bool_decide; [done|]. by destruct (Js.split s c).
Qed.

Lemma split_no_separator s c : c ∉ s → Js.split s c = [s].
Proof.
  induction s as [|a s IH]; [done|]. intros Hc.
  apply not_elem_of_cons in Hc as [Hne Hc]. simpl.
  rewrite bool_decide_eq_false_2 by done. by rewrite (IH Hc).
Qed.

Lemma split_app_separator x c rest :
  ∃ pre, pre ≠ [] ∧ Js.split (x ++ c :: rest) c = pre ++ Js.split rest c.
Proof.
  induction x as [|a x (pre & Hpre & IH)]; simpl.
  - exists [[]]. by rewrite bool_decide_eq_true_2.
  - case_bool_decide.
    + exists ([] :: pre). by rewrite IH.
    + rewrite IH. destruct pre as [|p ps]; [done|].
      by exists ((a :: p) :: ps).
Qed.

Lemma last_app_nonempty {A} (l1 l2 : list A) : l2 ≠ [] → last (l1 ++ l2) = last l2.
Proof.
  intros H. destruct l2 as [|x l2] using rev_ind; [done|].
  by rewrite app_assoc, !last_snoc.
Qed.

(** The base name of [dirpath ++ base], for a [dirpath] that is empty or ends
    with a slash and a [base] without slash, is [base]. *)
Lemma getBaseName_app dirpath base :
  dirpath = [] ∨ (∃ d, dirpath = d ++ lit "/") →
  "/"%char ∉ base →
  getBaseName (dirpath ++ base) = base.
Proof.
  intros Hdir Hbase. unfold getBaseName.
  destruct Hdir as [->|[d ->]].
  - simpl. by rewrite split_no_separator.
  - rewrite <- app_assoc. simpl.
    destruct (split_app_separator d "/" base) as (pre & _ & ->).
    rewrite last_app_nonempty by apply split_nonempty.
    by rewrite split_no_separator.
Qed.

Lemma startsWith_nil s : Js.startsWith s [] = true.
Proof. by destruct s. Qed.

Lemma startsWith_app s p : Js.startsWith (p ++ s) p = true.
Proof.
  induction p as [|a p IH]; [apply startsWith_nil|]. simpl.
  by rewrite bool_decide_eq_true_2.
Qed.

Lemma endsWith_app s p : Js.endsWith (s ++ p) p = true.
Proof. unfold Js.endsWith. rewrite rev_app_distr. apply startsWith_app. Qed.

(** A name [key_...] starts with [p_] exactly when [key] is [p], for
    [key] and [p] without underscore. *)
Lemma startsWith_key (key p rest : str) (c : ascii) :
  c ∉ key → c ∉ p →
  Js.startsWith (key ++ c :: rest) (p ++ [c]) = bool_decide (key = p).
Proof.
  revert key. induction p as [|a p IH]; intros key Hkey Hp.
  - destruct key as [|k key]; simpl.
    + by rewrite startsWith_nil, bool_decide_eq_true_2.
    + apply not_elem_of_cons in Hkey as [Hne _].
      by rewrite bool_decide_eq_false_2.
  - apply not_elem_of_cons in Hp as [Hne Hp].
    destruct key as [|k key]; simpl.
    + by rewrite bool_decide_eq_false_2 by congruence.
    + apply not_elem_of_cons in Hkey as [_ Hkey].
      rewrite (IH key Hkey Hp).
      destruct (decide (a = k)) as [->|Hak].
      * rewrite bool_decide_eq_true_2 by done. simpl.
        apply bool_decide_ext. split; congruence.
      * rewrite bool_decide_eq_false_2 by done. simpl.
        symmetry. apply bool_decide_eq_false_2. congruence.
Qed.

Lemma indexOf_first (key rest : str) (c : ascii) :
  c ∉ key → Js.indexOf (key ++ c :: rest) c = Z.of_nat (length key).
Proof.
  induction key as [|k key IH]; intros Hkey; simpl.
  - by rewrite bool_decide_eq_true_2.
  - apply not_elem_of_cons in Hkey as [Hne Hkey].
    rewrite bool_decide_eq_false_2 by congruence.
    rewrite (IH Hkey). destruct (Z.ltb_spec (Z.of_nat (length key)) 0); lia.
Qed.

(** [slice] between two positions of the string. *)
Lemma slice_within (s : str) (n m : nat) :
  n ≤ m → m ≤ length s →
  Js.slice s (Z.of_nat n) (Z.of_nat m) = take (m - n) (drop n s).
Proof.
  intros Hnm Hm. unfold Js.slice, Js.clampIndex.
  destruct (Z.ltb_spec (Z.of_nat n) 0); [lia|].
  destruct (Z.ltb_spec (Z.of_nat m) 0); [lia|].
  rewrite !Z.min_l by lia. rewrite Nat2Z.id.
  by replace (Z.to_nat (Z.of_nat m - Z.of_nat n)) with (m - n) by lia.
Qed.

Lemma toLowerCase_app s t :
  Js.toLowerCase (s ++ t) = Js.toLowerCase s ++ Js.toLowerCase t.
Proof. apply map_app. Qed.

Ltac not_in_literal := apply (bool_decide_unpack _); by vm_compute.

Lemma parseFallbackRows_app l1 l2 :
  parseFallbackRows (l1 ++ l2) = parseFallbackRows l1 ++ parseFallbackRows l2.
Proof.
  induction l1 as [|file l1 IH]; [done|].
  cbn [app parseFallbackRows]. cbv zeta.
  repeat break_match; try done. cbn [app]. by rewrite IH.
Qed.

Lemma not_elem_of_bill_name (c : ascii) (key date : str) :
  c ∉ key → c ∉ date → c ∉ lit "Bill_" → c ∉ lit "_" → c ∉ lit ".pdf" →
  c ∉ lit "Bill_" ++ key ++ lit "_" ++ date ++ lit ".pdf".
Proof. intros. rewrite !elem_of_app. tauto. Qed.

(** What the loop makes of one entry named [Bill_{key}_{date}.pdf]. *)
Lemma parseFallbackRows_bill file dirpath (key date : str) :
  dir file = false →
  name file = dirpath ++ lit "Bill_" ++ key ++ lit "_" ++ date ++ lit ".pdf" →
  dirpath = [] ∨ (∃ d, dirpath = d ++ lit "/") →
  "/"%char ∉ key → "_"%char ∉ key → "/"%char ∉ date →
  parseFallbackRows [file] =
  if decide (Js.trim key = [] ∨ key = lit "Admin") then []
  else [ {| account_key := Js.trim key;
            pdf_filename := lit "Bill_" ++ key ++ lit "_" ++ date ++ lit ".pdf";
            zip_entry_path := name file;
            trade_date := Js.nonEmpty (Js.trim date) |} ].
Proof.
  intros Hdir Hname Hpath Hkey_slash Hkey Hdate.
  set (base := lit "Bill_" ++ key ++ lit "_" ++ date ++ lit ".pdf") in *.
  assert (Hslash : "/"%char ∉ base).
  { apply not_elem_of_bill_name; try done; not_in_literal. }
  assert (Hbase : getBaseName (name file) = base)
    by (rewrite Hname; by apply getBaseName_app).
  assert (Hself : getBaseName base = base)
    by (by apply (getBaseName_app [] base); [left|]).
  assert (Hpdf : isPdf base = true).
  { unfold isPdf, base. rewrite !toLowerCase_app, !app_assoc.
    apply endsWith_app. }
  assert (Hadmin : isIgnoredAdminPdf base = bool_decide (key = lit "Admin")).
  { unfold isIgnoredAdminPdf. rewrite Hself.
    assert (H2 : Js.startsWith base "Summary_Admin_Closing_Adjustment_" = false)
      by done.
    rewrite H2, orb_false_r.
    change (Js.startsWith base "Bill_Admin_")
      with (Js.startsWith (key ++ "_"%char :: date ++ lit ".pdf")
              (lit "Admin" ++ ["_"%char])).
    apply startsWith_key; [done|]. not_in_literal. }
  set (withoutPrefix := key ++ lit "_" ++ date ++ lit ".pdf").
  assert (Hwp : Js.sliceFrom base (Z.of_nat (length (lit "Bill_"))) = withoutPrefix).
  { unfold Js.sliceFrom. rewrite slice_within.
    - rewrite take_ge by (rewrite length_drop; lia). done.
    - unfold base. rewrite length_app. lia.
    - done. }
  assert (Hidx : Js.indexOf withoutPrefix "_" = Z.of_nat (length key))
    by (by apply indexOf_first).
  assert (Hstart : Js.startsWith base "Bill_" = true)
    by apply (startsWith_app _ (lit "Bill_")).
  cbn [parseFallbackRows]. rewrite Hdir, Hbase, Hstart, Hpdf, Hadmin, Hwp, Hidx.
  cbn [negb orb].
  destruct (decide (key = lit "Admin")) as [Hk|Hk].
  { rewrite bool_decide_eq_true_2 by done.
    rewrite decide_True; [done | by right]. }
  rewrite bool_decide_eq_false_2 by done.
  destruct (decide (key = [])) as [Hempty|Hnonempty].
  { rewrite Hempty at 1. rewrite decide_True; [done | left; by rewrite Hempty]. }
  assert (Hlen : 0 < length key) by (destruct key; [done | simpl; lia]).
  destruct (Z.leb_spec (Z.of_nat (length key)) 0); [lia|].
  assert (Hkeyslice : Js.slice withoutPrefix 0 (Z.of_nat (length key)) = key).
  { change 0%Z with (Z.of_nat 0).
    rewrite (slice_within withoutPrefix 0 (length key)).
    - rewrite Nat.sub_0_r, drop_0. unfold withoutPrefix.
      by rewrite take_app_length.
    - lia.
    - unfold withoutPrefix. rewrite length_app. lia. }
  assert (Hdateslice :
    Js.slice withoutPrefix (Z.of_nat (length key) + 1)
      (Z.of_nat (length withoutPrefix) - Z.of_nat (length (lit ".pdf"))) = date).
  { replace (Z.of_nat (length key) + 1)%Z with (Z.of_nat (S (length key))) by lia.
    replace (Z.of_nat (length withoutPrefix) - Z.of_nat (length (lit ".pdf")))%Z
      with (Z.of_nat (S (length key) + length date)).
    2:{ unfold withoutPrefix. rewrite !length_app. simpl. lia. }
    rewrite slice_within.
    - replace (S (length key) + length date - S (length key)) with (length date)
        by lia.
      unfold withoutPrefix.
      change (key ++ lit "_" ++ date ++ lit ".pdf")
        with (key ++ ["_"%char] ++ date ++ lit ".pdf").
      rewrite (app_assoc key), drop_app_length'
        by (rewrite length_app; simpl; lia).
      by rewrite take_app_length.
    - lia.
    - unfold withoutPrefix. rewrite !length_app. simpl. lia. }
  unfold normalizeAccountKey.
  rewrite Hkeyslice, Hdateslice.
  destruct (Js.truthy (Js.trim key)) eqn:Htrim; simpl.
  - apply truthy_true in Htrim. rewrite decide_False; [done | tauto].
  - apply truthy_false in Htrim. rewrite decide_True; [done | tauto].
Qed.

Lemma split_parts_no_separator s c p : p ∈ Js.split s c → c ∉ p.
Proof.
  revert p. induction s as [|a s IH]; intros p; simpl.
  - intros ->%list_elem_of_singleton. apply not_elem_of_nil.
  - case_bool_decide as Ha.
    + intros [->|Hin]%elem_of_cons; [apply not_elem_of_nil | by apply IH].
    + destruct (Js.split s c) as [|q qs] eqn:Hsplit.
      * intros ->%list_elem_of_singleton.
        apply not_elem_of_cons. split; [congruence | apply not_elem_of_nil].
      * intros [->|Hin]%elem_of_cons.
        -- apply not_elem_of_cons. split; [congruence|].
           apply IH, list_elem_of_here.
        -- by apply IH, list_elem_of_further.
Qed.

Lemma getBaseName_idemp pathname :
  getBaseName (getBaseName pathname) = getBaseName pathname.
Proof.
  assert (Hno : "/"%char ∉ getBaseName pathname).
  { unfold getBaseName.
    destruct (last (Js.split pathname "/")) as [p|] eqn:Hlast; simpl.
    - apply (split_parts_no_separator pathname), list_elem_of_lookup.
      exists (pred (length (Js.split pathname "/"))).
      by rewrite <- last_lookup.
    - apply last_None in Hlast. by destruct (split_nonempty pathname "/"). }
  by apply (getBaseName_app [] _); [left|].
Qed.

Lemma parseFallbackRows_admin file :
  isIgnoredAdminPdf (name file) = true → parseFallbackRows [file] = [].
Proof.
  intros Hadmin. cbn [parseFallbackRows].
  assert (H : isIgnoredAdminPdf (getBaseName (name file)) = true).
  { unfold isIgnoredAdminPdf in *. by rewrite getBaseName_idemp. }
  rewrite H, orb_true_r. by repeat break_match.
Qed.

(** C6, as the code has it: an archive entry that is no directory and whose
    base name is [Bill_{key}_{date}.pdf] (the key holding no underscore)
    yields exactly one record, whose account key is the key trimmed and whose
    trade date is the date trimmed, or null when that is empty; it yields none
    when the trimmed key is empty (as in [Bill__20240101.pdf], or when the
    key is white space only, the no-break space included) or the key is
    [Admin].  An entry whose base name has one of the two administrative
    prefixes yields none. *)
Theorem fallback_rows_from_bill_filenames :
  (∀ before file after dirpath (key date : str),
     dir file = false →
     name file = dirpath ++ lit "Bill_" ++ key ++ lit "_" ++ date ++ lit ".pdf" →
     dirpath = [] ∨ (∃ d, dirpath = d ++ lit "/") →
     "/"%char ∉ key → "_"%char ∉ key → "/"%char ∉ date →
     parseFallbackRows (before ++ file :: after) =
     parseFallbackRows before ++
     (if decide (Js.trim key = [] ∨ key = lit "Admin") then []
      else [ {| account_key := Js.trim key;
                pdf_filename :=
                  lit "Bill_" ++ key ++ lit "_" ++ date ++ lit ".pdf";
                zip_entry_path := name file;
                trade_date := Js.nonEmpty (Js.trim date) |} ]) ++
     parseFallbackRows after)
  ∧
  (∀ before file after,
     isIgnoredAdminPdf (name file) = true →
     parseFallbackRows (before ++ file :: after) =
     parseFallbackRows before ++ parseFallbackRows after).
Proof.
  split.
  - intros before file after dirpath key date Hdir Hname Hpath Hslash Hkey Hdate.
    rewrite parseFallbackRows_app.
    change (file :: after) with ([file] ++ after).
    rewrite parseFallbackRows_app.
    by rewrite (parseFallbackRows_bill file dirpath key date).
  - intros before file after Hadmin.
    rewrite parseFallbackRows_app.
    change (file :: after) with ([file] ++ after).
    by rewrite parseFallbackRows_app, parseFallbackRows_admin.
Qed.

(** C6 at the entry [Bill_PR20_2024-01-05.pdf]. *)
Lemma fallback_rows_from_bill_filenames_witness :
  parseFallbackRows [Demo.pdf "Bill_PR20_2024-01-05.pdf"] =
  [ {| account_key := lit "PR20";
       pdf_filename := lit "Bill_PR20_2024-01-05.pdf";
       zip_entry_path := lit "Bill_PR20_2024-01-05.pdf";
       trade_date := Some (lit "2024-01-05") |} ].
Proof.
  destruct fallback_rows_from_bill_filenames as [Hbill _].
  refine (Hbill [] (Demo.pdf "Bill_PR20_2024-01-05.pdf") [] []
            (lit "PR20") (lit "2024-01-05") _ _ _ _ _ _).
  - reflexivity.
  - reflexivity.
  - left. reflexivity.
  - not_in_literal.
  - not_in_literal.
  - not_in_literal.
Defined.

(** C6 as stated fails for a key segment with white space around it: the
    record carries the trimmed key, not the segment, and a segment of white
    space only, though not empty, yields no record. *)
Lemma fallback_key_is_trimmed :
  parseFallbackRows [Demo.pdf "Bill_ PR20_2024-01-05.pdf"] =
  [ {| account_key := lit "PR20";
       pdf_filename := lit "Bill_ PR20_2024-01-05.pdf";
       zip_entry_path := lit "Bill_ PR20_2024-01-05.pdf";
       trade_date := Some (lit "2024-01-05") |} ] ∧
  lit "PR20" ≠ lit " PR20" ∧
  parseFallbackRows [Demo.pdf "Bill_ _2024-01-05.pdf"] = [].
Proof. split; [vm_compute; reflexivity|]. split; [discriminate | vm_compute; reflexivity]. Qed.

(** A key segment that is a no-break space is white space only: the entry
    yields no record. *)
Example fallback_key_of_a_no_break_space :
  parseFallbackRows
    [ {| name := lit "Bill_" ++ [ascii_of_nat 160] ++ lit "_2024-01-05.pdf";
         dir := false; content := lit "%PDF" |} ] = [].
Proof. vm_compute. reflexivity. Qed.

(** ** Sanitizing the message of a transport error *)

Lemma lastOr_cons prev c (x : str) : lastOr prev (c :: x) = lastOr (Some c) x.
Proof.
  unfold lastOr. destruct x as [|c1 x]; [done|]. rewrite last_cons_cons.
  destruct (last (c1 :: x)) eqn:E; [done|]. by apply last_None in E.
Qed.

Section Greedy.
Import Regex.

Variable p : ascii → bool.
Variable k : option ascii → str → option nat.

(** A repetition that has taken every character it can and finds the rest
    of the pattern failing at every point it gives back fails. *)
Lemma greedy_fails min prev (l rest : str) :
  Forall (fun c => p c = true) l →
  outside p (head rest) →
  (∀ a b, l = a ++ b → k (lastOr prev a) (b ++ rest) = None) →
  greedy p k min prev (l ++ rest) = None.
Proof.
  revert min prev. induction l as [|c l IH]; intros min prev Hl Hrest Hk.
  - simpl. pose proof (Hk [] [] eq_refl) as H0. unfold lastOr in H0. simpl in H0.
    destruct rest as [|c rest]; simpl.
    + destruct (Nat.eqb min 0); [exact H0 | done].
    + simpl in Hrest. rewrite Hrest. destruct (Nat.eqb min 0); [exact H0 | done].
  - apply Forall_cons in Hl as [Hc Hl]. simpl. rewrite Hc.
    rewrite IH; [| done | done |].
    + pose proof (Hk [] (c :: l) eq_refl) as H0. unfold lastOr in H0.
      simpl in H0. destruct (Nat.eqb min 0); [exact H0 | done].
    + intros a b ->. specialize (Hk (c :: a) b eq_refl).
      by rewrite lastOr_cons in Hk.
Qed.

(** It succeeds at the longest prefix after which the rest of the pattern
    matches. *)
Lemma greedy_longest min prev (l1 l2 rest : str) m :
  Forall (fun c => p c = true) l1 →
  Forall (fun c => p c = true) l2 →
  outside p (head rest) →
  min ≤ length l1 →
  k (lastOr prev l1) (l2 ++ rest) = Some m →
  (∀ a b, l2 = a ++ b → a ≠ [] →
          k (lastOr (lastOr prev l1) a) (b ++ rest) = None) →
  greedy p k min prev (l1 ++ l2 ++ rest) = Some (length l1 + m).
Proof.
  revert min prev. induction l1 as [|c l1 IH]; intros min prev H1 H2 Hrest Hmin Hk Hfail.
  - simpl in *. assert (min = 0) as -> by lia.
    destruct l2 as [|c l2]; simpl.
    + destruct rest as [|c rest]; simpl; [done|].
      simpl in Hrest. by rewrite Hrest.
    + apply Forall_cons in H2 as [Hc H2]. rewrite Hc.
      rewrite (greedy_fails 0 (Some c) l2 rest); [done | done | done |].
      intros a b ->. specialize (Hfail (c :: a) b eq_refl).
      rewrite lastOr_cons in Hfail. by apply Hfail.
  - apply Forall_cons in H1 as [Hc H1]. simpl. rewrite Hc.
    rewrite lastOr_cons in Hk, Hfail.
    rewrite (IH (pred min) (Some c)); [done | done | done | done | simpl in Hmin; lia
                                      | done | done].
Qed.

End Greedy.

Section GreedyInversion.
Import Regex.

Lemma greedy_inv p k min prev (s : str) n :
  greedy p k min prev s = Some n →
  ∃ l rest m,
    s = l ++ rest ∧ Forall (fun c => p c = true) l ∧
    k (lastOr prev l) rest = Some m ∧ n = length l + m.
Proof.
  revert min prev n. induction s as [|c s IH]; intros min prev n; simpl.
  - destruct (Nat.eqb min 0); [|done]. intros Hk.
    exists [], [], n. by repeat split.
  - destruct (p c) eqn:Hc.
    + destruct (greedy p k (pred min) (Some c) s) as [n'|] eqn:Hrec.
      * intros [= <-]. destruct (IH _ _ _ Hrec) as (l & rest & m & -> & Hl & Hk & ->).
        exists (c :: l), rest, m. rewrite lastOr_cons. by repeat split; [constructor|..].
      * destruct (Nat.eqb min 0); [|done]. intros Hk.
        exists [], (c :: s), n. by repeat split.
    + destruct (Nat.eqb min 0); [|done]. intros Hk.
      exists [], (c :: s), n. by repeat split.
Qed.

End GreedyInversion.

(** *** Facts about the character classes *)

Ltac each_char c :=
  destruct c as [[|] [|] [|] [|] [|] [|] [|] [|]]; vm_compute; congruence.

Lemma isWord_localClass c : Js.isWord c = true → Route.localClass c = true.
Proof. each_char c. Qed.

Lemma isLetter_isWord c : Js.isLetter c = true → Js.isWord c = true.
Proof. each_char c. Qed.

Lemma isLetter_domainClass c : Js.isLetter c = true → Route.domainClass c = true.
Proof. each_char c. Qed.

Lemma isLetter_not_dot c : Js.isLetter c = true → Route.isChar "." c = false.
Proof. each_char c. Qed.

Lemma domainClass_localClass c :
  Route.domainClass c = true → Route.localClass c = true.
Proof. each_char c. Qed.

Lemma isChar_at c : Route.isChar "@" c = true → c = "@"%char.
Proof. unfold Route.isChar. by intros H%bool_decide_eq_true. Qed.

Lemma localClass_not_space c : Route.localClass c = true → Js.isSpace c = false.
Proof. each_char c. Qed.

Lemma localClass_lower c :
  Route.localClass c = true → Js.lowerChar c ≠ "@"%char.
Proof. each_char c. Qed.

Lemma outside_weaken (p q : ascii → bool) c :
  (∀ a, q a = true → p a = true) → outside p c → outside q c.
Proof.
  intros Hpq. destruct c as [a|]; [|done]. simpl. intros Hp.
  destruct (q a) eqn:Hq; [|done]. by rewrite (Hpq a Hq) in Hp.
Qed.

Lemma not_at_of_class (l : str) :
  Forall (fun c => Route.localClass c = true) l → "@"%char ∉ l.
Proof.
  intros Hl Hin. rewrite Forall_forall in Hl. by specialize (Hl _ Hin).
Qed.

(** A list is cut at the first occurrence of a character in one way only. *)
Lemma first_occurrence_unique (c : ascii) (a a' b b' : str) :
  c ∉ a → c ∉ a' → a ++ c :: b = a' ++ c :: b' → a = a' ∧ b = b'.
Proof.
  revert a'. induction a as [|x a IH]; intros a' Ha Ha' Heq.
  - destruct a' as [|x' a']; simpl in Heq.
    + by injection Heq.
    + injection Heq as <- _. by apply not_elem_of_cons in Ha' as [? _].
  - apply not_elem_of_cons in Ha as [Hx Ha].
    destruct a' as [|x' a']; simpl in Heq.
    + injection Heq as -> _. done.
    + injection Heq as <- Heq. apply not_elem_of_cons in Ha' as [_ Ha'].
      destruct (IH a' Ha Ha' Heq) as [-> ->]. done.
Qed.

(** *** Where the in-text pattern matches *)

(** A match starts with characters of the local class up to an [@]. *)
Lemma pattern_match_shape prev (s : str) n :
  Regex.run Route.EMAIL_IN_TEXT_PATTERN prev s = Some n →
  ∃ l rest, s = l ++ "@"%char :: rest ∧
            Forall (fun c => Route.localClass c = true) l.
Proof.
  unfold Route.EMAIL_IN_TEXT_PATTERN. cbn [Regex.run].
  destruct (Regex.atBoundary prev s); [|done]. intros Hg.
  apply greedy_inv in Hg as (l & rest & m & -> & Hl & Hk & _).
  destruct rest as [|c rest]; [done|]. cbn [Regex.run] in Hk.
  destruct (Route.isChar "@" c) eqn:Hc; [|done].
  apply isChar_at in Hc as ->. by exists l, rest.
Qed.

Lemma pattern_no_match_without_at prev (s : str) :
  "@"%char ∉ s → Regex.run Route.EMAIL_IN_TEXT_PATTERN prev s = None.
Proof.
  intros Hs. destruct (Regex.run _ prev s) as [n|] eqn:Hrun; [|done].
  apply pattern_match_shape in Hrun as (l & rest & -> & _).
  destruct Hs. apply elem_of_app. right. apply list_elem_of_here.
Qed.

Lemma lastOr_snoc prev (x : str) c : lastOr prev (x ++ [c]) = Some c.
Proof. unfold lastOr. by rewrite last_snoc. Qed.

Lemma lastOr_last prev (x : str) : x ≠ [] → lastOr prev x = last x.
Proof.
  unfold lastOr. destruct x as [|c x] using rev_ind; [done|].
  by rewrite last_snoc.
Qed.

Lemma Forall_last {A} (P : A → Prop) (l : list A) c :
  Forall P l → last l = Some c → P c.
Proof.
  intros Hl Hlast. rewrite Forall_forall in Hl. apply Hl.
  destruct l as [|x l] using rev_ind; [done|].
  rewrite last_snoc in Hlast. injection Hlast as ->.
  apply elem_of_app. right. apply list_elem_of_here.
Qed.

(** At a delimited address of the pattern's shape the pattern matches the
    whole address: the repetitions stop at the [@] and at the end of the top
    level label, and no shorter domain is followed by a dot. *)
Lemma pattern_matches_address prev local domain tld (post : str) :
  TextAddress local domain tld →
  outside Js.isWord prev →
  outside Js.isWord (head post) →
  outside Route.domainClass (head post) →
  Regex.run Route.EMAIL_IN_TEXT_PATTERN prev
    (address local domain tld ++ post) =
  Some (length (address local domain tld)).
Proof.
  intros [Hlocal (c & lrest & -> & Hc) Hdomain Hdne Htld Hlen] Hprev Hw Hd.
  unfold Route.EMAIL_IN_TEXT_PATTERN, address. cbn [Regex.run].
  assert (Hb : Regex.atBoundary prev
                 (((c :: lrest) ++ lit "@" ++ domain ++ lit "." ++ tld) ++ post)
               = true).
  { unfold Regex.atBoundary. simpl. rewrite Hc.
    destruct prev as [a|]; simpl in *; [by rewrite Hprev|done]. }
  rewrite Hb. clear Hb.
  assert (Htail : Regex.run [Regex.WordBoundary] (lastOr (Some "."%char) tld) post
                  = Some 0).
  { cbn [Regex.run]. unfold Regex.atBoundary.
    rewrite lastOr_last by (intros ->; simpl in Hlen; lia).
    destruct (last tld) as [a|] eqn:Hlast; [|destruct tld using rev_ind; [simpl in Hlen; lia | by rewrite last_snoc in Hlast]].
    simpl. rewrite (isLetter_isWord a (Forall_last _ _ _ Htld Hlast)).
    destruct (head post) as [b|]; simpl in *; [by rewrite Hw|done]. }
  assert (Htop : Regex.run [Regex.Many 2 Js.isLetter; Regex.WordBoundary]
                   (Some "."%char) (tld ++ post) = Some (length tld)).
  { cbn [Regex.run].
    pose proof (greedy_longest Js.isLetter (Regex.run [Regex.WordBoundary]) 2
                  (Some "."%char) tld [] post 0 Htld (Forall_nil_2 _)) as H.
    simpl in H. rewrite Nat.add_0_r in H. apply H; clear H.
    - eapply outside_weaken; [apply isLetter_isWord | exact Hw].
    - exact Hlen.
    - cbn [Regex.run] in Htail. exact Htail.
    - intros a b Hab Ha. by destruct a. }
  assert (Hdom : Regex.run [Regex.Many 1 Route.domainClass;
                            Regex.Class (Route.isChar ".");
                            Regex.Many 2 Js.isLetter; Regex.WordBoundary]
                   (Some "@"%char) (domain ++ (lit "." ++ tld) ++ post)
                 = Some (length domain + S (length tld))).
  { cbn [Regex.run].
    apply (greedy_longest Route.domainClass
             (Regex.run [Regex.Class (Route.isChar "."); Regex.Many 2 Js.isLetter;
                         Regex.WordBoundary])).
    - exact Hdomain.
    - constructor; [done|].
      eapply Forall_impl; [exact Htld | apply isLetter_domainClass].
    - exact Hd.
    - destruct domain; [done | simpl; lia].
    - cbn [Regex.run] in Htop |- *. simpl. cbn [Regex.run]. by rewrite Htop.
    - intros a b Hab Ha. destruct a as [|x a]; [done|].
      simpl in Hab. injection Hab as <- Hab.
      cbn [Regex.run].
      destruct b as [|y b]; simpl.
      + destruct post as [|z post]; [done|]. simpl in Hd.
        case_bool_decide as Hz; [|done]. subst z. by vm_compute in Hd.
      + assert (Hy : Js.isLetter y = true).
        { rewrite Forall_forall in Htld. apply Htld. rewrite Hab.
          apply elem_of_app. right. apply list_elem_of_here. }
        pose proof (isLetter_not_dot y Hy) as Hdot. unfold Route.isChar in Hdot.
        by rewrite Hdot. }
  pose proof (greedy_longest Route.localClass
                (Regex.run [Regex.Class (Route.isChar "@");
                            Regex.Many 1 Route.domainClass;
                            Regex.Class (Route.isChar ".");
                            Regex.Many 2 Js.isLetter; Regex.WordBoundary])
                1 prev (c :: lrest) []
                (lit "@" ++ domain ++ (lit "." ++ tld) ++ post)
                (S (length domain + S (length tld))) Hlocal (Forall_nil_2 _)) as H.
  rewrite <- !app_assoc. rewrite <- !app_assoc in H. simpl in H |- *.
  cbn [Regex.run] in H.
  rewrite !length_app. simpl. rewrite length_app. simpl.
  simpl in H. apply H; clear H.
  - done.
  - lia.
  - cbn [Regex.run] in Hdom. simpl in Hdom. by rewrite Hdom.
  - intros a b Hab Ha. by destruct a.
Qed.

(** *** Replacing the matches *)

Section Replace.
Import Regex.
Variable r : regex.
Variable f : str → str.

(** Characters of a match already replaced are passed over. *)
Lemma replaceFrom_skip prev (x s : str) :
  replaceFrom r f prev (length x) (x ++ s) = replaceFrom r f (lastOr prev x) 0 s.
Proof.
  revert prev. induction x as [|c x IH]; intros prev; [done|].
  simpl. by rewrite IH, lastOr_cons.
Qed.

(** Text in which no match starts is copied. *)
Lemma replaceFrom_no_match prev (pre tail : str) :
  (∀ x y, pre = x ++ y → y ≠ [] → run r (lastOr prev x) (y ++ tail) = None) →
  replaceFrom r f prev 0 (pre ++ tail) =
  pre ++ replaceFrom r f (lastOr prev pre) 0 tail.
Proof.
  revert prev. induction pre as [|c pre IH]; intros prev Hno; [done|].
  pose proof (Hno [] (c :: pre) eq_refl) as Hhere.
  change (lastOr prev []) with prev in Hhere.
  change (replaceFrom r f prev 0 ((c :: pre) ++ tail)) with
    (match run r prev ((c :: pre) ++ tail) with
     | Some (S n) => f (take (S n) ((c :: pre) ++ tail))
                     ++ replaceFrom r f (Some c) n (pre ++ tail)
     | _ => c :: replaceFrom r f (Some c) 0 (pre ++ tail)
     end).
  rewrite Hhere by done.
  rewrite IH, lastOr_cons; [done|].
  intros x y -> Hy. rewrite <- (lastOr_cons prev c x). by apply (Hno (c :: x) y).
Qed.

(** A match at the head of the text is replaced, and the search resumes
    after it. *)
Lemma replaceFrom_match prev (x s : str) :
  x ≠ [] → run r prev (x ++ s) = Some (length x) →
  replaceFrom r f prev 0 (x ++ s) = f x ++ replaceFrom r f (lastOr prev x) 0 s.
Proof.
  intros Hx Hrun. destruct x as [|c x]; [done|].
  change (replaceFrom r f prev 0 ((c :: x) ++ s)) with
    (match run r prev ((c :: x) ++ s) with
     | Some (S n) => f (take (S n) ((c :: x) ++ s)) ++ replaceFrom r f (Some c) n (x ++ s)
     | _ => c :: replaceFrom r f (Some c) 0 (x ++ s)
     end).
  rewrite Hrun. cbn [length].
  change (S (length x)) with (length (c :: x)) at 1.
  rewrite take_app_length. by rewrite replaceFrom_skip, lastOr_cons.
Qed.

End Replace.

Lemma replace_plain f prev (text : str) :
  "@"%char ∉ text →
  Regex.replaceFrom Route.EMAIL_IN_TEXT_PATTERN f prev 0 text = text.
Proof.
  intros Hat.
  pose proof (replaceFrom_no_match Route.EMAIL_IN_TEXT_PATTERN f prev text []) as H.
  rewrite !app_nil_r in H. rewrite H; [by destruct text|].
  intros x y -> _. rewrite app_nil_r. apply pattern_no_match_without_at.
  intros Hy. apply Hat. apply elem_of_app. by right.
Qed.

Lemma address_first_at local domain tld :
  TextAddress local domain tld → "@"%char ∉ local.
Proof. intros H. apply not_at_of_class, H. Qed.

(** No match starts in text without [@] that precedes a delimited
    address. *)
Lemma no_match_before_address prev (pre x y : str) local domain tld (post : str) :
  TextAddress local domain tld →
  "@"%char ∉ pre → outside Route.localClass (last pre) →
  pre = x ++ y → y ≠ [] →
  Regex.run Route.EMAIL_IN_TEXT_PATTERN prev
    (y ++ address local domain tld ++ post) = None.
Proof.
  intros Haddr Hat Hlast -> Hy.
  destruct (Regex.run _ prev _) as [n|] eqn:Hrun; [|done].
  apply pattern_match_shape in Hrun as (l & rest & Heq & Hl).
  unfold address in Heq. rewrite <- !app_assoc in Heq. simpl in Heq.
  rewrite app_assoc in Heq.
  apply first_occurrence_unique in Heq as [<- _].
  - apply Forall_app in Hl as [Hyl _].
    rewrite last_app_nonempty in Hlast by done.
    destruct (last y) as [c|] eqn:Hc.
    + simpl in Hlast. by rewrite (Forall_last _ _ _ Hyl Hc) in Hlast.
    + destruct y using rev_ind; [done | by rewrite last_snoc in Hc].
  - intros [Hin|Hin]%elem_of_app.
    + apply Hat. apply elem_of_app. by right.
    + by apply (address_first_at _ _ _ Haddr).
  - by apply not_at_of_class.
Qed.

(** *** The mask of an address *)

Lemma trim_clean (c d : ascii) (s : str) :
  Js.isSpace c = false → Js.isSpace d = false →
  Js.trim (c :: s ++ [d]) = c :: s ++ [d].
Proof.
  intros Hc Hd. unfold Js.trim, Js.trimEnd.
  cbn [Js.trimStart]. rewrite Hc.
  change (c :: s ++ [d]) with ((c :: s) ++ [d]).
  rewrite rev_app_distr. cbn [rev app Js.trimStart]. rewrite Hd.
  change (d :: rev s ++ [c]) with ([d] ++ rev (c :: s)).
  by rewrite rev_app_distr, rev_involutive.
Qed.

Lemma split_one_separator (x y : str) (c : ascii) :
  c ∉ x → c ∉ y → Js.split (x ++ c :: y) c = [x; y].
Proof.
  intros Hx Hy. induction x as [|a x IH]; simpl.
  - by rewrite bool_decide_eq_true_2, split_no_separator.
  - apply not_elem_of_cons in Hx as [Hne Hx].
    rewrite bool_decide_eq_false_2 by congruence. by rewrite IH.
Qed.

Lemma toLowerCase_no_at (x : str) :
  Forall (fun c => Route.localClass c = true) x → "@"%char ∉ Js.toLowerCase x.
Proof.
  intros Hx [c [Hc Hin]]%list_elem_of_fmap.
  rewrite Forall_forall in Hx. by apply (localClass_lower c (Hx c Hin)).
Qed.

Lemma domain_part_class local domain tld :
  TextAddress local domain tld →
  Forall (fun c => Route.localClass c = true) (domain ++ lit "." ++ tld).
Proof.
  intros H. apply Forall_app. split.
  - eapply Forall_impl; [apply H | apply domainClass_localClass].
  - constructor; [done|].
    eapply Forall_impl; [apply H|]. intros c Hc.
    by apply domainClass_localClass, isLetter_domainClass.
Qed.

Lemma address_trimmed local domain tld :
  TextAddress local domain tld →
  Js.trim (address local domain tld) = address local domain tld.
Proof.
  intros [Hlocal (c & lrest & -> & Hc) Hdomain Hdne Htld Hlen].
  destruct tld as [|z tld] using rev_ind; [simpl in Hlen; lia|].
  clear IHtld. unfold address.
  replace ((c :: lrest) ++ lit "@" ++ domain ++ lit "." ++ tld ++ [z])
    with (c :: (lrest ++ lit "@" ++ domain ++ lit "." ++ tld) ++ [z])
    by (by rewrite <- !app_assoc).
  apply trim_clean.
  - apply localClass_not_space, isWord_localClass, Hc.
  - apply Forall_app in Htld as [_ Hz]. inversion_clear Hz as [|? ? Hz' _].
    by apply localClass_not_space, domainClass_localClass, isLetter_domainClass.
Qed.

Lemma maskEmail_address local domain tld :
  TextAddress local domain tld →
  Route.maskEmail (address local domain tld) = masked local domain tld.
Proof.
  intros Haddr. unfold Route.maskEmail. cbv zeta.
  rewrite (address_trimmed _ _ _ Haddr). unfold address.
  rewrite toLowerCase_app.
  change (Js.toLowerCase (lit "@" ++ domain ++ lit "." ++ tld))
    with ("@"%char :: Js.toLowerCase (domain ++ lit "." ++ tld)).
  rewrite split_one_separator.
  2: { apply toLowerCase_no_at, Haddr. }
  2: { apply toLowerCase_no_at, (domain_part_class local), Haddr. }
  cbn [lookup list_lookup default]. unfold id.
  destruct Haddr as [Hlocal (c & lrest & -> & Hc) Hdomain Hdne Htld Hlen].
  assert (Hd : Js.truthy (Js.toLowerCase (domain ++ lit "." ++ tld)) = true).
  { by destruct domain. }
  assert (Hl : Js.truthy (Js.toLowerCase (c :: lrest)) = true) by done.
  rewrite Hl, Hd. cbn [negb orb].
  unfold masked, Js.toLowerCase. rewrite length_map.
  destruct (length (c :: lrest) <=? 2) eqn:Hlen2; [done|].
  apply Nat.leb_gt in Hlen2.
  change 0%Z with (Z.of_nat 0). change 2%Z with (Z.of_nat 2).
  rewrite slice_within; [done | lia | rewrite length_map; lia].
Qed.

(** *** Sanitizing a message *)

Lemma address_nonempty local domain tld : address local domain tld ≠ [].
Proof. unfold address. by destruct local. Qed.

Lemma replace_masks message out :
  Masks message out →
  ∀ prev, outside Js.isWord prev ∨ outside Js.isWord (head message) →
  Regex.replaceFrom Route.EMAIL_IN_TEXT_PATTERN Route.maskEmail prev 0 message
  = out.
Proof.
  induction 1 as [text Hat | pre local domain tld post out Hat Haddr Hdel _ IH];
    intros prev Hprev.
  - by apply replace_plain.
  - destruct Hdel as (Hbefore & Hword & Hdom).
    rewrite replaceFrom_no_match.
    2: { intros x y. by apply (no_match_before_address _ pre). }
    f_equal.
    rewrite replaceFrom_match.
    + rewrite (maskEmail_address _ _ _ Haddr). f_equal. apply IH. by right.
    + apply address_nonempty.
    + apply pattern_matches_address; try done.
      destruct pre as [|c pre].
      * destruct Hprev as [Hprev|Hhead]; [done|].
        destruct Haddr as [_ (c & lrest & -> & Hc) _ _ _ _].
        simpl in Hhead. by rewrite Hc in Hhead.
      * rewrite lastOr_last by done.
        eapply outside_weaken; [apply isWord_localClass | exact Hbefore].
Qed.

Lemma sanitizeErrorMessage_masks message out :
  Masks message out → Route.sanitizeErrorMessage message = out.
Proof. intros H. apply (replace_masks _ _ H). by left. Qed.

(** *** The sanitized message holds no address of the pattern's shape *)

Lemma starred_app prev (x y : str) :
  starred prev (x ++ y) = starred prev x && starred (lastOr prev x) y.
Proof.
  revert prev. induction x as [|c x IH]; intros prev; [done|].
  simpl. by rewrite IH, lastOr_cons, andb_assoc.
Qed.

Lemma starred_plain prev (x : str) : "@"%char ∉ x → starred prev x = true.
Proof.
  revert prev. induction x as [|c x IH]; intros prev Hx; [done|].
  apply not_elem_of_cons in Hx as [Hne Hx]. simpl.
  rewrite bool_decide_eq_false_2 by congruence. by apply IH.
Qed.

Lemma take_no_at n (x : str) : "@"%char ∉ x → "@"%char ∉ take n x.
Proof.
  intros Hx Hin. apply Hx. rewrite <- (take_drop n x).
  apply elem_of_app. by left.
Qed.

Lemma starred_masked prev local domain tld (out : str) :
  TextAddress local domain tld →
  (∀ prev', starred prev' out = true) →
  starred prev (masked local domain tld ++ out) = true.
Proof.
  intros Haddr Hout. unfold masked.
  rewrite <- !app_assoc, starred_app.
  rewrite starred_plain by apply take_no_at, toLowerCase_no_at, Haddr.
  change (lit "***@") with (lit "***" ++ lit "@").
  rewrite <- app_assoc, starred_app. cbn [andb].
  rewrite (starred_plain _ (lit "***")) by not_in_literal. cbn [andb].
  change (lit "***") with (lit "**" ++ ["*"%char]). rewrite lastOr_snoc.
  cbn [lit app starred list_ascii_of_string].
  rewrite !bool_decide_eq_true_2 by done. cbn [andb].
  rewrite starred_app, Hout, andb_true_r.
  apply starred_plain, toLowerCase_no_at, (domain_part_class local), Haddr.
Qed.

Lemma starred_Masks message out :
  Masks message out → ∀ prev, starred prev out = true.
Proof.
  induction 1 as [text Hat | pre local domain tld post out Hat Haddr _ _ IH];
    intros prev.
  - by apply starred_plain.
  - rewrite starred_app, (starred_plain _ pre Hat). cbn [andb].
    by apply starred_masked.
Qed.

Lemma starred_no_address prev (out a b : str) local domain tld :
  TextAddress local domain tld →
  starred prev out = true →
  out ≠ a ++ address local domain tld ++ b.
Proof.
  intros Haddr Hstar ->. unfold address in Hstar.
  rewrite starred_app, <- !app_assoc, starred_app in Hstar.
  apply andb_prop in Hstar as [_ [_ Hstar]%andb_prop].
  cbn [lit app starred list_ascii_of_string] in Hstar.
  rewrite bool_decide_eq_true_2 in Hstar by done.
  apply andb_prop in Hstar as [Hstar%bool_decide_eq_true _].
  destruct Haddr as [Hlocal (c & lrest & -> & Hc) _ _ _ _].
  rewrite lastOr_last in Hstar by done.
  by pose proof (Forall_last _ _ _ Hlocal Hstar).
Qed.

(** *** The [catch] clause of the route *)

Lemma onTransportError_spec o log e w :
  ∃ w',
    Route.onTransportError o log e w =
      (Route.failure 500 (Route.sanitizeErrorMessage (thrownText e)), w') ∧
    last (trace w') =
      Some (LogInsert
              (log log_failed (Some (Route.sanitizeErrorMessage (thrownText e)))
                 None)) ∧
    ((∀ t, storeError o t = false) →
     inserted <$> last (send_logs w') =
       Some (log log_failed (Some (Route.sanitizeErrorMessage (thrownText e)))
               None)).
Proof.
  unfold Route.onTransportError, Route.writeSendLog, bind, ret, emit, nextTick,
    appendLog.
  cbv beta iota zeta. cbn [tick send_logs contacts trace].
  fold (thrownText e).
  destruct (storeError o (tick w)) eqn:Hstore; eexists; split_and!;
    try reflexivity; cbn [trace send_logs].
  - by rewrite last_snoc.
  - intros Hall. by rewrite Hall in Hstore.
  - by rewrite last_snoc.
  - intros _. by rewrite last_snoc.
Qed.

Lemma handle_transport_error lib env o request user body f w e :
  validInput lib f →
  validSender env →
  Route.searchParams_get (Route.searchParams request) "dryRun" ≠ Some (lit "1") →
  (∃ m, Route.getGmailClient env = Some m ∧ e = ErrorWith m) ∨
  (Route.getGmailClient env = None ∧ ∀ raw, gmail o (tick w) raw = Rejects e) →
  ∃ w' log,
    Route.handle lib env o request user body f w =
      (Route.failure 500 (Route.sanitizeErrorMessage (thrownText e)), w') ∧
    last (trace w') = Some (LogInsert log) ∧
    log_status log = log_failed ∧
    log_error log = Some (Route.sanitizeErrorMessage (thrownText e)) ∧
    ((∀ t, storeError o t = false) →
     inserted <$> last (send_logs w') = Some log).
Proof.
  intros (Hzip & Hkey & Hmail & Hat & Hpdf & Hb64 & Hbuf)
    (s & Hs & Hne & Hsender) Hdry Hthrows.
  unfold Route.handle. cbv beta iota zeta.
  rewrite (truthy_ne _ Hzip), (truthy_ne _ Hkey), Hmail, Hat, Hpdf,
    (truthy_ne _ Hb64), (length_eqb_ne _ Hbuf). cbv beta iota.
  rewrite Hs. cbn [fmap option_fmap option_map].
  rewrite (truthy_ne _ Hne), Hsender. cbv beta iota.
  rewrite bool_decide_eq_false_2 by done. cbv beta iota.
  destruct Hthrows as [(m & Hclient & ->) | [Hclient Hreject]].
  - rewrite Hclient. cbn [negb orb andb]. cbv beta iota.
    match goal with
    | |- context [Route.onTransportError o ?log ?e w] =>
        destruct (onTransportError_spec o log e w) as (w' & Hrun & Htrace & Hstore);
        exists w', (log log_failed (Some (Route.sanitizeErrorMessage (thrownText e))) None)
    end.
    by split_and!.
  - rewrite Hclient. cbn [negb orb andb]. cbv beta iota.
    unfold bind, emit, nextTick. cbv beta iota zeta.
    cbn [tick]. rewrite Hreject. cbv beta iota.
    match goal with
    | |- context [Route.onTransportError o ?log ?e ?w1] =>
        destruct (onTransportError_spec o log e w1) as (w' & Hrun & Htrace & Hstore);
        exists w', (log log_failed (Some (Route.sanitizeErrorMessage (thrownText e))) None)
    end.
    by split_and!.
Qed.

(** C5, as the code has it: when the transport step throws [e] while an
    authorized, valid, non-dry-run request is served, the route answers 500
    with the sanitized message of [e], and its send-log write records the
    attempt as [failed] with the same sanitized message (the row is the last
    of the log when the store accepts the write).  When the message of [e]
    is text without [@] around delimited addresses of the pattern's shape
    ([Masks]), the sanitized message is that text with every such address
    replaced by its masked form, and no address of that shape is left in
    it.  Nothing of the kind holds of other messages: an address outside the
    shape is kept, and so is a candidate that shares characters with a
    match. *)
Theorem transport_error_is_sanitized_and_failed lib env o request body f w e :
  authorized env (session o (tick w)) →
  Route.request_json request = Some body →
  Route.readFields body = Some f →
  validInput lib f →
  validSender env →
  Route.searchParams_get (Route.searchParams request) "dryRun" ≠ Some (lit "1") →
  transportThrows env o w e →
  ∃ w' log,
    Route.POST lib env o request w =
      (Route.failure 500 (Route.sanitizeErrorMessage (thrownText e)), w') ∧
    last (trace w') = Some (LogInsert log) ∧
    log_status log = log_failed ∧
    log_error log = Some (Route.sanitizeErrorMessage (thrownText e)) ∧
    ((∀ t, storeError o t = false) →
     inserted <$> last (send_logs w') = Some log) ∧
    ∀ out, Masks (thrownText e) out →
      Route.sanitizeErrorMessage (thrownText e) = out ∧
      ∀ local domain tld a b,
        TextAddress local domain tld → out ≠ a ++ address local domain tld ++ b.
Proof.
  intros (Hauth & u & Hu & Hadmin) Hbody Hread Hvalid Hsender Hdry Hthrows.
  destruct (handle_transport_error lib env o request u body f
              {| tick := S (tick w); send_logs := send_logs w;
                 contacts := contacts w; trace := trace w |} e
              Hvalid Hsender Hdry Hthrows)
    as (w' & log & Hrun & Htrace & Hstatus & Herror & Hstore).
  exists w', log. split_and!; try done.
  - unfold Route.POST, bind, nextTick. cbv beta iota zeta.
    rewrite Hauth. cbv beta iota. by rewrite Hu, Hadmin, Hbody, Hread.
  - intros out Hout. split.
    + by apply sanitizeErrorMessage_masks.
    + intros local domain tld a b Haddr.
      by apply (starred_no_address None), (starred_Masks _ _ Hout).
Qed.

(** C5 at the demo deployment: the provider rejects the message for
    [alice@example.com] and names her address in its error. *)
Lemma transport_error_is_sanitized_and_failed_witness :
  ∃ w' log,
    Route.POST Demo.lib Demo.env
      (Demo.oracle (Demo.rejected "Recipient Alice@Example.com rejected"))
      (Demo.request "alice@example.com") Demo.world0 =
      (Route.failure 500 "Recipient al***@example.com rejected", w') ∧
    last (trace w') = Some (LogInsert log) ∧
    log_status log = log_failed ∧
    log_error log = Some (lit "Recipient al***@example.com rejected").
Proof.
  destruct (transport_error_is_sanitized_and_failed Demo.lib Demo.env
              (Demo.oracle (Demo.rejected "Recipient Alice@Example.com rejected"))
              (Demo.request "alice@example.com") (Demo.body "alice@example.com")
              (Demo.fields "alice@example.com") Demo.world0
              (ErrorWith (lit "Recipient Alice@Example.com rejected")))
    as (w' & log & Hrun & Htrace & Hstatus & Herror & _ & Hmasks).
  - split; [reflexivity|].
    exists {| user_id := lit "u1"; user_email := Some (lit "ops@example.com") |}.
    split; reflexivity.
  - reflexivity.
  - reflexivity.
  - repeat split; try discriminate; reflexivity.
  - exists (lit "billing@example.com"). repeat split; try discriminate; reflexivity.
  - discriminate.
  - right. split; reflexivity.
  - destruct (Hmasks (lit "Recipient al***@example.com rejected")) as [Hout _].
    { apply (masks_address (lit "Recipient ") (lit "Alice") (lit "Example")
               (lit "com") (lit " rejected") (lit " rejected")).
      - not_in_literal.
      - split; simpl; repeat constructor.
        + by exists "A"%char, (lit "lice").
        + discriminate.
      - repeat split.
      - apply masks_plain. not_in_literal. }
    exists w', log. rewrite Hout in Hrun, Herror. by split_and!.
Defined.

(** C5 as stated fails: [admin@10.0.0.5] is a recipient the route accepts,
    and when the provider's error names it, the answer and the send-log write
    carry the address as it is. *)
Lemma transport_error_keeps_numeric_host_address :
  (Route.POST Demo.lib Demo.env
     (Demo.oracle (Demo.rejected "Invalid recipient admin@10.0.0.5"))
     (Demo.request "admin@10.0.0.5") Demo.world0).1 =
  Route.failure 500 "Invalid recipient admin@10.0.0.5" ∧
  (log_error ∘ inserted) <$>
    last (send_logs
            (Route.POST Demo.lib Demo.env
               (Demo.oracle (Demo.rejected "Invalid recipient admin@10.0.0.5"))
               (Demo.request "admin@10.0.0.5") Demo.world0).2) =
  Some (Some (lit "Invalid recipient admin@10.0.0.5")).
Proof. split; vm_compute; reflexivity. Qed.

(** Of two candidates that share characters only the first is a match: in
    [a@b.cd@e.fg] the address [b.cd@e.fg] is left as it is. *)
Example overlapping_candidate_is_kept :
  Route.sanitizeErrorMessage "a@b.cd@e.fg" = lit "a***@b.cd@e.fg".
Proof. vm_compute. reflexivity. Qed.

(** ** The send route: what a request leaves behind *)

Lemma writeSendLog_spec o log w :
  trace (Route.writeSendLog o log w).2 = trace w ++ [LogInsert log] ∧
  tick (Route.writeSendLog o log w).2 = S (tick w) ∧
  contacts (Route.writeSendLog o log w).2 = contacts w ∧
  (send_logs (Route.writeSendLog o log w).2 = send_logs w ∨
   send_logs (Route.writeSendLog o log w).2 =
     send_logs w ++ [{| sent_at := clock o (tick w); inserted := log |}]) ∧
  (storeError o (tick w) = false →
   send_logs (Route.writeSendLog o log w).2 =
     send_logs w ++ [{| sent_at := clock o (tick w); inserted := log |}]).
Proof.
  unfold Route.writeSendLog. run_eff. cbn [tick].
  destruct (storeError o (tick w)); cbn; split_and!; auto; done.
Qed.

(** A write of [log] as the last step of a request that added [evs] so
    far. *)
Lemma logged_step (request : Route.Request) o log w0 w evs (r res : Route.Response) w' :
  (Route.writeSendLog o log ;; ret r)%eff w = (res, w') →
  grows w0 w evs → send_logs w = send_logs w0 →
  RouteTrace request (evs ++ [LogInsert log]) →
  ∃ evs',
    grows w0 w' evs' ∧ RouteTrace request evs' ∧
    logGrowth (send_logs w0) (send_logs w') evs'.
Proof.
  intros Hrun Hgrows Hlogs Htrace.
  destruct (writeSendLog_spec o log w) as (Ht & _ & _ & Hl & _).
  unfold bind, ret in Hrun. destruct (Route.writeSendLog o log w) as [[] w1].
  injection Hrun as _ <-.
  cbn [snd] in *. exists (evs ++ [LogInsert log]). split_and!.
  - unfold grows in *. by rewrite Ht, Hgrows, app_assoc.
  - done.
  - destruct Hl as [Hl|Hl]; [left; congruence|].
    right. exists log, (clock o (tick w)). split; [apply last_snoc|congruence].
Qed.

Lemma handle_shape lib env o request u body f w res w' :
  Route.request_json request = Some body →
  Route.handle lib env o request u body f w = (res, w') →
  ∃ evs,
    grows w w' evs ∧ RouteTrace request evs ∧
    logGrowth (send_logs w) (send_logs w') evs.
Proof.
  intros Hbody Hres.
  assert (Hsilent : ∀ r : Route.Response, ret r w = (res, w') →
            ∃ evs, grows w w' evs ∧ RouteTrace request evs ∧
                   logGrowth (send_logs w) (send_logs w') evs).
  { intros r Hr. unfold ret in Hr. injection Hr as _ <-.
    exists []. split_and!; [apply grows_refl | constructor | by left]. }
  unfold Route.handle in Hres. cbv beta iota zeta in Hres.
  destruct (Js.truthy (Route.b_zip_filename f))
    eqn:Hzip; [|cbn [negb orb] in Hres; by eapply Hsilent].
  destruct (Js.truthy (Route.b_account_key f))
    eqn:Hkey; [|cbn [negb orb] in Hres; by eapply Hsilent].
  destruct (Regex.test Route.EMAIL_PATTERN
              (Js.toLowerCase (Route.b_to_email f)))
    eqn:Hmail; [|cbn [negb orb] in Hres; by eapply Hsilent].
  destruct (Js.includesChar
              (Js.toLowerCase (Route.b_to_email f)) "@")
    eqn:Hat; [|cbn [negb orb] in Hres; by eapply Hsilent].
  destruct (Js.endsWith
              (Js.toLowerCase (Route.b_filename f))
              ".pdf") eqn:Hpdf; [|cbn [negb orb] in Hres; by eapply Hsilent].
  destruct (Js.truthy (Route.b_pdf_base64 f))
    eqn:Hb64; [|cbn [negb orb] in Hres; by eapply Hsilent].
  destruct (length (base64Decode lib
                      (Route.b_pdf_base64 f)) =? 0)
    eqn:Hbuf; [cbn [negb orb] in Hres; by eapply Hsilent|].
  cbn [negb orb] in Hres. cbv beta iota in Hres.
  apply truthy_true in Hzip, Hkey.
  assert (Hfailed : ∀ message,
            wellFormedLog
              {| log_zip_filename := Route.b_zip_filename f;
                 log_account_key := Route.b_account_key f;
                 log_trade_date :=
                   if Js.truthy (Route.b_trade_date f)
                   then Some (Route.b_trade_date f)
                   else None;
                 log_to_email :=
                   Js.toLowerCase (Route.b_to_email f);
                 log_to_name :=
                   if Js.truthy (Route.b_to_name f)
                   then Some (Route.b_to_name f)
                   else None;
                 log_status := log_failed;
                 log_error := Some message;
                 log_message_id := None;
                 log_sent_by_auth_user_id := user_id u |}).
  { intros message. split_and!; cbn; eauto. }
  match type of Hres with
  | context [match ?s with Some _ => _ | None => _ end] =>
      destruct s as [senderEmail|] eqn:Hsender
  end.
  2: { eapply (logged_step request o _ w w []);
         [exact Hres | apply grows_refl | done
         | by apply route_logged; [|apply Hfailed]]. }
  destruct (bool_decide _); [by eapply Hsilent|].
  destruct (Route.getGmailClient env) as [m|] eqn:Hclient.
  { unfold Route.onTransportError in Hres. cbv zeta in Hres.
    eapply (logged_step request o _ w w []);
      [exact Hres | apply grows_refl | done
      | by apply route_logged; [|apply Hfailed]]. }
  unfold bind at 1, emit at 1 in Hres. cbv beta iota zeta in Hres.
  unfold bind at 1, nextTick at 1 in Hres. cbv beta iota zeta in Hres.
  cbn [tick send_logs contacts trace] in Hres.
  match type of Hres with
  | context [gmail o (tick w) ?raw] =>
      set (sending_raw := raw) in *;
      destruct (gmail o (tick w) sending_raw) as [r|e]
  end.
  - destruct (data_id r ≫= Js.nonEmpty) as [mid|] eqn:Hmid.
    + eapply (logged_step request o _ w _ [GmailSend body sending_raw]);
        [exact Hres | done | done |].
      apply route_transport; [done|]. split_and!; cbn; eauto.
      split; [done|]. exists mid. split; [done|].
      destruct (data_id r) as [i|]; [|done]. cbn in Hmid. unfold Js.nonEmpty in Hmid.
      destruct (Js.truthy i) eqn:Hi; [|done]. injection Hmid as <-.
      by apply truthy_true.
    + eapply (logged_step request o _ w _ [GmailSend body sending_raw]);
        [exact Hres | done | done |].
      apply route_transport; [done | apply Hfailed].
  - unfold Route.onTransportError in Hres. cbv zeta in Hres.
    eapply (logged_step request o _ w _ [GmailSend body sending_raw]);
      [exact Hres | done | done |].
    apply route_transport; [done | apply Hfailed].
Qed.

(** X1: a request adds to the trace nothing, one send-log write, or one
    transport call followed by one send-log write; every row written is well
    formed, and the send log grows by at most that row. *)
Theorem every_transport_call_is_logged lib env o request w :
  ∃ evs,
    grows w (Route.POST lib env o request w).2 evs ∧
    RouteTrace request evs ∧
    logGrowth (send_logs w) (send_logs (Route.POST lib env o request w).2) evs.
Proof.
  destruct (Route.POST lib env o request w) as [res w'] eqn:Hres. cbn [snd].
  assert (Hsilent : ∀ r : Route.Response,
            ret r (ticked w) = (res, w') →
            ∃ evs, grows w w' evs ∧ RouteTrace request evs ∧
                   logGrowth (send_logs w) (send_logs w') evs).
  { intros r Hr. unfold ret in Hr. injection Hr as _ <-.
    exists []. split_and!; [by unfold grows; simpl; rewrite app_nil_r
                           | constructor | by left]. }
  unfold Route.POST in Hres. unfold bind at 1, nextTick at 1 in Hres.
  cbv beta iota zeta in Hres. fold (ticked w) in Hres.
  destruct (negb (Auth.isAuthenticated (session o (tick w)))); [by eapply Hsilent|].
  destruct (user (session o (tick w))) as [u|]; [|by eapply Hsilent].
  destruct (negb (Auth.hasAdminAccess env (user_email u) _)); [by eapply Hsilent|].
  destruct (Route.request_json request) as [body|] eqn:Hbody; [|by eapply Hsilent].
  destruct (Route.readFields body) as [f|]; [|by eapply Hsilent].
  by apply (handle_shape lib env o request u body f (ticked w) res w').
Qed.

Lemma POST_authorized lib env o request body f w :
  authorized env (session o (tick w)) →
  Route.request_json request = Some body →
  Route.readFields body = Some f →
  ∃ u, user (session o (tick w)) = Some u ∧
       Route.POST lib env o request w =
       Route.handle lib env o request u body f (ticked w).
Proof.
  intros (Hauth & u & Hu & Hadmin) Hbody Hread. exists u. split; [done|].
  unfold Route.POST, bind, nextTick. cbv beta iota zeta.
  rewrite Hauth. cbv beta iota. by rewrite Hu, Hadmin, Hbody, Hread.
Qed.

(** The transport step of a validated request, with the message it sends. *)
Lemma handle_transport lib env o request u body f w :
  validInput lib f →
  validSender env →
  Route.searchParams_get (Route.searchParams request) "dryRun" ≠ Some (lit "1") →
  Route.getGmailClient env = None →
  Route.handle lib env o request u body f w =
    (emit (GmailSend body (messageOf lib env f)) ;;
     t' <- nextTick ;;
     match gmail o t' (messageOf lib env f) with
     | Rejects e => Route.onTransportError o (logOf f u) e
     | Resolves sendResult =>
         match data_id sendResult ≫= Js.nonEmpty with
         | None =>
             Route.writeSendLog o
               (logOf f u log_failed (Some (lit "Failed to send email.")) None) ;;
             ret (Route.failure 500 "Failed to send email.")
         | Some mid =>
             Route.writeSendLog o (logOf f u log_sent None (Some mid)) ;;
             ret (sentResponse mid (data_threadId sendResult))
         end
     end)%eff w.
Proof.
  intros (Hzip & Hkey & Hmail & Hat & Hpdf & Hb64 & Hbuf)
    (s & Hs & Hne & Hsender) Hdry Hclient.
  unfold Route.handle. cbv beta iota zeta.
  rewrite (truthy_ne _ Hzip), (truthy_ne _ Hkey), Hmail, Hat, Hpdf,
    (truthy_ne _ Hb64), (length_eqb_ne _ Hbuf). cbv beta iota.
  rewrite Hs. cbn [fmap option_fmap option_map].
  rewrite (truthy_ne _ Hne), Hsender. cbv beta iota.
  rewrite bool_decide_eq_false_2 by done. cbv beta iota.
  rewrite Hclient. cbn [negb orb andb]. cbv beta iota.
  match goal with
  | |- bind (emit (GmailSend body ?raw)) _ w = _ =>
      assert (Hraw : raw = messageOf lib env f)
  end.
  { unfold messageOf, toAddressOf. rewrite Hs. cbn [default].
    destruct (Js.truthy (Route.b_to_name f));
      destruct (Js.truthy (Route.b_trade_date f));
      reflexivity. }
  rewrite Hraw. reflexivity.
Qed.

Lemma logged_answer o log (r : Route.Response) w :
  ∃ w',
    (Route.writeSendLog o log ;; ret r)%eff w = (r, w') ∧
    trace w' = trace w ++ [LogInsert log] ∧
    (storeError o (tick w) = false →
     send_logs w' =
       send_logs w ++ [{| sent_at := clock o (tick w); inserted := log |}]).
Proof.
  destruct (writeSendLog_spec o log w) as (Ht & _ & _ & _ & Hl).
  unfold bind, ret. destruct (Route.writeSendLog o log w) as [[] w'].
  by exists w'.
Qed.

(** X2: a message the provider accepts with an id is answered [ok] with that
    id, after exactly one transport call, carrying the message built from
    the request, and one send-log write with status [sent], the id and no
    error. *)
Theorem accepted_message_is_logged_as_sent lib env o request body f w r mid :
  authorized env (session o (tick w)) →
  Route.request_json request = Some body →
  Route.readFields body = Some f →
  validInput lib f →
  validSender env →
  Route.searchParams_get (Route.searchParams request) "dryRun" ≠ Some (lit "1") →
  Route.getGmailClient env = None →
  gmail o (S (tick w)) (messageOf lib env f) = Resolves r →
  data_id r = Some mid → mid ≠ [] →
  ∃ u w',
    user (session o (tick w)) = Some u ∧
    Route.POST lib env o request w = (sentResponse mid (data_threadId r), w') ∧
    trace w' =
      trace w ++ [GmailSend body (messageOf lib env f);
                  LogInsert (logOf f u log_sent None (Some mid))] ∧
    (storeError o (S (S (tick w))) = false →
     send_logs w' =
       send_logs w ++ [{| sent_at := clock o (S (S (tick w)));
                          inserted := logOf f u log_sent None (Some mid) |}]).
Proof.
  intros Hauth Hbody Hread Hvalid Hsender Hdry Hclient Hgmail Hid Hmid.
  destruct (POST_authorized lib env o request body f w Hauth Hbody Hread)
    as (u & Hu & ->).
  rewrite (handle_transport lib env o request u body f _ Hvalid Hsender Hdry Hclient).
  unfold bind at 1, emit at 1. cbv beta iota zeta.
  unfold bind at 1, nextTick at 1. cbv beta iota zeta.
  cbn [ticked tick send_logs contacts trace]. rewrite Hgmail, Hid.
  cbn [mbind option_bind]. unfold Js.nonEmpty. rewrite (truthy_ne _ Hmid).
  match goal with
  | |- context [bind (Route.writeSendLog o ?log) (λ _, ret ?r) ?w1] =>
      destruct (logged_answer o log r w1) as (w' & -> & Htrace & Hlogs)
  end.
  exists u, w'. split_and!; [done | done | | exact Hlogs].
  rewrite Htrace. cbn [trace]. by rewrite <- app_assoc.
Qed.

(** The accepted send of the demo deployment: [alice@example.com] gets her
    bill and the log gains a [sent] row with the provider's id. *)
Lemma accepted_message_is_logged_as_sent_witness :
  ∃ u w',
    user (session (Demo.oracle Demo.accepted) (tick Demo.world0)) = Some u ∧
    Route.POST Demo.lib Demo.env (Demo.oracle Demo.accepted)
      (Demo.request "alice@example.com") Demo.world0 =
      (sentResponse (lit "m1") None, w') ∧
    trace w' =
      trace Demo.world0 ++
      [GmailSend (Demo.body "alice@example.com")
         (messageOf Demo.lib Demo.env (Demo.fields "alice@example.com"));
       LogInsert (logOf (Demo.fields "alice@example.com") u log_sent None
                    (Some (lit "m1")))] ∧
    (storeError (Demo.oracle Demo.accepted) (S (S (tick Demo.world0))) = false →
     send_logs w' =
       send_logs Demo.world0 ++
       [{| sent_at := clock (Demo.oracle Demo.accepted) (S (S (tick Demo.world0)));
           inserted := logOf (Demo.fields "alice@example.com") u log_sent None
                         (Some (lit "m1")) |}]).
Proof.
  apply (accepted_message_is_logged_as_sent Demo.lib Demo.env
           (Demo.oracle Demo.accepted) (Demo.request "alice@example.com")
           (Demo.body "alice@example.com") (Demo.fields "alice@example.com")
           Demo.world0
           {| data_id := Some (lit "m1"); data_threadId := None |} (lit "m1")).
  - split; [reflexivity|].
    exists {| user_id := lit "u1"; user_email := Some (lit "ops@example.com") |}.
    split; reflexivity.
  - reflexivity.
  - reflexivity.
  - repeat split; try discriminate; reflexivity.
  - exists (lit "billing@example.com"). repeat split; try discriminate; reflexivity.
  - discriminate.
  - reflexivity.
  - reflexivity.
  - reflexivity.
  - discriminate.
Defined.

(** X3: when the provider resolves without a message id (none, or an empty
    one), the request is answered 500 "Failed to send email." and the one
    send-log write after the transport call has status [failed]. *)
Theorem answer_without_message_id_is_failed lib env o request body f w r :
  authorized env (session o (tick w)) →
  Route.request_json request = Some body →
  Route.readFields body = Some f →
  validInput lib f →
  validSender env →
  Route.searchParams_get (Route.searchParams request) "dryRun" ≠ Some (lit "1") →
  Route.getGmailClient env = None →
  gmail o (S (tick w)) (messageOf lib env f) = Resolves r →
  data_id r = None ∨ data_id r = Some [] →
  ∃ u w',
    user (session o (tick w)) = Some u ∧
    Route.POST lib env o request w =
      (Route.failure 500 "Failed to send email.", w') ∧
    trace w' =
      trace w ++ [GmailSend body (messageOf lib env f);
                  LogInsert (logOf f u log_failed
                               (Some (lit "Failed to send email.")) None)] ∧
    (storeError o (S (S (tick w))) = false →
     send_logs w' =
       send_logs w ++ [{| sent_at := clock o (S (S (tick w)));
                          inserted := logOf f u log_failed
                                        (Some (lit "Failed to send email."))
                                        None |}]).
Proof.
  intros Hauth Hbody Hread Hvalid Hsender Hdry Hclient Hgmail Hid.
  destruct (POST_authorized lib env o request body f w Hauth Hbody Hread)
    as (u & Hu & ->).
  rewrite (handle_transport lib env o request u body f _ Hvalid Hsender Hdry Hclient).
  unfold bind at 1, emit at 1. cbv beta iota zeta.
  unfold bind at 1, nextTick at 1. cbv beta iota zeta.
  cbn [ticked tick send_logs contacts trace]. rewrite Hgmail.
  assert (Hnone : data_id r ≫= Js.nonEmpty = None) by (by destruct Hid as [->| ->]).
  rewrite Hnone.
  match goal with
  | |- context [bind (Route.writeSendLog o ?log) (λ _, ret ?r) ?w1] =>
      destruct (logged_answer o log r w1) as (w' & -> & Htrace & Hlogs)
  end.
  exists u, w'. split_and!; [done | done | | exact Hlogs].
  rewrite Htrace. cbn [trace]. by rewrite <- app_assoc.
Qed.

Lemma answer_without_message_id_is_failed_witness :
  ∃ u w',
    user (session (Demo.oracle (Resolves {| data_id := None; data_threadId := None |}))
            (tick Demo.world0)) = Some u ∧
    Route.POST Demo.lib Demo.env
      (Demo.oracle (Resolves {| data_id := None; data_threadId := None |}))
      (Demo.request "alice@example.com") Demo.world0 =
      (Route.failure 500 "Failed to send email.", w') ∧
    trace w' =
      trace Demo.world0 ++
      [GmailSend (Demo.body "alice@example.com")
         (messageOf Demo.lib Demo.env (Demo.fields "alice@example.com"));
       LogInsert (logOf (Demo.fields "alice@example.com") u log_failed
                    (Some (lit "Failed to send email.")) None)] ∧
    (storeError (Demo.oracle (Resolves {| data_id := None; data_threadId := None |}))
       (S (S (tick Demo.world0))) = false →
     send_logs w' =
       send_logs Demo.world0 ++
       [{| sent_at :=
             clock (Demo.oracle (Resolves {| data_id := None; data_threadId := None |}))
               (S (S (tick Demo.world0)));
           inserted := logOf (Demo.fields "alice@example.com") u log_failed
                         (Some (lit "Failed to send email.")) None |}]).
Proof.
  apply (answer_without_message_id_is_failed Demo.lib Demo.env
           (Demo.oracle (Resolves {| data_id := None; data_threadId := None |}))
           (Demo.request "alice@example.com")
           (Demo.body "alice@example.com") (Demo.fields "alice@example.com")
           Demo.world0
           {| data_id := None; data_threadId := None |}).
  - split; [reflexivity|].
    exists {| user_id := lit "u1"; user_email := Some (lit "ops@example.com") |}.
    split; reflexivity.
  - reflexivity.
  - reflexivity.
  - repeat split; try discriminate; reflexivity.
  - exists (lit "billing@example.com"). repeat split; try discriminate; reflexivity.
  - discriminate.
  - reflexivity.
  - reflexivity.
  - by left.
Defined.

(** X4: a request from a session that fails one of the three authorization
    checks is answered 401 "Not authorized."; the body is not read, no
    transport call is made and nothing is written to the send log. *)
Theorem unauthorized_request_is_refused lib env o request w :
  ¬ authorized env (session o (tick w)) →
  Route.POST lib env o request w = (Route.notAuthorized, ticked w).
Proof.
  intros Hnot. unfold Route.POST, bind, nextTick. cbv beta iota zeta.
  destruct (Auth.isAuthenticated (session o (tick w))) eqn:Hauth; [|done].
  destruct (user (session o (tick w))) as [u|] eqn:Hu; [|done].
  cbn [negb]. cbv beta iota.
  destruct (Auth.hasAdminAccess env (user_email u) _) eqn:Hadmin; [|done].
  destruct Hnot. split; [done|]. by exists u.
Qed.

Lemma unauthorized_request_is_refused_witness :
  Route.POST Demo.lib Demo.env
    {| session := fun _ => {| claimsError := false; claims := true;
                              user := Some {| user_id := lit "u2";
                                              user_email := Some (lit "eve@example.com") |};
                              profile_role := Some (lit "user") |};
       storeError := fun _ => false; clock := fun t => N.of_nat t;
       gmail := fun _ _ => Demo.accepted; network := fun _ => Delivered |}
    (Demo.request "alice@example.com") Demo.world0 =
  (Route.notAuthorized, ticked Demo.world0).
Proof.
  apply unauthorized_request_is_refused.
  intros (_ & u & Hu & Hadmin). cbn in Hu. injection Hu as <-.
  vm_compute in Hadmin. discriminate Hadmin.
Defined.

(** X5: with [GMAIL_SENDER_EMAIL] unset or malformed, a valid request, dry
    run or not, is answered 500, the failure is written to the send log and
    no transport call is made. *)
Theorem invalid_sender_is_logged_without_transport lib env o request body f w :
  authorized env (session o (tick w)) →
  Route.request_json request = Some body →
  Route.readFields body = Some f →
  validInput lib f →
  ¬ validSender env →
  ∃ u w',
    user (session o (tick w)) = Some u ∧
    Route.POST lib env o request w =
      (Route.failure 500 "GMAIL_SENDER_EMAIL is missing or invalid.", w') ∧
    trace w' =
      trace w ++
      [LogInsert (logOf f u log_failed
                    (Some (lit "GMAIL_SENDER_EMAIL is missing or invalid.")) None)] ∧
    (storeError o (S (tick w)) = false →
     send_logs w' =
       send_logs w ++
       [{| sent_at := clock o (S (tick w));
           inserted := logOf f u log_failed
                         (Some (lit "GMAIL_SENDER_EMAIL is missing or invalid."))
                         None |}]).
Proof.
  intros Hauth Hbody Hread Hvalid Hsender.
  destruct (POST_authorized lib env o request body f w Hauth Hbody Hread)
    as (u & Hu & ->).
  destruct Hvalid as (Hzip & Hkey & Hmail & Hat & Hpdf & Hb64 & Hbuf).
  unfold Route.handle. cbv beta iota zeta.
  rewrite (truthy_ne _ Hzip), (truthy_ne _ Hkey), Hmail, Hat, Hpdf,
    (truthy_ne _ Hb64), (length_eqb_ne _ Hbuf). cbv beta iota.
  cbn [negb orb andb]. cbv beta iota.
  assert (Hnone : match Js.trim <$> GMAIL_SENDER_EMAIL env with
                  | Some e => if Js.truthy e && Regex.test Route.EMAIL_PATTERN e
                              then Some e else None
                  | None => None
                  end = None).
  { destruct (GMAIL_SENDER_EMAIL env) as [e|] eqn:He; [|done]. cbn.
    destruct (Js.truthy (Js.trim e)) eqn:Ht; [|done].
    destruct (Regex.test Route.EMAIL_PATTERN (Js.trim e)) eqn:Hp; [|done].
    destruct Hsender. exists e. split_and!; [done | by apply truthy_true | done]. }
  rewrite Hnone.
  match goal with
  | |- context [bind (Route.writeSendLog o ?log) (λ _, ret ?r) ?w1] =>
      destruct (logged_answer o log r w1) as (w' & Hrun & Htrace & Hlogs)
  end.
  exists u, w'. split_and!; [done | exact Hrun | exact Htrace | exact Hlogs].
Qed.

(** A dry run at a deployment without sender address. *)
Lemma invalid_sender_is_logged_without_transport_witness :
  ∃ u w',
    user (session (Demo.oracle Demo.accepted) (tick Demo.world0)) = Some u ∧
    Route.POST Demo.lib
      {| ALPHA_TECH_X_ADMIN_EMAILS := Some (lit "ops@example.com");
         GMAIL_CLIENT_ID := None; GMAIL_CLIENT_SECRET := None;
         GMAIL_REDIRECT_URI := None; GMAIL_REFRESH_TOKEN := None;
         GMAIL_SENDER_EMAIL := None |}
      (Demo.oracle Demo.accepted)
      {| Route.searchParams := [(lit "dryRun", lit "1")];
         Route.request_json := Some (Demo.body "alice@example.com") |}
      Demo.world0 =
      (Route.failure 500 "GMAIL_SENDER_EMAIL is missing or invalid.", w') ∧
    trace w' =
      trace Demo.world0 ++
      [LogInsert (logOf (Demo.fields "alice@example.com") u log_failed
                    (Some (lit "GMAIL_SENDER_EMAIL is missing or invalid.")) None)] ∧
    (storeError (Demo.oracle Demo.accepted) (S (tick Demo.world0)) = false →
     send_logs w' =
       send_logs Demo.world0 ++
       [{| sent_at := clock (Demo.oracle Demo.accepted) (S (tick Demo.world0));
           inserted := logOf (Demo.fields "alice@example.com") u log_failed
                         (Some (lit "GMAIL_SENDER_EMAIL is missing or invalid."))
                         None |}]).
Proof.
  apply (invalid_sender_is_logged_without_transport Demo.lib _
           (Demo.oracle Demo.accepted) _ (Demo.body "alice@example.com")
           (Demo.fields "alice@example.com")).
  - split; [reflexivity|].
    exists {| user_id := lit "u1"; user_email := Some (lit "ops@example.com") |}.
    split; reflexivity.
  - reflexivity.
  - reflexivity.
  - repeat split; try discriminate; reflexivity.
  - intros (e & He & _). discriminate He.
Defined.

(** ** Authorization *)

(** X6: the send route and the server actions admit the same sessions: the
    three checks of the route hold exactly when [isAdminSession] answers
    [true] (a session without user has neither an allowlisted address nor a
    role). *)
Theorem route_and_actions_admit_the_same_sessions env s :
  authorized env s ↔ Auth.isAdminSession env s = true.
Proof.
  unfold authorized, Auth.isAdminSession.
  destruct (Auth.isAuthenticated s); cbn [negb]; [|split; [by intros [? _]|done]].
  destruct (user s) as [u|]; cbn [fmap option_fmap option_map mbind option_bind].
  - split.
    + by intros (_ & u' & [= <-] & Hadmin).
    + intros Hadmin. split; [done|]. by exists u.
  - split; [by intros (_ & u' & ? & _)|].
    intros Hadmin. by vm_compute in Hadmin.
Qed.

Lemma trimStart_nil_spaces s : Js.trimStart s = [] → Forall (fun c => Js.isSpace c = true) s.
Proof.
  induction s as [|c s IH]; [done|]. simpl.
  destruct (Js.isSpace c) eqn:Hc; [|done]. intros H. constructor; auto.
Qed.

Lemma trim_nil_spaces s : Js.trim s = [] → Forall (fun c => Js.isSpace c = true) s.
Proof.
  unfold Js.trim, Js.trimEnd. intros H.
  apply (f_equal (@rev ascii)) in H. rewrite rev_involutive in H. simpl in H.
  apply trimStart_nil_spaces in H. apply Forall_rev in H.
  rewrite rev_involutive in H.
  destruct (trimStart_suffix s) as [sp Hsp].
  assert (Hclean := trimStart_clean s).
  destruct (Js.trimStart s) as [|c t] eqn:Ht.
  - by apply trimStart_nil_spaces.
  - inversion_clear H as [|? ? Hc _]. unfold cleanStart in Hclean. congruence.
Qed.

(** X7: when [ALPHA_TECH_X_ADMIN_EMAILS] is unset or blank, no address is on
    the allowlist and access is granted by the profile role alone. *)
Theorem blank_allowlist_leaves_access_to_the_role env email role :
  Js.trim (default [] (ALPHA_TECH_X_ADMIN_EMAILS env)) = [] →
  Auth.hasAdminAccess env email role = Auth.isAdminRole role.
Proof.
  intros Hblank. unfold Auth.hasAdminAccess.
  assert (Hlist : Auth.normalizedAllowlist env = []).
  { unfold Auth.normalizedAllowlist.
    rewrite split_no_separator.
    - simpl. rewrite Hblank. reflexivity.
    - intros Hin. apply trim_nil_spaces in Hblank.
      rewrite Forall_forall in Hblank. by specialize (Hblank _ Hin). }
  unfold Auth.isAdminEmail. rewrite Hlist.
  destruct email as [e|]; [|done].
  rewrite bool_decide_eq_false_2 by apply not_elem_of_nil.
  by rewrite andb_false_r.
Qed.

Lemma blank_allowlist_leaves_access_to_the_role_witness :
  Auth.hasAdminAccess
    {| ALPHA_TECH_X_ADMIN_EMAILS := Some (lit "  ");
       GMAIL_CLIENT_ID := None; GMAIL_CLIENT_SECRET := None;
       GMAIL_REDIRECT_URI := None; GMAIL_REFRESH_TOKEN := None;
       GMAIL_SENDER_EMAIL := None |}
    (Some (lit "ops@example.com")) (Some (lit "Admin")) =
  Auth.isAdminRole (Some (lit "Admin")).
Proof. apply blank_allowlist_leaves_access_to_the_role. reflexivity. Defined.

(** ** The server actions *)

Lemma dedup_fresh (seen l : list str) : NoDup (Js.dedup seen l).
Proof.
  revert seen. induction l as [|x l IH]; intros seen; simpl; [constructor|].
  case_bool_decide as Hx; [apply IH|].
  constructor; [|apply IH].
  rewrite elem_of_dedup. intros [_ Hin]. apply Hin, list_elem_of_here.
Qed.

Lemma dedup_NoDup seen (l : list str) :
  NoDup l → (∀ k, k ∈ l → k ∉ seen) → Js.dedup seen l = l.
Proof.
  revert seen. induction l as [|x l IH]; intros seen Hnd Hseen; [done|].
  simpl. inversion_clear Hnd as [|? ? Hx Hl].
  rewrite bool_decide_eq_false_2 by apply Hseen, list_elem_of_here.
  f_equal. apply IH; [done|].
  intros k Hk [->|Hin]%elem_of_cons; [done|].
  by apply (Hseen k); [apply list_elem_of_further|].
Qed.

Lemma filter_all {A} (P : A → Prop) `{∀ x, Decision (P x)} (l : list A) :
  Forall P l → filter P l = l.
Proof.
  induction 1 as [|x l Hx _ IH]; [done|].
  by rewrite filter_cons_True, IH.
Qed.

(** X8: the keys a server action queries have no duplicates, are not empty,
    are the trimmed forms of the given keys, in the order of their first
    occurrence; normalizing them again changes nothing, and the console's
    [uniqueAccountKeys] computes the same list. *)
Theorem normalized_keys_are_clean keys :
  NoDup (Actions.normalizeAccountKeys keys) ∧
  (∀ k, k ∈ Actions.normalizeAccountKeys keys ↔
        k ≠ [] ∧ ∃ key, key ∈ keys ∧ k = Js.trim key) ∧
  Actions.normalizeAccountKeys (Actions.normalizeAccountKeys keys) =
    Actions.normalizeAccountKeys keys ∧
  uniqueAccountKeys keys = Actions.normalizeAccountKeys keys.
Proof.
  split_and!.
  - unfold Actions.normalizeAccountKeys. apply dedup_fresh.
  - intros k. exact (elem_of_normalizeAccountKeys k keys).
  - assert (Hclean : Forall (fun k => Js.trim k = k ∧ k ≠ [])
                       (Actions.normalizeAccountKeys keys)).
    { apply Forall_forall. intros k. apply normalizeAccountKeys_trimmed. }
    set (ks := Actions.normalizeAccountKeys keys) in *.
    unfold Actions.normalizeAccountKeys at 1.
    assert (Hmap : map Actions.normalizeAccountKey ks = ks).
    { clear -Hclean. induction Hclean as [|k l [Hk _] _ IH]; [done|].
      simpl. unfold Actions.normalizeAccountKey at 1. by rewrite Hk, IH. }
    rewrite Hmap, filter_all.
    + apply dedup_NoDup; [unfold ks, Actions.normalizeAccountKeys; apply dedup_fresh | intros k _; apply not_elem_of_nil].
    + eapply Forall_impl; [exact Hclean|]. intros k [_ Hk]. by apply truthy_ne.
  - reflexivity.
Qed.

(** X9: for a session that is not an administrator's, the two server actions
    the console calls answer with an empty mapping and do not query the
    store. *)
Theorem server_actions_refuse_other_sessions env o w :
  Auth.isAdminSession env (session o (tick w)) = false →
  (∀ zip_filename accountKeys,
     Actions.getLastSendStatusForZip env o zip_filename accountKeys w =
     (∅, {| tick := S (tick w); send_logs := send_logs w; contacts := contacts w;
            trace := trace w ++ [GetLastSendStatus zip_filename accountKeys] |})) ∧
  (∀ accountKeys,
     Actions.getContactsByKeys env o accountKeys w = (∅, ticked w)).
Proof.
  intros Hadmin. split.
  - intros z keys. unfold Actions.getLastSendStatusForZip. run_eff.
    cbn [tick]. by rewrite Hadmin.
  - intros keys. unfold Actions.getContactsByKeys. run_eff. by rewrite Hadmin.
Qed.

Lemma server_actions_refuse_other_sessions_witness :
  Actions.getContactsByKeys Demo.env
    {| session := fun _ => {| claimsError := false; claims := true;
                              user := Some {| user_id := lit "u2";
                                              user_email := Some (lit "eve@example.com") |};
                              profile_role := Some (lit "user") |};
       storeError := fun _ => false; clock := fun t => N.of_nat t;
       gmail := fun _ _ => Demo.accepted; network := fun _ => Delivered |}
    [lit "PR20"] Demo.world0 = (∅, ticked Demo.world0).
Proof.
  eapply server_actions_refuse_other_sessions. reflexivity.
Defined.

Lemma foldl_insert_lookup (l : list Contact) (m : gmap str Contact) k :
  NoDup (map c_account_key l) →
  (∀ c, c ∈ l → m !! c_account_key c = None) →
  ∀ c, foldl (fun acc contact => Js.assign acc (c_account_key contact) contact)
         m l !! k = Some c ↔
       (c ∈ l ∧ c_account_key c = k ∧ k ≠ lit "__proto__") ∨ m !! k = Some c.
Proof.
  revert m. induction l as [|x l IH]; intros m Hnd Hm c; simpl.
  - split; [by right|]. intros [[H%elem_of_nil _]|H]; done.
  - inversion_clear Hnd as [|? ? Hx Hl]. unfold Js.assign at 2.
    case_bool_decide as Hproto.
    { rewrite IH; [|done|].
      - split.
        + intros [(Hin & Hk & Hne)|Hmk]; [left|by right].
          split; [by apply list_elem_of_further|done].
        + intros [([->|Hin]%elem_of_cons & Hk & Hne)|Hmk];
            [exfalso; apply Hne; by rewrite <- Hk | by left | by right].
      - intros c' Hc'. apply Hm. by apply list_elem_of_further. }
    rewrite IH; [|done|].
    + destruct (decide (c_account_key x = k)) as [<-|Hne].
      * rewrite lookup_insert_eq. split.
        -- intros [(Hin & Hk & _)|[= <-]].
           ++ left. split; [by apply list_elem_of_further|done].
           ++ left. split; [apply list_elem_of_here|done].
        -- intros [([->|Hin]%elem_of_cons & Hk & _)|Hmk].
           ++ by right.
           ++ by left.
           ++ by rewrite (Hm x (list_elem_of_here _ _)) in Hmk.
      * rewrite lookup_insert_ne by done. split.
        -- intros [(Hin & Hk & Hp)|Hmk]; [left|by right].
           split; [by apply list_elem_of_further|done].
        -- intros [([->|Hin]%elem_of_cons & Hk & Hp)|Hmk]; [done|by left|by right].
    + intros c' Hc'. rewrite lookup_insert_ne.
      * apply Hm. by apply list_elem_of_further.
      * intros Heq. apply Hx. rewrite Heq. by apply list_elem_of_fmap_2.
Qed.

Lemma NoDup_map_filter {A B} (f : A → B) (P : A → Prop) `{∀ x, Decision (P x)}
    (l : list A) :
  NoDup (map f l) → NoDup (map f (filter P l)).
Proof.
  induction l as [|x l IH]; [done|]. simpl. intros Hnd.
  inversion_clear Hnd as [|? ? Hx Hl].
  destruct (decide (P x)).
  - rewrite filter_cons_True by done. simpl. constructor; [|by apply IH].
    intros (y & Hy & Hin%list_elem_of_filter)%list_elem_of_fmap.
    apply Hx. rewrite Hy. apply list_elem_of_fmap_2, Hin.
  - rewrite filter_cons_False by done. by apply IH.
Qed.

(** What [getContactsByKeys] files for an administrator's session and a
    store that answers. *)
Lemma getContactsByKeys_lookup env o accountKeys w :
  Auth.isAdminSession env (session o (tick w)) = true →
  storeError o (S (tick w)) = false →
  NoDup (map c_account_key (contacts w)) →
  ∀ k c,
    c ∈ contacts w → c_account_key c = k →
    k ∈ Actions.normalizeAccountKeys accountKeys → k ≠ lit "__proto__" →
    (Actions.getContactsByKeys env o accountKeys w).1 !! k = Some c.
Proof.
  intros Hadmin Hstore Hkey k c Hc Hk Hin Hproto.
  unfold Actions.getContactsByKeys. run_eff. rewrite Hadmin. cbn [negb].
  destruct (length (Actions.normalizeAccountKeys accountKeys) =? 0) eqn:Hlen.
  - apply Nat.eqb_eq, nil_length_inv in Hlen. rewrite Hlen in Hin.
    by apply elem_of_nil in Hin.
  - cbn [tick]. rewrite Hstore. cbn [fst contacts].
    unfold Actions.selectContacts.
    apply foldl_insert_lookup.
    + by apply NoDup_map_filter.
    + intros c' _. apply lookup_empty.
    + left. split_and!; try done. apply list_elem_of_filter. by rewrite Hk.
Qed.

(** X10: for an administrator's session and a store that answers, in a
    contact table whose account keys are unique (they are its primary key),
    [getContactsByKeys] files under a key exactly the contact stored with
    that key, for the requested keys as normalized, and nothing else; the
    key [__proto__] is the exception: a contact stored under it is not
    filed, the assignment [acc[key] = contact] storing no property. *)
Theorem contacts_are_filed_under_their_key env o accountKeys w :
  Auth.isAdminSession env (session o (tick w)) = true →
  storeError o (S (tick w)) = false →
  NoDup (map c_account_key (contacts w)) →
  ∀ k c,
    (Actions.getContactsByKeys env o accountKeys w).1 !! k = Some c ↔
    c ∈ contacts w ∧ c_account_key c = k ∧
    k ∈ Actions.normalizeAccountKeys accountKeys ∧ k ≠ lit "__proto__".
Proof.
  intros Hadmin Hstore Hkey k c.
  unfold Actions.getContactsByKeys. run_eff. rewrite Hadmin. cbn [negb].
  destruct (length (Actions.normalizeAccountKeys accountKeys) =? 0) eqn:Hlen.
  - apply Nat.eqb_eq, nil_length_inv in Hlen. rewrite Hlen. cbn.
    rewrite lookup_empty. split; [done|]. by intros (_ & _ & H%elem_of_nil & _).
  - cbn [tick]. rewrite Hstore. cbn [fst contacts].
    unfold Actions.selectContacts.
    rewrite foldl_insert_lookup.
    + rewrite lookup_empty, list_elem_of_filter. split.
      * intros [([Hin Hc] & Hk & Hp)|?]; [|done]. subst k. done.
      * intros (Hc & <- & Hin & Hp). by left.
    + by apply NoDup_map_filter.
    + intros c' _. apply lookup_empty.
Qed.

Lemma contacts_are_filed_under_their_key_witness :
  (Actions.getContactsByKeys Demo.env (Demo.oracle Demo.accepted)
     [lit " PR20 "; lit "ZZ9"] Demo.world0).1 !! lit "PR20" = Some Demo.alice.
Proof.
  apply (contacts_are_filed_under_their_key Demo.env (Demo.oracle Demo.accepted)
           [lit " PR20 "; lit "ZZ9"] Demo.world0).
  - reflexivity.
  - reflexivity.
  - apply (bool_decide_unpack _). by vm_compute.
  - split_and!; [apply list_elem_of_here | reflexivity
                 | apply (bool_decide_unpack _); by vm_compute | discriminate].
Defined.

(** ** Archive parsing: what the rows have in common *)

Lemma split_singleton s c p : Js.split s c = [p] → p = s.
Proof.
  revert p. induction s as [|a s IH]; intros p; simpl; [by intros [= <-]|].
  case_bool_decide as Ha.
  - intros [= _ H]. by destruct (split_nonempty s c).
  - destruct (Js.split s c) as [|q qs] eqn:Hs; [by destruct (split_nonempty s c)|].
    intros [= <- ->]. by rewrite (IH q).
Qed.

(** The base name is what follows the last slash. *)
Lemma getBaseName_suffix pathname : ∃ d, pathname = d ++ getBaseName pathname.
Proof.
  unfold getBaseName.
  assert (H : ∀ s : str, ∃ d, s = d ++ default s (last (Js.split s "/"))).
  { intros s. induction s as [|a s [d IH]]; [by exists []|]. simpl.
    case_bool_decide as Ha.
    - destruct (Js.split s "/") as [|p ps] eqn:Hs;
        [by destruct (split_nonempty s "/")|].
      rewrite last_cons.
      destruct (last (p :: ps)) as [q|] eqn:Hq.
      + simpl in *. exists (a :: d). simpl. congruence.
      + by rewrite last_cons in Hq; destruct (last ps).
    - destruct (Js.split s "/") as [|p ps] eqn:Hs;
        [by destruct (split_nonempty s "/")|].
      destruct ps as [|p' ps].
      + simpl in *. exists []. simpl. by rewrite (split_singleton s "/" p).
      + change (last ((a :: p) :: p' :: ps)) with (last (p' :: ps)).
        change (last (p :: p' :: ps)) with (last (p' :: ps)) in IH.
        destruct (last (p' :: ps)) as [q|] eqn:Hq.
        * simpl in *. exists (a :: d). simpl. congruence.
        * by rewrite last_cons in Hq; destruct (last ps). }
  apply H.
Qed.

Lemma startsWith_app_l (s t p : str) :
  Js.startsWith s p = true → Js.startsWith (s ++ t) p = true.
Proof.
  revert s. induction p as [|a p IH]; intros s; [by rewrite !startsWith_nil|].
  destruct s as [|b s]; [done|]. simpl.
  intros [-> H]%andb_prop. by rewrite IH.
Qed.

Lemma isPdf_of_base pathname :
  isPdf (getBaseName pathname) = true → isPdf pathname = true.
Proof.
  destruct (getBaseName_suffix pathname) as [d Hd]. unfold isPdf, Js.endsWith.
  intros H. rewrite Hd at 1. rewrite toLowerCase_app, rev_app_distr.
  by apply startsWith_app_l.
Qed.

Lemma isIgnoredAdminPdf_base pathname :
  isIgnoredAdminPdf (getBaseName pathname) = isIgnoredAdminPdf pathname.
Proof. unfold isIgnoredAdminPdf. by rewrite getBaseName_idemp. Qed.

Lemma elem_of_parseFallbackRows (r : ParsedBillRow) files :
  r ∈ parseFallbackRows files →
  ∃ file, file ∈ files ∧ dir file = false ∧
          zip_entry_path r = name file ∧
          pdf_filename r = getBaseName (name file) ∧
          isPdf (getBaseName (name file)) = true ∧
          isIgnoredAdminPdf (getBaseName (name file)) = false ∧
          account_key r ≠ [] ∧ Js.trim (account_key r) = account_key r.
Proof.
  induction files as [|file rest IH]; cbn [parseFallbackRows];
    [by intros H%elem_of_nil|].
  assert (Hrest : r ∈ parseFallbackRows rest →
            ∃ f, f ∈ file :: rest ∧ dir f = false ∧
                 zip_entry_path r = name f ∧
                 pdf_filename r = getBaseName (name f) ∧
                 isPdf (getBaseName (name f)) = true ∧
                 isIgnoredAdminPdf (getBaseName (name f)) = false ∧
                 account_key r ≠ [] ∧ Js.trim (account_key r) = account_key r).
  { intros (f & Hf & H)%IH. exists f. split; [by apply list_elem_of_further|done]. }
  destruct (dir file) eqn:Hdir; [done|].
  cbv zeta.
  destruct (Js.startsWith (getBaseName (name file)) "Bill_"); [|done].
  destruct (isPdf (getBaseName (name file))) eqn:Hpdf; [|done].
  destruct (isIgnoredAdminPdf (getBaseName (name file))) eqn:Hadm; [done|].
  cbn [negb orb].
  destruct (_ <=? 0)%Z; [done|].
  destruct (Js.truthy (normalizeAccountKey _)) eqn:Hkey; [|done].
  cbn [negb].
  intros [->|Hin]%elem_of_cons; [|by apply Hrest].
  exists file. cbn. split_and!; try done.
  - apply list_elem_of_here.
  - by apply truthy_true.
  - apply trim_idemp.
Qed.

Lemma elem_of_manifestRow tradeDate item rows (r : ParsedBillRow) :
  manifestRow tradeDate item = Some rows →
  r ∈ rows →
  account_key r ≠ [] ∧ Js.trim (account_key r) = account_key r ∧
  pdf_filename r = getBaseName (zip_entry_path r) ∧
  isPdf (zip_entry_path r) = true ∧
  isIgnoredAdminPdf (zip_entry_path r) = false ∧
  trade_date r = tradeDate.
Proof.
  unfold manifestRow.
  destruct (Json.isObject item); cbn [negb]; [|by intros [= <-] H%elem_of_nil].
  destruct (Json.stringOrEmpty (Json.prop item "key")) as [key|]; [|done].
  destruct (Json.stringOrEmpty (Json.prop item "pdf")) as [pdf|]; [|done].
  cbn [mbind option_bind]. cbv zeta.
  destruct (Js.truthy (normalizeAccountKey _)) eqn:Hkey;
    [|by intros [= <-] H%elem_of_nil].
  destruct (Js.truthy (Js.trim _)) eqn:Hpath; [|by intros [= <-] H%elem_of_nil].
  cbn [negb orb].
  destruct (isPdf _) eqn:Hpdf; [|by intros [= <-] H%elem_of_nil].
  destruct (isIgnoredAdminPdf _) eqn:Hadm; [by intros [= <-] H%elem_of_nil|].
  cbn [negb orb]. intros [= <-] ->%list_elem_of_singleton. cbn.
  split_and!; try done; [by apply truthy_true | apply trim_idemp].
Qed.

Lemma elem_of_manifestRows tradeDate items rows (r : ParsedBillRow) :
  mapM (manifestRow tradeDate) items = Some rows →
  r ∈ concat rows →
  ∃ item found, item ∈ items ∧ manifestRow tradeDate item = Some found ∧ r ∈ found.
Proof.
  intros Hrows%mapM_Some. induction Hrows as [|item found items rows Hitem _ IH].
  - by intros H%elem_of_nil.
  - cbn [concat]. intros [Hr|Hr]%elem_of_app.
    + exists item, found. split; [apply list_elem_of_here | done].
    + destruct (IH Hr) as (item' & found' & Hin & H).
      exists item', found'. split; [by apply list_elem_of_further | done].
Qed.

(** X11: every row parsed from an archive, by the manifest or by the filename
    fallback, has a non-empty trimmed account key, names as its entry a PDF
    that is not one of the administrative files, and shows the base name of
    that entry as its filename. *)
Theorem parsed_rows_are_bills lib zip (r : ParsedBillRow) :
  r ∈ parsedRows (parseArchive lib zip) →
  account_key r ≠ [] ∧ Js.trim (account_key r) = account_key r ∧
  pdf_filename r = getBaseName (zip_entry_path r) ∧
  isPdf (zip_entry_path r) = true ∧
  isIgnoredAdminPdf (zip_entry_path r) = false.
Proof.
  assert (Hfallback : r ∈ parseFallbackRows zip →
            account_key r ≠ [] ∧ Js.trim (account_key r) = account_key r ∧
            pdf_filename r = getBaseName (zip_entry_path r) ∧
            isPdf (zip_entry_path r) = true ∧
            isIgnoredAdminPdf (zip_entry_path r) = false).
  { intros (file & _ & _ & Hpath & Hname & Hpdf & Hadm & Hkey & Htrim)%elem_of_parseFallbackRows.
    rewrite Hpath, Hname. split_and!; try done.
    - by apply isPdf_of_base.
    - by rewrite <- isIgnoredAdminPdf_base. }
  assert (Hmanifest : r ∈ parsedRows (readManifest lib zip) →
            account_key r ≠ [] ∧ Js.trim (account_key r) = account_key r ∧
            pdf_filename r = getBaseName (zip_entry_path r) ∧
            isPdf (zip_entry_path r) = true ∧
            isIgnoredAdminPdf (zip_entry_path r) = false).
  { unfold readManifest.
    destruct (zipFile zip "manifest.json") as [f|]; [|by intros H%elem_of_nil].
    destruct (JSON_parse lib (content f)) as [data|]; [|by intros H%elem_of_nil].
    destruct (Json.prop data "trade_date") eqn:Htd; cbn [parsedRows];
      try by intros H%elem_of_nil.
    all: match goal with
         | |- context [mapM ?f ?l] => destruct (mapM f l) as [rows|] eqn:Hrows
         end; cbn [parsedRows]; [|by intros H%elem_of_nil].
    all: intros Hr; destruct (elem_of_manifestRows _ _ _ _ Hrows Hr)
           as (item & found & _ & Hitem & Hin).
    all: by destruct (elem_of_manifestRow _ _ _ _ Hitem Hin)
           as (? & ? & ? & ? & ? & _). }
  unfold parseArchive. cbv zeta.
  case_bool_decide as Hsrc.
  - cbn [parsedRows]. by destruct (length (parseFallbackRows zip) =? 0).
  - by destruct (length (parsedRows (readManifest lib zip)) =? 0).
Qed.

Lemma parsed_rows_are_bills_witness :
  isPdf (lit "out/Bill_PR20_2024-01-05.PDF") = true ∧
  isIgnoredAdminPdf (lit "out/Bill_PR20_2024-01-05.PDF") = false.
Proof.
  destruct (parsed_rows_are_bills Demo.lib
              [ {| name := lit "out/Bill_PR20_2024-01-05.PDF"; dir := false;
                   content := lit "%PDF" |} ]
              {| account_key := lit "PR20";
                 pdf_filename := lit "Bill_PR20_2024-01-05.PDF";
                 zip_entry_path := lit "out/Bill_PR20_2024-01-05.PDF";
                 trade_date := Some (lit "2024-01-05") |})
    as (_ & _ & _ & Hpdf & Hadm).
  - apply (bool_decide_unpack _). by vm_compute.
  - split; [exact Hpdf | exact Hadm].
Defined.

(** ** Archive parsing: unusable manifests and unreadable archives *)

Lemma lookupField_total fields k : Json.lookupField fields k ≠ Json.Throws.
Proof.
  induction fields as [|[k' v] fields IH]; [done|]. cbn [Json.lookupField].
  destruct (Json.lookupField fields k); [done | by case_bool_decide | done].
Qed.

Lemma mapM_None_elem {A B} (f : A → option B) (l : list A) (x : A) :
  x ∈ l → f x = None → mapM f l = None.
Proof.
  intros Hin Hx. apply eq_None_not_Some. intros Hsome%mapM_is_Some_1.
  rewrite Forall_forall in Hsome. specialize (Hsome x Hin). cbn in Hsome.
  rewrite Hx in Hsome. by destruct Hsome.
Qed.

(** X12: a [manifest.json] that is no JSON is reported and the rows are those
    of the filename fallback.  One that parses to [null], or whose [success]
    list holds an object with a [key] or a [pdf] that [String] cannot
    convert, is reported in the same words, but the archive counts as read
    by its manifest: the fallback is not used and no row is found, whatever
    the other items of the list are. *)
Theorem unusable_manifest_is_reported lib zip manifestFile :
  zipFile zip "manifest.json" = Some manifestFile →
  (JSON_parse lib (content manifestFile) = None →
   parsed_source (parseArchive lib zip) = fallback ∧
   parsedRows (parseArchive lib zip) = parseFallbackRows zip ∧
   parseMessages (parseArchive lib zip) =
     lit "manifest.json invalid JSON" ::
     (if length (parseFallbackRows zip) =? 0 then [lit "No bill PDFs found"]
      else [])) ∧
  (JSON_parse lib (content manifestFile) = Some Json.Null →
   parsed_source (parseArchive lib zip) = manifest ∧
   parsedRows (parseArchive lib zip) = [] ∧
   parseMessages (parseArchive lib zip) =
     [lit "manifest.json invalid JSON"; lit "No bill PDFs found"]) ∧
  (∀ data items item,
     JSON_parse lib (content manifestFile) = Some data →
     Json.isArray (Json.prop data "success") = Some items →
     item ∈ items →
     Json.isObject item = true →
     Json.stringOrEmpty (Json.prop item "key") = None ∨
     Json.stringOrEmpty (Json.prop item "pdf") = None →
     parsed_source (parseArchive lib zip) = manifest ∧
     parsedRows (parseArchive lib zip) = [] ∧
     parseMessages (parseArchive lib zip) =
       [lit "manifest.json invalid JSON"; lit "No bill PDFs found"]).
Proof.
  intros Hfile. split_and!.
  - intros Hparse.
    unfold parseArchive, readManifest. rewrite Hfile, Hparse. cbv zeta.
    cbn [parsed_source parsedRows parseMessages].
    rewrite bool_decide_eq_true_2 by done.
    cbn [parsed_source parsedRows parseMessages].
    by destruct (length (parseFallbackRows zip) =? 0).
  - intros Hparse.
    unfold parseArchive, readManifest. rewrite Hfile, Hparse. cbv zeta.
    cbn [Json.prop parsed_source parsedRows parseMessages].
    rewrite bool_decide_eq_false_2 by (by intros H).
    done.
  - intros data items item Hparse Hitems Hin Hobj Hraise.
    assert (Hrow : ∀ tradeDate, manifestRow tradeDate item = None).
    { intros tradeDate. unfold manifestRow. rewrite Hobj. cbn [negb].
      destruct Hraise as [-> | ->]; [done|].
      by destruct (Json.stringOrEmpty (Json.prop item "key")). }
    unfold parseArchive, readManifest. rewrite Hfile, Hparse. cbv zeta.
    rewrite Hitems. cbn [default].
    assert (Hread : ∀ tradeDate,
              match mapM (manifestRow tradeDate) items with
              | Some rows => {| parsed_source := manifest; parsedRows := concat rows;
                                parseMessages := [] |}
              | None => {| parsed_source := manifest; parsedRows := [];
                           parseMessages := [lit "manifest.json invalid JSON"] |}
              end = {| parsed_source := manifest; parsedRows := [];
                       parseMessages := [lit "manifest.json invalid JSON"] |}).
    { intros tradeDate. by rewrite (mapM_None_elem _ _ item Hin (Hrow tradeDate)). }
    destruct data as [| | | | |fields]; try done.
    cbn [Json.prop] in *.
    pose proof (lookupField_total fields "trade_date") as Htotal.
    destruct (Json.lookupField fields "trade_date"); [done| |]; rewrite Hread;
      cbn [parsed_source parsedRows parseMessages];
      by rewrite bool_decide_eq_false_2 by (by intros H).
Qed.

Lemma unusable_manifest_is_reported_witness :
  parsed_source
    (parseArchive Demo.lib
       [ {| name := lit "manifest.json"; dir := false; content := lit "null" |};
         Demo.pdf "Bill_PR20_2024-01-05.pdf" ]) = manifest ∧
  parsedRows
    (parseArchive Demo.lib
       [ {| name := lit "manifest.json"; dir := false; content := lit "null" |};
         Demo.pdf "Bill_PR20_2024-01-05.pdf" ]) = [] ∧
  parseMessages
    (parseArchive Demo.lib
       [ {| name := lit "manifest.json"; dir := false; content := lit "null" |};
         Demo.pdf "Bill_PR20_2024-01-05.pdf" ]) =
  [lit "manifest.json invalid JSON"; lit "No bill PDFs found"].
Proof.
  destruct (unusable_manifest_is_reported Demo.lib
              [ {| name := lit "manifest.json"; dir := false; content := lit "null" |};
                Demo.pdf "Bill_PR20_2024-01-05.pdf" ]
              {| name := lit "manifest.json"; dir := false; content := lit "null" |})
    as (_ & Hnull & _); [reflexivity|].
  apply Hnull. reflexivity.
Defined.

(** X13: when the archive cannot be read, the table, the row states, the
    selection, the log statuses and the summary are cleared, the only message
    is the one of the error, the parsing flag is lowered again, and the
    archive kept for viewing and sending is still the previous one; nothing
    is asked of the stores. *)
Theorem unreadable_archive_clears_the_table lib env o file error sys :
  loadAsync file = inr error →
  ui (parseUploadedZip lib env o file sys).2 =
    {| zipRef := zipRef (ui sys); rows := []; rowSendStates := ∅;
       selectedRowIds := ∅; skipAlreadySent := skipAlreadySent (ui sys);
       lastLogStatusByKey := ∅; summary := None;
       messages := [ match error with
                     | ErrorWith m => m
                     | NotAnError => lit "Failed to parse ZIP file."
                     end ];
       isParsingZip := false; isSendingAll := isSendingAll (ui sys);
       actionError := [] |} ∧
  trace (world (parseUploadedZip lib env o file sys).2) =
    trace (world sys) ++ [RowStates ∅; RowStates ∅] ∧
  send_logs (world (parseUploadedZip lib env o file sys).2) =
    send_logs (world sys) ∧
  tick (world (parseUploadedZip lib env o file sys).2) = tick (world sys).
Proof.
  intros Hload. unfold parseUploadedZip. rewrite Hload. cbn.
  by rewrite <- app_assoc.
Qed.

Lemma unreadable_archive_clears_the_table_witness :
  rows (ui (parseUploadedZip Demo.lib Demo.env (Demo.oracle Demo.accepted)
              {| file_name := lit "broken.zip";
                 loadAsync := inr (ErrorWith (lit "Corrupted zip")) |}
              Demo.uploaded).2) = [] ∧
  messages (ui (parseUploadedZip Demo.lib Demo.env (Demo.oracle Demo.accepted)
                  {| file_name := lit "broken.zip";
                     loadAsync := inr (ErrorWith (lit "Corrupted zip")) |}
                  Demo.uploaded).2) = [lit "Corrupted zip"] ∧
  zipRef (ui (parseUploadedZip Demo.lib Demo.env (Demo.oracle Demo.accepted)
                {| file_name := lit "broken.zip";
                   loadAsync := inr (ErrorWith (lit "Corrupted zip")) |}
                Demo.uploaded).2) = zipRef (ui Demo.uploaded).
Proof.
  destruct (unreadable_archive_clears_the_table Demo.lib Demo.env
              (Demo.oracle Demo.accepted)
              {| file_name := lit "broken.zip";
                 loadAsync := inr (ErrorWith (lit "Corrupted zip")) |}
              (ErrorWith (lit "Corrupted zip")) Demo.uploaded eq_refl)
    as (Hui & _).
  rewrite Hui. split_and!; vm_compute; reflexivity.
Defined.

(** ** Finding the PDF of a row *)

Lemma zipFile_Some zip path e :
  zipFile zip path = Some e → e ∈ zip ∧ dir e = false ∧ name e = path.
Proof.
  unfold zipFile.
  destruct (find _ zip) as [e'|] eqn:Hfind; [|done].
  destruct (dir e') eqn:Hdir; [done|]. intros [= <-].
  apply find_some in Hfind as [Hin Hname].
  split_and!; [by apply list_elem_of_In | done | by apply bool_decide_eq_true in Hname].
Qed.

(** X14: the entry [findPdfEntry] returns is a file of the archive, never a
    directory, stored under the row's entry path or with the base name of
    the row's filename; it returns nothing only when no file of the archive
    has that base name. *)
Theorem found_pdf_entry_is_a_matching_file zip (row : BillRow) :
  (∀ e, findPdfEntry zip row = Some e →
        e ∈ zip ∧ dir e = false ∧
        (name e = zip_entry_path row ∨
         getBaseName (name e) = getBaseName (pdf_filename row))) ∧
  (findPdfEntry zip row = None →
   ∀ e, e ∈ zip → dir e = false →
        getBaseName (name e) ≠ getBaseName (pdf_filename row)).
Proof.
  unfold findPdfEntry. split.
  - intros e.
    destruct (zipFile zip (zip_entry_path row)) as [e1|] eqn:H1.
    { intros [= <-]. apply zipFile_Some in H1 as (? & ? & ?). auto. }
    destruct (zipFile zip (pdf_filename row)) as [e2|] eqn:H2.
    { intros [= <-]. apply zipFile_Some in H2 as (? & ? & ->). auto. }
    intros [Hin Hp]%find_some. apply andb_prop in Hp as [Hd Hb].
    split_and!; [by apply list_elem_of_In | by destruct (dir e) |].
    right. by apply bool_decide_eq_true in Hb.
  - destruct (zipFile zip (zip_entry_path row)); [done|].
    destruct (zipFile zip (pdf_filename row)); [done|].
    intros Hnone e Hin Hdir Hbase.
    assert (Hfalse := find_none _ _ Hnone e (proj1 (list_elem_of_In _ _) Hin)).
    cbv beta in Hfalse. rewrite Hdir in Hfalse. cbn [negb andb] in Hfalse.
    by apply bool_decide_eq_false in Hfalse.
Qed.

Lemma found_pdf_entry_is_a_matching_file_witness :
  dir {| name := lit "bills/Bill_PR20_2024-01-05.pdf"; dir := false;
         content := lit "%PDF" |} = false ∧
  (name {| name := lit "bills/Bill_PR20_2024-01-05.pdf"; dir := false;
           content := lit "%PDF" |} = zip_entry_path Demo.rowPR20 ∨
   getBaseName (name {| name := lit "bills/Bill_PR20_2024-01-05.pdf"; dir := false;
                        content := lit "%PDF" |}) =
   getBaseName (pdf_filename Demo.rowPR20)).
Proof.
  destruct (found_pdf_entry_is_a_matching_file
              [ {| name := lit "bills/"; dir := true; content := [] |};
                {| name := lit "bills/Bill_PR20_2024-01-05.pdf"; dir := false;
                   content := lit "%PDF" |} ] Demo.rowPR20) as [Hfound _].
  destruct (Hfound {| name := lit "bills/Bill_PR20_2024-01-05.pdf"; dir := false;
                      content := lit "%PDF" |}) as (_ & Hdir & Hname).
  - reflexivity.
  - split; [exact Hdir | exact Hname].
Defined.

(** ** Refreshing the log statuses *)

Lemma mergeLatest_lookup latest keys next (k : str) :
  k ≠ lit "__proto__" →
  mergeLatest latest keys next !! k =
  if bool_decide (k ∈ keys) then statusMember latest k else next !! k.
Proof.
  intros Hproto. unfold mergeLatest. revert next.
  induction keys as [|x keys IH]; intros next; [done|]. cbn [foldl].
  rewrite IH. destruct (decide (k ∈ keys)) as [Hin|Hout].
  - rewrite !bool_decide_eq_true_2; [done | by apply list_elem_of_further | done].
  - rewrite (bool_decide_eq_false_2 (k ∈ keys)) by done.
    destruct (decide (k = x)) as [->|Hne].
    + rewrite bool_decide_eq_true_2 by apply list_elem_of_here.
      unfold statusMember, Js.assign.
      rewrite (bool_decide_eq_false_2 (x = _)) by done.
      destruct (Js.member latest x) eqn:Hx.
      * by rewrite lookup_insert_eq.
      * by rewrite lookup_insert_eq.
      * by rewrite lookup_delete_eq.
    + rewrite bool_decide_eq_false_2
        by (intros [?|?]%elem_of_cons; done).
      assert (Hxk : x ≠ k) by congruence.
      unfold Js.assign.
      destruct (Js.member latest x); [| |by rewrite lookup_delete_ne].
      all: destruct (bool_decide (x = _)); [done | by rewrite lookup_insert_ne].
Qed.

(** X15: a refresh for given keys, with an archive filename at hand, gives
    each of these keys (as normalized) what the console reads under it in
    the answer of the audit-log query (for a key such as [constructor], the
    member every object inherits, which has no status), removing the key
    when there is nothing to read, and leaves the status of every other key
    as it was. *)
Theorem refresh_replaces_only_the_given_keys env o snap keys sys k :
  keys ≠ [] →
  zipFilenameOf snap ≠ [] →
  k ≠ lit "__proto__" →
  lastLogStatusByKey (ui (refreshLastLogStatusForKeys env o snap keys sys).2) !! k =
  if bool_decide (k ∈ uniqueAccountKeys keys)
  then statusMember
         (Actions.getLastSendStatusForZip env o (zipFilenameOf snap)
            (uniqueAccountKeys keys) (world sys)).1 k
  else lastLogStatusByKey (ui sys) !! k.
Proof.
  intros Hkeys Hzf Hproto. unfold refreshLastLogStatusForKeys.
  assert (Hlen : (0 <? length keys) = true) by (by destruct keys).
  rewrite Hlen, (truthy_ne _ Hzf). cbn [negb orb].
  destruct (length (uniqueAccountKeys keys) =? 0) eqn:Hnone.
  - apply Nat.eqb_eq, nil_length_inv in Hnone. by rewrite Hnone.
  - unfold bind, call, setLastLogStatusByKey, modify.
    destruct (Actions.getLastSendStatusForZip _ _ _ _ _) as [latest w'].
    cbn. by apply mergeLatest_lookup.
Qed.

Lemma refresh_replaces_only_the_given_keys_witness :
  lastLogStatusByKey
    (ui (refreshLastLogStatusForKeys Demo.env (Demo.oracle Demo.accepted)
           (ui Demo.uploadedAgain) [lit "PR21"] Demo.uploadedAgain).2)
    !! lit "PR20" =
  if bool_decide (lit "PR20" ∈ uniqueAccountKeys [lit "PR21"])
  then statusMember
         (Actions.getLastSendStatusForZip Demo.env (Demo.oracle Demo.accepted)
            (zipFilenameOf (ui Demo.uploadedAgain))
            (uniqueAccountKeys [lit "PR21"]) (world Demo.uploadedAgain)).1
         (lit "PR20")
  else lastLogStatusByKey (ui Demo.uploadedAgain) !! lit "PR20".
Proof.
  apply refresh_replaces_only_the_given_keys; [discriminate| |discriminate].
  apply (bool_decide_unpack _). by vm_compute.
Defined.

(** ** From the row's button to the send log *)








(** ** Masking: edge cases and repetition *)

Lemma greedy_one p k prev (s : str) n :
  Regex.greedy p k 1 prev s = Some n → ∃ c s', s = c :: s' ∧ p c = true.
Proof.
  destruct s as [|c s']; simpl; [done|].
  destruct (p c) eqn:Hc; [by exists c, s' | done].
Qed.

(** A match of the in-text pattern has a character of the local class right
    before its [@]. *)
Lemma pattern_match_local prev (s : str) n :
  Regex.run Route.EMAIL_IN_TEXT_PATTERN prev s = Some n →
  ∃ l c rest, s = (l ++ [c]) ++ "@"%char :: rest ∧ Route.localClass c = true.
Proof.
  intros Hrun.
  destruct (pattern_match_shape prev s n Hrun) as (l & rest & -> & Hl).
  unfold Route.EMAIL_IN_TEXT_PATTERN in Hrun. cbn [Regex.run] in Hrun.
  destruct (Regex.atBoundary prev _); [|done].
  apply greedy_one in Hrun as (c & s' & Hs & Hc).
  destruct l as [|x l _] using rev_ind.
  - simpl in Hs. injection Hs as <- _. by vm_compute in Hc.
  - exists l, x, rest. split; [done|].
    apply Forall_app in Hl as [_ Hx]. by inversion_clear Hx.
Qed.

Lemma starred_unchanged f prev (s : str) :
  starred prev s = true →
  Regex.replaceFrom Route.EMAIL_IN_TEXT_PATTERN f prev 0 s = s.
Proof.
  intros Hstar.
  pose proof (replaceFrom_no_match Route.EMAIL_IN_TEXT_PATTERN f prev s []) as H.
  rewrite !app_nil_r in H. rewrite H; [by destruct s|].
  intros x y -> _. rewrite app_nil_r.
  destruct (Regex.run _ _ y) as [n|] eqn:Hrun; [|done].
  apply pattern_match_local in Hrun as (l & c & rest & -> & Hc).
  rewrite !starred_app in Hstar.
  apply andb_prop in Hstar as [_ [_ Hstar]%andb_prop].
  rewrite lastOr_snoc in Hstar. cbn [starred] in Hstar.
  rewrite bool_decide_eq_true_2 in Hstar by done.
  apply andb_prop in Hstar as [[= ->]%bool_decide_eq_true _].
  by vm_compute in Hc.
Qed.

(** X17: a message without [@] is returned as it is; and sanitizing a message
    again changes nothing, for the messages made of plain text around
    delimited addresses of the pattern's shape. *)
Theorem sanitizing_again_changes_nothing :
  (∀ message, "@"%char ∉ message → Route.sanitizeErrorMessage message = message) ∧
  (∀ message out,
     Masks message out →
     Route.sanitizeErrorMessage (Route.sanitizeErrorMessage message) =
     Route.sanitizeErrorMessage message).
Proof.
  split.
  - intros message Hat. by apply replace_plain.
  - intros message out HM. rewrite (sanitizeErrorMessage_masks _ _ HM).
    apply starred_unchanged, (starred_Masks _ _ HM).
Qed.

Lemma sanitizing_again_changes_nothing_witness :
  Route.sanitizeErrorMessage
    (Route.sanitizeErrorMessage (lit "Recipient Alice@Example.com rejected")) =
  Route.sanitizeErrorMessage (lit "Recipient Alice@Example.com rejected").
Proof.
  destruct sanitizing_again_changes_nothing as [_ Hagain].
  apply (Hagain _ (lit "Recipient al***@example.com rejected")).
  apply (masks_address (lit "Recipient ") (lit "Alice") (lit "Example")
           (lit "com") (lit " rejected") (lit " rejected")).
  - not_in_literal.
  - split; simpl; repeat constructor.
    + by exists "A"%char, (lit "lice").
    + discriminate.
  - repeat split.
  - apply masks_plain. not_in_literal.
Defined.

Lemma lowerChar_at c : Js.lowerChar c = "@"%char → c = "@"%char.
Proof. each_char c. Qed.

Lemma trim_no_char (c : ascii) (s : str) : c ∉ s → c ∉ Js.trim s.
Proof.
  intros Hc Hin. apply Hc. unfold Js.trim in Hin.
  destruct (trimEnd_prefix (Js.trimStart s)) as [sp Hsp].
  destruct (trimStart_suffix s) as [sp' Hsp'].
  rewrite Hsp', Hsp. apply elem_of_app. right. apply elem_of_app. by left.
Qed.

(** X18: [maskEmail] answers [***] for a text without [@] and for one whose
    part before or after the [@] is empty; otherwise it shows, in lower
    case, the first two characters of the part before the [@] (the first one
    only when that part has at most two), three stars, and the part after
    the [@]. *)
Theorem mask_shows_the_start_of_the_local_part :
  (∀ email, "@"%char ∉ email → Route.maskEmail email = lit "***") ∧
  (∀ email local domain,
     Js.toLowerCase (Js.trim email) = local ++ lit "@" ++ domain →
     "@"%char ∉ local → "@"%char ∉ domain →
     Route.maskEmail email =
       if Js.truthy local && Js.truthy domain
       then take (if length local <=? 2 then 1 else 2) local
            ++ lit "***@" ++ domain
       else lit "***").
Proof.
  split.
  - intros email Hat. unfold Route.maskEmail. cbv zeta.
    rewrite split_no_separator.
    + cbn [lookup list_lookup default Js.truthy negb orb]. unfold id.
      cbn [Js.truthy negb]. by rewrite orb_true_r.
    + intros (c & Hc & Hin)%list_elem_of_fmap. symmetry in Hc.
      apply lowerChar_at in Hc as ->. by apply (trim_no_char _ _ Hat).
  - intros email local domain Heq Hlocal Hdomain. unfold Route.maskEmail. cbv zeta.
    rewrite Heq. change (lit "@" ++ domain) with ("@"%char :: domain).
    rewrite split_one_separator by done.
    cbn [lookup list_lookup default]. unfold id.
    destruct (Js.truthy local) eqn:Hl; destruct (Js.truthy domain) eqn:Hd;
      cbn [negb orb andb]; try done.
    destruct (length local <=? 2) eqn:Hlen; [done|].
    apply Nat.leb_gt in Hlen.
    change 0%Z with (Z.of_nat 0). change 2%Z with (Z.of_nat 2).
    rewrite slice_within; [done | lia | lia].
Qed.

Lemma mask_shows_the_start_of_the_local_part_witness :
  Route.maskEmail (lit "  Jo@Example.com ") = lit "j***@example.com".
Proof.
  destruct mask_shows_the_start_of_the_local_part as [_ Hmask].
  apply (Hmask (lit "  Jo@Example.com ") (lit "jo") (lit "example.com")).
  - reflexivity.
  - not_in_literal.
  - not_in_literal.
Defined.

(** ** The review table *)

Lemma bump_counts acc items (s : Review.ReviewStatus) :
  let tally (c : Review.Counts) :=
    match s with
    | Review.ReviewPending => Review.count_Pending c
    | Review.ReviewBlocked => Review.count_Blocked c
    | Review.ReviewSent => Review.count_Sent c
    | Review.ReviewFailed => Review.count_Failed c
    end in
  tally (foldl Review.bump acc items) =
  tally acc + length (filter (fun item => Review.reviewStatus item = s) items).
Proof.
  intros tally. revert acc. induction items as [|item items IH]; intros acc.
  - simpl. lia.
  - cbn [foldl]. rewrite IH. unfold Review.bump.
    destruct (decide (Review.reviewStatus item = s)) as [Heq|Hne].
    + rewrite filter_cons_True by done. subst s tally.
      destruct (Review.reviewStatus item); cbn; lia.
    + rewrite filter_cons_False by done. subst tally.
      destruct (Review.reviewStatus item), s; cbn; try lia; done.
Qed.

Lemma length_filter_partition {A} (f : A → Review.ReviewStatus) (l : list A) :
  length (filter (fun x => f x = Review.ReviewPending) l) +
  length (filter (fun x => f x = Review.ReviewBlocked) l) +
  length (filter (fun x => f x = Review.ReviewSent) l) +
  length (filter (fun x => f x = Review.ReviewFailed) l) = length l.
Proof.
  induction l as [|x l IH]; [done|].
  destruct (f x) eqn:Hx.
  all: repeat first [ rewrite filter_cons_True by done
                    | rewrite filter_cons_False by congruence ].
  all: cbn [length]; lia.
Qed.

Lemma filter_map_length {A B} (f : A → B) (P : B → Prop) `{∀ y, Decision (P y)}
    (l : list A) :
  length (filter P (map f l)) = length (filter (fun x => P (f x)) l).
Proof.
  induction l as [|x l IH]; [done|]. cbn [map].
  destruct (decide (P (f x))).
  - rewrite !filter_cons_True by done. cbn. by rewrite IH.
  - by rewrite !filter_cons_False.
Qed.

(** X19: the four counters of the review table add up to the number of rows,
    and the counter of blocked rows is the number of rows without contact
    email, whatever was sent or logged for them. *)
Theorem counters_add_up_to_the_rows st :
  Review.count_Pending (Review.counts st) + Review.count_Blocked (Review.counts st)
  + Review.count_Sent (Review.counts st) + Review.count_Failed (Review.counts st)
  = length (rows st) ∧
  Review.count_Blocked (Review.counts st) =
    length (filter (fun row : BillRow => status row = Blocked) (rows st)).
Proof.
  unfold Review.counts.
  pose proof (bump_counts
                {| Review.count_Pending := 0; Review.count_Blocked := 0;
                   Review.count_Sent := 0; Review.count_Failed := 0 |}
                (Review.rowsWithReviewStatus st)) as H.
  pose proof (H Review.ReviewPending) as HP. pose proof (H Review.ReviewBlocked) as HB.
  pose proof (H Review.ReviewSent) as HS. pose proof (H Review.ReviewFailed) as HF.
  cbn in HP, HB, HS, HF. split.
  - rewrite HP, HB, HS, HF.
    rewrite (length_filter_partition Review.reviewStatus).
    unfold Review.rowsWithReviewStatus. by rewrite length_map.
  - rewrite HB. unfold Review.rowsWithReviewStatus.
    rewrite (filter_map_length (Review.itemOf st)
               (fun item => Review.reviewStatus item = Review.ReviewBlocked)).
    f_equal. apply list_filter_iff. intros row. cbn.
    unfold Review.getReviewStatus.
    case_bool_decide as Hb; [done|].
    split; [|done]. by repeat case_bool_decide.
Qed.

Lemma length_filter_impl {A} (P Q : A → Prop) `{∀ x, Decision (P x)}
    `{∀ x, Decision (Q x)} (l : list A) :
  (∀ x, P x → Q x) → length (filter P l) ≤ length (filter Q l).
Proof.
  intros HPQ. induction l as [|x l IH]; [done|].
  destruct (decide (P x)) as [HP|HP].
  - rewrite filter_cons_True by done.
    rewrite (filter_cons_True Q) by auto. cbn. lia.
  - rewrite filter_cons_False by done.
    destruct (decide (Q x)).
    + rewrite (filter_cons_True Q) by done. cbn. lia.
    + by rewrite (filter_cons_False Q).
Qed.

Lemma retried_row_shows_failed st (row : BillRow) :
  isPending row
  && bool_decide (lastLogStatusOf st row = Some log_failed)
  && notSentInSession st row = true →
  Review.reviewStatus (Review.itemOf st row) = Review.ReviewFailed.
Proof.
  intros [[Hp Hlog]%andb_prop Hsent]%andb_prop.
  apply bool_decide_eq_true in Hp, Hlog.
  unfold notSentInSession in Hsent. apply negb_true_iff, bool_decide_eq_false in Hsent.
  unfold lastLogStatusOf in Hlog.
  cbn. unfold Review.getReviewStatus.
  rewrite bool_decide_eq_false_2 by (by rewrite Hp).
  destruct (rowSendStates st !! getRowId row) as [s|] eqn:Hs; cbn in *.
  - rewrite bool_decide_eq_false_2 by congruence.
    case_bool_decide; [done|]. rewrite Hlog.
    by rewrite bool_decide_eq_false_2, bool_decide_eq_true_2.
  - rewrite !bool_decide_eq_false_2 by done. rewrite Hlog.
    by rewrite bool_decide_eq_false_2, bool_decide_eq_true_2.
Qed.

(** X20: the rows "retry failed" goes through are rows the table shows as
    failed, so they are at most as many as the counter of failed rows says;
    and the rows "send selected" goes through are at most as many as the
    indicator of selected rows says. *)
Theorem bulk_rows_are_among_the_counted st :
  Forall (fun row => Review.reviewStatus (Review.itemOf st row) = Review.ReviewFailed)
    (failedRowsToRetry st) ∧
  length (failedRowsToRetry st) ≤ Review.count_Failed (Review.counts st) ∧
  length (selectedRowsToSend st) ≤ Review.selectedPendingCount st.
Proof.
  split_and!.
  - apply Forall_forall. intros row [Hrow _]%list_elem_of_filter.
    by apply retried_row_shows_failed.
  - pose proof (bump_counts
                  {| Review.count_Pending := 0; Review.count_Blocked := 0;
                     Review.count_Sent := 0; Review.count_Failed := 0 |}
                  (Review.rowsWithReviewStatus st) Review.ReviewFailed) as HF.
    cbn in HF. unfold Review.counts. rewrite HF.
    unfold Review.rowsWithReviewStatus.
    rewrite (filter_map_length (Review.itemOf st)
               (fun item => Review.reviewStatus item = Review.ReviewFailed)).
    unfold failedRowsToRetry. apply length_filter_impl.
    intros row. apply retried_row_shows_failed.
  - unfold Review.selectedPendingCount, Review.rowsWithReviewStatus.
    rewrite (filter_map_length (Review.itemOf st)
               (fun item => (if negb (Review.isSelected st (Review.item_rowId item))
                             then false
                             else bool_decide (status (Review.item_row item) = Pending))
                            = true)).
    unfold selectedRowsToSend. apply length_filter_impl.
    intros row [[Hsel _]%andb_prop _]%andb_prop. cbn.
    unfold Review.isSelected.
    apply negb_true_iff, orb_false_iff in Hsel as [Hs Hp].
    apply negb_false_iff in Hs, Hp. rewrite Hs. cbn [negb]. exact Hp.
Qed.

(** ** Selecting rows *)

Lemma foldl_insert_true (ids : list str) (m : gmap str bool) k :
  foldl (fun next rowId => <[rowId := true]> next) m ids !! k =
  if bool_decide (k ∈ ids) then Some true else m !! k.
Proof.
  revert m. induction ids as [|x ids IH]; intros m; [done|]. cbn [foldl].
  rewrite IH. destruct (decide (k ∈ ids)) as [Hin|Hout].
  - rewrite !bool_decide_eq_true_2; [done | by apply list_elem_of_further | done].
  - rewrite (bool_decide_eq_false_2 (k ∈ ids)) by done.
    destruct (decide (k = x)) as [->|Hne].
    + rewrite bool_decide_eq_true_2 by apply list_elem_of_here.
      by rewrite lookup_insert_eq.
    + rewrite bool_decide_eq_false_2 by (intros [?|?]%elem_of_cons; done).
      by rewrite lookup_insert_ne.
Qed.

Lemma foldl_delete (ids : list str) (m : gmap str bool) k :
  foldl (fun next rowId => delete rowId next) m ids !! k =
  if bool_decide (k ∈ ids) then None else m !! k.
Proof.
  revert m. induction ids as [|x ids IH]; intros m; [done|]. cbn [foldl].
  rewrite IH. destruct (decide (k ∈ ids)) as [Hin|Hout].
  - rewrite !bool_decide_eq_true_2; [done | by apply list_elem_of_further | done].
  - rewrite (bool_decide_eq_false_2 (k ∈ ids)) by done.
    destruct (decide (k = x)) as [->|Hne].
    + rewrite bool_decide_eq_true_2 by apply list_elem_of_here.
      by rewrite lookup_delete_eq.
    + rewrite bool_decide_eq_false_2 by (intros [?|?]%elem_of_cons; done).
      by rewrite lookup_delete_ne.
Qed.

Lemma afterSelectAll_lookup view selected sys k :
  selectedRowIds (afterSelectAll view selected sys) !! k =
  if bool_decide (k ∈ visiblePendingIds (ui sys) view)
  then (if selected then Some true else None)
  else selectedRowIds (ui sys) !! k.
Proof.
  unfold afterSelectAll, Review.setAllVisiblePendingRowsSelected.
  destruct selected; cbn.
  - apply foldl_insert_true.
  - rewrite foldl_delete.
    rewrite (bool_decide_ext (k ∈ Js.dedup [] _) (k ∈ visiblePendingIds (ui sys) view));
      [done|].
    rewrite elem_of_dedup. split; [by intros [? _] | intros ?; split; [done|]].
    apply not_elem_of_nil.
Qed.

Lemma visiblePendingRows_afterSelectAll view selected sys :
  Review.visiblePendingRows (afterSelectAll view selected sys) view =
  Review.visiblePendingRows (ui sys) view.
Proof.
  unfold afterSelectAll, Review.setAllVisiblePendingRowsSelected.
  by destruct selected.
Qed.

Lemma filter_none {A} (P : A → Prop) `{∀ x, Decision (P x)} (l : list A) :
  Forall (fun x => ¬ P x) l → filter P l = [].
Proof.
  induction 1 as [|x l Hx _ IH]; [done|]. by rewrite filter_cons_False.
Qed.

(** X21: after the "select all" box is ticked, all the pending rows the
    filters leave visible are selected (the box shows checked when there is
    such a row, and never the indeterminate state); after it is cleared,
    none of them is selected; either way the selection of every other row
    is as it was. *)
Theorem select_all_acts_on_the_visible_pending_rows view sys :
  Review.allVisiblePendingSelected (afterSelectAll view true sys) view =
    (0 <? length (Review.visiblePendingRows (ui sys) view)) ∧
  Review.someVisiblePendingSelected (afterSelectAll view true sys) view = false ∧
  Review.selectedVisiblePendingCount (afterSelectAll view false sys) view = 0 ∧
  ∀ selected rowId,
    rowId ∉ visiblePendingIds (ui sys) view →
    selectedRowIds (afterSelectAll view selected sys) !! rowId =
    selectedRowIds (ui sys) !! rowId.
Proof.
  assert (Hall : Review.selectedVisiblePendingCount (afterSelectAll view true sys) view
                 = length (Review.visiblePendingRows (ui sys) view)).
  { unfold Review.selectedVisiblePendingCount.
    rewrite visiblePendingRows_afterSelectAll, filter_all; [done|].
    apply Forall_forall. intros item Hitem. unfold Review.isSelected.
    rewrite afterSelectAll_lookup, bool_decide_eq_true_2; [done|].
    by apply list_elem_of_fmap_2. }
  split_and!.
  - unfold Review.allVisiblePendingSelected.
    rewrite Hall, visiblePendingRows_afterSelectAll, Nat.eqb_refl.
    apply andb_true_r.
  - unfold Review.someVisiblePendingSelected.
    rewrite Hall, visiblePendingRows_afterSelectAll, Nat.ltb_irrefl.
    apply andb_false_r.
  - unfold Review.selectedVisiblePendingCount.
    rewrite visiblePendingRows_afterSelectAll, filter_none; [done|].
    apply Forall_forall. intros item Hitem. unfold Review.isSelected.
    rewrite afterSelectAll_lookup, bool_decide_eq_true_2; [done|].
    by apply list_elem_of_fmap_2.
  - intros selected rowId Hout.
    by rewrite afterSelectAll_lookup, bool_decide_eq_false_2.
Qed.

Lemma select_all_acts_on_the_visible_pending_rows_witness :
  selectedRowIds
    (afterSelectAll {| Review.activeFilter := Review.All; Review.searchTerm := [];
                       Review.showOnlyPending := false |} true Demo.uploaded)
    !! lit "elsewhere" =
  selectedRowIds (ui Demo.uploaded) !! lit "elsewhere".
Proof.
  destruct (select_all_acts_on_the_visible_pending_rows
              {| Review.activeFilter := Review.All; Review.searchTerm := [];
                 Review.showOnlyPending := false |} Demo.uploaded)
    as (_ & _ & _ & Hother).
  apply Hother. apply (bool_decide_unpack _). by vm_compute.
Defined.

(** X22: the effect that follows a change of the rows keeps in the selection
    exactly the ids that were selected and belong to a row of the table. *)
Theorem pruning_keeps_the_selected_rows_that_exist rows sys rowId :
  selectedRowIds (ui (Review.pruneSelectedRowIds rows sys).2) !! rowId =
  if bool_decide (selectedRowIds (ui sys) !! rowId = Some true ∧
                  rowId ∈ map getRowId rows)
  then Some true else None.
Proof.
  unfold Review.pruneSelectedRowIds. cbn.
  destruct (filter _ (selectedRowIds (ui sys)) !! rowId) as [v|] eqn:Hf.
  - apply map_lookup_filter_Some in Hf as [Hm [Hv Hin]]. cbn in Hv, Hin. subst v.
    by rewrite bool_decide_eq_true_2.
  - case_bool_decide as Hc; [|done]. destruct Hc as [Hm Hin].
    assert (Hsome : filter (fun entry : str * bool =>
                              entry.2 = true ∧ entry.1 ∈ map getRowId rows)
                      (selectedRowIds (ui sys)) !! rowId = Some true).
    { by apply map_lookup_filter_Some. }
    congruence.
Qed.

(** ** Writing contacts *)

Ltac world_step :=
  cbv beta iota zeta; cbn [negb tick contacts send_logs trace fst snd].

Lemma createContact_ok env o db payload w w' :
  ContactActions.createContact env o db payload w = (ActionOk, w') →
  Auth.isAdminSession env (session o (tick w)) = true ∧
  storeError o (S (tick w)) = false ∧
  c_account_key (contactOf payload (now db (S (tick w)))) ≠ [] ∧
  c_email (contactOf payload (now db (S (tick w)))) ≠ [] ∧
  Regex.test ContactActions.EMAIL_PATTERN
    (c_email (contactOf payload (now db (S (tick w))))) = true ∧
  (c_account_key (contactOf payload (now db (S (tick w))))
     ∉ map c_account_key (contacts w)) ∧
  w' = {| tick := S (S (tick w)); send_logs := send_logs w;
          contacts := contacts w ++ [contactOf payload (now db (S (tick w)))];
          trace := trace w |}.
Proof.
  unfold ContactActions.createContact, ContactActions.insertContact.
  unfold ContactActions.setContacts. run_eff. world_step.
  destruct (Auth.isAdminSession env (session o (tick w))); [|done]. world_step.
  destruct (Js.truthy (ContactActions.normalizeAccountKey _)) eqn:Hkey; [|done].
  destruct (Js.truthy (ContactActions.normalizeEmail _)) eqn:Hmail; [|done].
  destruct (ContactActions.isValidEmail _) eqn:Hvalid; [|done]. world_step.
  destruct (storeError o (S (tick w))); world_step;
    [by destruct (bool_decide _)|].
  case_bool_decide as Hin; world_step; [done|].
  intros [= <-]. split_and!; try done; by apply truthy_true.
Qed.

Lemma createContact_error env o db payload w r w' :
  ContactActions.createContact env o db payload w = (r, w') →
  r ≠ ActionOk →
  contacts w' = contacts w ∧ send_logs w' = send_logs w ∧ trace w' = trace w.
Proof.
  unfold ContactActions.createContact, ContactActions.insertContact.
  unfold ContactActions.setContacts. run_eff. world_step.
  intros Hrun Hr.
  repeat match type of Hrun with
         | context [if ?c then _ else _] =>
             destruct c; cbv beta iota zeta in Hrun;
             cbn [negb tick contacts send_logs trace fst snd] in Hrun
         end; injection Hrun as <- <-; done.
Qed.

Lemma trim_toLowerCase s : Js.trim (Js.toLowerCase s) = Js.toLowerCase (Js.trim s).
Proof.
  assert (Hspace : ∀ c, Js.isSpace (Js.lowerChar c) = Js.isSpace c)
    by (intros c; each_char c).
  assert (Hstart : ∀ t, Js.trimStart (Js.toLowerCase t) = Js.toLowerCase (Js.trimStart t)).
  { induction t as [|c t IH]; [done|]. simpl. rewrite Hspace.
    by destruct (Js.isSpace c). }
  unfold Js.trim, Js.trimEnd. rewrite Hstart.
  unfold Js.toLowerCase at 1. rewrite <- map_rev. fold (Js.toLowerCase (rev (Js.trimStart s))).
  rewrite Hstart. unfold Js.toLowerCase. by rewrite map_rev.
Qed.

Lemma toLowerCase_idemp s : Js.toLowerCase (Js.toLowerCase s) = Js.toLowerCase s.
Proof.
  unfold Js.toLowerCase. rewrite map_map. apply map_ext. intros c. each_char c.
Qed.

Lemma contactOf_valid payload stamp :
  c_account_key (contactOf payload stamp) ≠ [] →
  Regex.test ContactActions.EMAIL_PATTERN (c_email (contactOf payload stamp)) = true →
  validContact (contactOf payload stamp).
Proof.
  intros Hkey Hmail. split_and!; try done.
  - apply trim_idemp.
  - unfold contactOf, ContactActions.normalizeEmail. cbn [c_email].
    by rewrite trim_toLowerCase, toLowerCase_idemp, trim_idemp.
  - cbn. unfold ContactActions.normalizeName.
    destruct (Js.trim (default [] (in_name payload))); [done|]. cbn. congruence.
Qed.

(** X23: [createContact] answers [ok] only for an administrator's session,
    and then the table has gained exactly one contact, a valid one, under a
    key no contact had before: the trimmed key, the name trimmed (or none),
    the address trimmed and in lower case.  With any other answer the table
    is as it was.  The send log is never touched. *)
Theorem created_contacts_are_valid env o db payload w :
  ((ContactActions.createContact env o db payload w).1 = ActionOk →
   Auth.isAdminSession env (session o (tick w)) = true ∧
   validContact (contactOf payload (now db (S (tick w)))) ∧
   (c_account_key (contactOf payload (now db (S (tick w))))
      ∉ map c_account_key (contacts w)) ∧
   contacts (ContactActions.createContact env o db payload w).2 =
     contacts w ++ [contactOf payload (now db (S (tick w)))]) ∧
  ((ContactActions.createContact env o db payload w).1 ≠ ActionOk →
   contacts (ContactActions.createContact env o db payload w).2 = contacts w) ∧
  send_logs (ContactActions.createContact env o db payload w).2 = send_logs w.
Proof.
  destruct (ContactActions.createContact env o db payload w) as [r w'] eqn:Hrun.
  cbn [fst snd]. split_and!.
  - intros ->. apply createContact_ok in Hrun
      as (Hadmin & _ & Hkey & _ & Hmail & Hnew & ->).
    split_and!; try done. by apply contactOf_valid.
  - intros Hr. by destruct (createContact_error _ _ _ _ _ _ _ Hrun Hr).
  - destruct r.
    + by apply createContact_ok in Hrun as (_ & _ & _ & _ & _ & _ & ->).
    + by destruct (createContact_error _ _ _ _ _ _ _ Hrun) as (_ & ? & _).
Qed.

Lemma created_contacts_are_valid_witness :
  contacts (ContactActions.createContact Demo.env (Demo.oracle Demo.accepted)
              demoDatabase zoePayload Demo.world0).2 =
  contacts Demo.world0 ++
  [{| c_account_key := lit "ZZ9"; c_name := Some (lit "Zoe");
      c_email := lit "zoe@example.com";
      c_updated_at := lit "2024-01-06T09:00:00+00:00" |}].
Proof.
  destruct (created_contacts_are_valid Demo.env (Demo.oracle Demo.accepted)
              demoDatabase zoePayload Demo.world0) as [Hok _].
  destruct Hok as (_ & _ & _ & Hcontacts).
  - vm_compute. reflexivity.
  - exact Hcontacts.
Defined.

(** X24: a contact [createContact] has stored is what [getContactsByKeys]
    answers for its key, however the key was typed, as long as the session
    is still an administrator's and the store answers: creating and looking
    up agree on the normal form of the key.  The key [__proto__] is the
    exception: the contact is stored, and [getContactsByKeys] files nothing
    under that key. *)
Theorem created_contact_is_found env o db payload w :
  (ContactActions.createContact env o db payload w).1 = ActionOk →
  NoDup (map c_account_key (contacts w)) →
  Js.trim (in_account_key payload) ≠ lit "__proto__" →
  Auth.isAdminSession env (session o (S (S (tick w)))) = true →
  storeError o (S (S (S (tick w)))) = false →
  (Actions.getContactsByKeys env o [in_account_key payload]
     (ContactActions.createContact env o db payload w).2).1
    !! Js.trim (in_account_key payload)
  = Some (contactOf payload (now db (S (tick w)))).
Proof.
  destruct (ContactActions.createContact env o db payload w) as [r w'] eqn:Hrun.
  cbn [fst snd]. intros -> Hnd Hproto Hadmin Hstore.
  apply createContact_ok in Hrun as (_ & _ & Hkey & _ & _ & Hnew & ->).
  apply getContactsByKeys_lookup; cbn [tick contacts]; try done.
  - rewrite map_app. apply NoDup_app. split_and!; [done | | by apply NoDup_singleton].
    intros k Hk [->|[]%elem_of_nil]%elem_of_cons. done.
  - apply elem_of_app; right; apply list_elem_of_here.
  - apply elem_of_normalizeAccountKeys. split; [done|].
    exists (in_account_key payload). split; [apply list_elem_of_here | done].
Qed.

Lemma created_contact_is_found_witness :
  (Actions.getContactsByKeys Demo.env (Demo.oracle Demo.accepted)
     [in_account_key zoePayload]
     (ContactActions.createContact Demo.env (Demo.oracle Demo.accepted)
        demoDatabase zoePayload Demo.world0).2).1
    !! Js.trim (in_account_key zoePayload)
  = Some (contactOf zoePayload (now demoDatabase (S (tick Demo.world0)))).
Proof.
  apply created_contact_is_found.
  - vm_compute. reflexivity.
  - apply (bool_decide_unpack _). by vm_compute.
  - apply (bool_decide_unpack _). by vm_compute.
  - reflexivity.
  - reflexivity.
Defined.

Lemma updateContact_ok env o db key payload w w' :
  ContactActions.updateContact env o db key payload w = (ActionOk, w') →
  Auth.isAdminSession env (session o (tick w)) = true ∧
  Js.trim key ≠ [] ∧
  Regex.test ContactActions.EMAIL_PATTERN
    (ContactActions.normalizeEmail (up_email payload)) = true ∧
  w' = {| tick := S (S (tick w)); send_logs := send_logs w;
          contacts :=
            map (fun c =>
                   if bool_decide (c_account_key c = Js.trim key)
                   then {| c_account_key := c_account_key c;
                           c_name := ContactActions.normalizeName (up_name payload);
                           c_email := ContactActions.normalizeEmail (up_email payload);
                           c_updated_at := now db (S (tick w)) |}
                   else c) (contacts w);
          trace := trace w |}.
Proof.
  unfold ContactActions.updateContact, ContactActions.updateContactRows.
  unfold ContactActions.setContacts. run_eff. world_step.
  destruct (Auth.isAdminSession env (session o (tick w))); [|done]. world_step.
  destruct (Js.truthy (ContactActions.normalizeAccountKey _)) eqn:Hkey; [|done].
  destruct (Js.truthy (ContactActions.normalizeEmail _)) eqn:Hmail; [|done].
  destruct (ContactActions.isValidEmail _) eqn:Hvalid; [|done]. world_step.
  destruct (storeError o (S (tick w))); world_step; [done|].
  intros [= <-]. split_and!; try done. by apply truthy_true.
Qed.

(** X25: when [updateContact] answers [ok], the contacts of the table have
    the keys they had, in the same order; the contacts under the trimmed key
    carry the new name and the new address, normalized and of the accepted
    shape, every other contact is as it was; and when no contact has the
    key, the answer is [ok] all the same and the table is unchanged. *)
Theorem update_changes_only_the_named_contact env o db key payload w :
  (ContactActions.updateContact env o db key payload w).1 = ActionOk →
  map c_account_key
    (contacts (ContactActions.updateContact env o db key payload w).2) =
    map c_account_key (contacts w) ∧
  (∀ c, c ∈ contacts w → c_account_key c ≠ Js.trim key →
        c ∈ contacts (ContactActions.updateContact env o db key payload w).2) ∧
  (∀ c, c ∈ contacts (ContactActions.updateContact env o db key payload w).2 →
        c_account_key c = Js.trim key →
        c_name c = ContactActions.normalizeName (up_name payload) ∧
        c_email c = ContactActions.normalizeEmail (up_email payload) ∧
        Regex.test ContactActions.EMAIL_PATTERN (c_email c) = true) ∧
  ((Js.trim key ∉ map c_account_key (contacts w)) →
   contacts (ContactActions.updateContact env o db key payload w).2 = contacts w).
Proof.
  destruct (ContactActions.updateContact env o db key payload w) as [r w'] eqn:Hrun.
  cbn [fst snd]. intros ->.
  apply updateContact_ok in Hrun as (_ & _ & Hvalid & ->). cbn [contacts].
  split_and!.
  - rewrite map_map. apply map_ext. intros c. by case_bool_decide.
  - intros c Hin Hne. apply list_elem_of_fmap. exists c.
    by rewrite bool_decide_eq_false_2.
  - intros c (c0 & -> & Hin)%list_elem_of_fmap Hk.
    case_bool_decide as Hc0; [done|]. by destruct Hc0.
  - intros Hnew. rewrite <- (map_id (contacts w)) at 2.
    apply map_ext_in. intros c Hin%list_elem_of_In.
    rewrite bool_decide_eq_false_2; [done|].
    intros Hc. apply Hnew. rewrite <- Hc. by apply list_elem_of_fmap_2.
Qed.

Lemma update_changes_only_the_named_contact_witness :
  contacts (ContactActions.updateContact Demo.env (Demo.oracle Demo.accepted)
              demoDatabase (lit "ZZ9")
              {| up_name := None; up_email := lit "zoe@example.com" |}
              Demo.world0).2 = contacts Demo.world0.
Proof.
  destruct (update_changes_only_the_named_contact Demo.env
              (Demo.oracle Demo.accepted) demoDatabase (lit "ZZ9")
              {| up_name := None; up_email := lit "zoe@example.com" |}
              Demo.world0) as (_ & _ & _ & Hunknown).
  - vm_compute. reflexivity.
  - apply Hunknown. apply (bool_decide_unpack _). by vm_compute.
Defined.

Lemma deleteContact_ok env o db key w w' :
  ContactActions.deleteContact env o db key w = (ActionOk, w') →
  Auth.isAdminSession env (session o (tick w)) = true ∧
  Js.trim key ≠ [] ∧
  w' = {| tick := S (S (tick w)); send_logs := send_logs w;
          contacts := filter (fun c => c_account_key c ≠ Js.trim key) (contacts w);
          trace := trace w |}.
Proof.
  unfold ContactActions.deleteContact, ContactActions.deleteContactRows.
  unfold ContactActions.setContacts. run_eff. world_step.
  destruct (Auth.isAdminSession env (session o (tick w))); [|done]. world_step.
  destruct (Js.truthy (ContactActions.normalizeAccountKey _)) eqn:Hkey; [|done].
  world_step.
  destruct (storeError o (S (tick w))); world_step; [done|].
  intros [= <-]. split_and!; try done. by apply truthy_true.
Qed.

(** X26: when [deleteContact] answers [ok], no contact is left under the
    trimmed key, every other contact is still in the table and nothing was
    added; and a later [getContactsByKeys] has no answer for that key. *)
Theorem deleted_contact_is_gone env o db key w :
  (ContactActions.deleteContact env o db key w).1 = ActionOk →
  (∀ c, c ∈ contacts (ContactActions.deleteContact env o db key w).2 ↔
        c ∈ contacts w ∧ c_account_key c ≠ Js.trim key) ∧
  ∀ keys,
    (Actions.getContactsByKeys env o keys
       (ContactActions.deleteContact env o db key w).2).1 !! Js.trim key = None.
Proof.
  destruct (ContactActions.deleteContact env o db key w) as [r w'] eqn:Hrun.
  cbn [fst snd]. intros ->.
  apply deleteContact_ok in Hrun as (_ & _ & ->). cbn [contacts]. split.
  - intros c. rewrite list_elem_of_filter. tauto.
  - intros keys. unfold Actions.getContactsByKeys. run_eff. world_step.
    repeat match goal with
           | |- context [if ?c then _ else _] => destruct c; world_step
           end; try apply lookup_empty.
    destruct (foldl _ ∅ _ !! Js.trim key) as [c|] eqn:Hc; [|done].
    exfalso.
    assert (Hgen : ∀ (l : list Contact) (m : gmap str Contact) k c,
              foldl (fun acc contact =>
                       Js.assign acc (c_account_key contact) contact) m l
                !! k = Some c →
              (c ∈ l ∧ c_account_key c = k) ∨ m !! k = Some c).
    { clear. induction l as [|x l IH]; intros m k c; cbn [foldl]; [by right|].
      intros [[Hin Hk]|Hm]%IH.
      - left. split; [by apply list_elem_of_further | done].
      - unfold Js.assign in Hm. case_bool_decide; [by right|].
        destruct (decide (c_account_key x = k)) as [Hx|Hx].
        + rewrite <- Hx, lookup_insert_eq in Hm. injection Hm as <-.
          left. split; [apply list_elem_of_here | done].
        + rewrite lookup_insert_ne in Hm by done. by right. }
    apply Hgen in Hc as [[Hin Hk]|Hm]; [|by rewrite lookup_empty in Hm].
    unfold Actions.selectContacts in Hin.
    apply list_elem_of_filter in Hin as [_ Hin].
    apply list_elem_of_filter in Hin as [Hne _]. done.
Qed.

Lemma deleted_contact_is_gone_witness :
  (Actions.getContactsByKeys Demo.env (Demo.oracle Demo.accepted) [lit "PR20"]
     (ContactActions.deleteContact Demo.env (Demo.oracle Demo.accepted)
        demoDatabase (lit " PR20") Demo.world0).2).1 !! Js.trim (lit " PR20")
  = None.
Proof.
  destruct (deleted_contact_is_gone Demo.env (Demo.oracle Demo.accepted)
              demoDatabase (lit " PR20") Demo.world0) as [_ Hgone].
  - vm_compute. reflexivity.
  - apply Hgone.
Defined.

(** ** The form that adds a contact *)

Lemma getLastSendStatusForZip_contacts env o z keys w :
  contacts (Actions.getLastSendStatusForZip env o z keys w).2 = contacts w.
Proof.
  unfold Actions.getLastSendStatusForZip. run_eff. by repeat break_match.
Qed.

Lemma refreshLastLogStatusForKeys_rows env o snap keys sys :
  rows (ui (refreshLastLogStatusForKeys env o snap keys sys).2) = rows (ui sys) ∧
  contacts (world (refreshLastLogStatusForKeys env o snap keys sys).2) =
    contacts (world sys).
Proof.
  unfold refreshLastLogStatusForKeys.
  set (ks := if 0 <? length keys then _ else _).
  destruct (negb (Js.truthy (zipFilenameOf snap)) || (length ks =? 0)).
  - by destruct (negb (Js.truthy (zipFilenameOf snap))).
  - unfold bind, call, setLastLogStatusByKey, modify.
    pose proof (getLastSendStatusForZip_contacts env o (zipFilenameOf snap) ks
                  (world sys)) as H.
    by destruct (Actions.getLastSendStatusForZip _ _ _ _ _).
Qed.

Lemma getContactsByKeys_contacts env o keys w :
  contacts (Actions.getContactsByKeys env o keys w).2 = contacts w.
Proof.
  unfold Actions.getContactsByKeys. run_eff. by repeat break_match.
Qed.

Lemma syncContactsForKeys_contacts env o keys sys :
  contacts (world (syncContactsForKeys env o keys sys).2) = contacts (world sys).
Proof.
  unfold syncContactsForKeys.
  destruct (length (uniqueAccountKeys keys) =? 0); [done|].
  unfold bind, call, setRows, modify.
  pose proof (getContactsByKeys_contacts env o (uniqueAccountKeys keys) (world sys)) as H.
  by destruct (Actions.getContactsByKeys _ _ _ _).
Qed.


Lemma submitAddContact_run env o db form snap d :
  AddContact.submitAddContact env o db (Some form) snap d =
  let start := {| ui := with_actionError [] (ui (desk d));
                  world := world (desk d) |} in
  match ContactActions.createContact env o db (formPayload form) (world (desk d))
  with
  | (ActionOk, w') =>
      let synced :=
        (syncContactsForKeys env o [add_account_key form]
           {| ui := ui start; world := w' |}).2 in
      (tt, {| desk := (refreshLastLogStatusForKeys env o snap
                         [add_account_key form] synced).2;
              addContactState := None |})
  | (ActionError error, w') =>
      (tt, {| desk := {| ui := ui start; world := w' |};
              addContactState :=
                (fun current => {| add_account_key := add_account_key current;
                                   add_name := add_name current;
                                   add_email := add_email current;
                                   add_error := error |}) <$> addContactState d |})
  end.
Proof.
  unfold AddContact.submitAddContact, bind, AddContact.onSys, setActionError,
    modify, call, AddContact.setAddContactState, formPayload.
  cbn [ui world desk addContactState fst snd].
  destruct (ContactActions.createContact _ _ _ _ _) as [[|error] w'].
  - cbn [ui world desk addContactState].
    destruct (syncContactsForKeys _ _ _ _) as [[] synced]. cbn [snd].
    by destruct (refreshLastLogStatusForKeys _ _ _ _ _) as [[] s].
  - cbn [ui world desk addContactState]. by destruct (addContactState d).
Qed.

(** X27: submitting the form of the console.  When [createContact] accepts
    the payload (for a key other than [__proto__]) and the lookup that
    follows is answered, the form is closed, the contact is in the table, and
    the rows of the table under the trimmed key show the name and the
    address of the contact and are [Pending]; the other rows are as they
    were.  When [createContact] refuses, the form stays open with the error,
    and neither the rows nor the contacts change. *)
Theorem added_contact_unblocks_its_rows env o db form snap d :
  let w := world (desk d) in
  let c := contactOf (formPayload form) (now db (S (tick w))) in
  let d' := (AddContact.submitAddContact env o db (Some form) snap d).2 in
  ((ContactActions.createContact env o db (formPayload form) w).1 = ActionOk →
   NoDup (map c_account_key (contacts w)) →
   Js.trim (add_account_key form) ≠ lit "__proto__" →
   Auth.isAdminSession env (session o (S (S (tick w)))) = true →
   storeError o (S (S (S (tick w)))) = false →
   addContactState d' = None ∧
   contacts (world (desk d')) = contacts w ++ [c] ∧
   rows (ui (desk d')) =
     map (fun row : BillRow =>
            if bool_decide (account_key row = c_account_key c)
            then withContact c row else row) (rows (ui (desk d)))) ∧
  (∀ error,
     (ContactActions.createContact env o db (formPayload form) w).1 =
       ActionError error →
     addContactState d' =
       (fun current => {| add_account_key := add_account_key current;
                          add_name := add_name current;
                          add_email := add_email current;
                          add_error := error |}) <$> addContactState d ∧
     contacts (world (desk d')) = contacts w ∧
     rows (ui (desk d')) = rows (ui (desk d))).
Proof.
  cbv zeta. rewrite submitAddContact_run. cbv zeta.
  destruct (ContactActions.createContact env o db (formPayload form)
              (world (desk d))) as [r w'] eqn:Hrun.
  cbn [fst snd]. split.
  - intros -> Hnd Hproto Hadmin Hstore. cbn [snd desk addContactState ui].
    split; [done|].
    destruct (refreshLastLogStatusForKeys_rows env o snap [add_account_key form]
                (syncContactsForKeys env o [add_account_key form]
                   {| ui := with_actionError [] (ui (desk d)); world := w' |}).2)
      as [-> ->].
    rewrite syncContactsForKeys_contacts, syncContactsForKeys_rows.
    cbn [ui world rows with_actionError].
    pose proof (createContact_ok _ _ _ _ _ _ Hrun)
      as (_ & Hvalid & Hkey & _ & _ & Hnew & Hw').
    split; [by rewrite Hw'|].
    apply map_ext. intros row.
    rewrite uniqueAccountKeys_singleton.
    change (add_account_key form) with (in_account_key (formPayload form)).
    set (c := contactOf (formPayload form) (now db (S (tick (world (desk d)))))) in *.
    set (k := Js.trim (in_account_key (formPayload form))).
    change (c_account_key c) with k in *.
    apply truthy_true in Hkey. rewrite Hkey.
    assert (Hlookup : (Actions.getContactsByKeys env o [k] w').1 !! k = Some c).
    { apply getContactsByKeys_lookup; rewrite ?Hw'; cbn [tick contacts]; try done.
      - rewrite map_app. apply NoDup_app.
        split_and!; [done | | by apply NoDup_singleton].
        intros k' Hk' [->|[]%elem_of_nil]%elem_of_cons. done.
      - apply elem_of_app; right; apply list_elem_of_here.
      - apply elem_of_normalizeAccountKeys. split; [by apply truthy_true|].
        exists k. split; [apply list_elem_of_here | symmetry; apply trim_idemp]. }
    destruct (decide (account_key row ∈ [k])) as [Hin|Hnin].
    + apply list_elem_of_singleton in Hin.
      rewrite bool_decide_eq_true_2 by done.
      unfold mergeRow, withContact, Js.member. rewrite Hin, Hlookup.
      unfold getStatusFromEmail.
      pose proof (createContact_ok _ _ _ _ _ _ Hrun) as (_ & _ & _ & Hmail & _).
      apply truthy_true in Hmail. fold c in Hmail. by rewrite Hmail.
    + rewrite bool_decide_eq_false_2; [done|].
      intros Heq. apply Hnin. rewrite Heq. apply list_elem_of_here.
  - intros error ->. cbn [snd desk addContactState ui world rows with_actionError].
    split; [done|]. split; [|done].
    by apply (createContact_error env o db (formPayload form) (world (desk d))
                (ActionError error)).
Qed.

Lemma added_contact_unblocks_its_rows_witness :
  map status
    (rows (ui (desk (AddContact.submitAddContact Demo.env
                       (Demo.oracle Demo.accepted) demoDatabase
                       (Some zoeForm) (ui Demo.uploaded)
                       {| desk := Demo.uploaded;
                          addContactState := Some zoeForm |}).2))) =
  [Pending; Pending; Pending] ∧
  map status (rows (ui Demo.uploaded)) = [Pending; Pending; Blocked].
Proof.
  destruct (added_contact_unblocks_its_rows Demo.env (Demo.oracle Demo.accepted)
              demoDatabase zoeForm (ui Demo.uploaded)
              {| desk := Demo.uploaded; addContactState := Some zoeForm |})
    as [Hok _].
  destruct Hok as (_ & _ & Hrows).
  - vm_compute. reflexivity.
  - apply (bool_decide_unpack _). by vm_compute.
  - apply (bool_decide_unpack _). by vm_compute.
  - reflexivity.
  - reflexivity.
  - rewrite Hrows. split; vm_compute; reflexivity.
Defined.

(** ** The send route: bodies that cannot be read *)

Lemma toStringOrEmpty_None body k :
  Route.toStringOrEmpty (Json.prop body k) = None ↔
  body = Json.Null ∨ ∃ v, Json.prop body k = Json.Got v ∧ Json.toString v = None.
Proof.
  unfold Route.toStringOrEmpty. rewrite fmap_None.
  destruct body as [| | | | |fields]; cbn [Json.prop Json.stringOrEmpty];
    try (split; [done | by intros [?|(v & ? & _)]]).
  - split; [by left | done].
  - pose proof (lookupField_total fields k) as Htotal.
    destruct (Json.lookupField fields k) as [| |v]; [done| |].
    + split; [done | by intros [?|(v & ? & _)]].
    + split.
      * intros Hv. right. exists v. split; [done|]. by destruct v.
      * intros [?|(v' & [= <-] & Hv)]; [done|]. by destruct v.
Qed.

Lemma readFields_None body :
  Route.readFields body = None ↔
  ∃ k, k ∈ bodyKeys ∧ Route.toStringOrEmpty (Json.prop body k) = None.
Proof.
  unfold Route.readFields, bodyKeys.
  destruct (Route.toStringOrEmpty (Json.prop body "zip_filename")) eqn:H1;
    [|split; [intros _; eexists; split; [|exact H1]; set_solver | done]].
  destruct (Route.toStringOrEmpty (Json.prop body "account_key")) eqn:H2;
    [|split; [intros _; eexists; split; [|exact H2]; set_solver | done]].
  destruct (Route.toStringOrEmpty (Json.prop body "trade_date")) eqn:H3;
    [|split; [intros _; eexists; split; [|exact H3]; set_solver | done]].
  destruct (Route.toStringOrEmpty (Json.prop body "to_email")) eqn:H4;
    [|split; [intros _; eexists; split; [|exact H4]; set_solver | done]].
  destruct (Route.toStringOrEmpty (Json.prop body "to_name")) eqn:H5;
    [|split; [intros _; eexists; split; [|exact H5]; set_solver | done]].
  destruct (Route.toStringOrEmpty (Json.prop body "filename")) eqn:H6;
    [|split; [intros _; eexists; split; [|exact H6]; set_solver | done]].
  destruct (Route.toStringOrEmpty (Json.prop body "pdf_base64")) eqn:H7;
    [|split; [intros _; eexists; split; [|exact H7]; set_solver | done]].
  cbn [mbind option_bind]. split; [done|].
  intros (k & Hk & Hnone). repeat apply elem_of_cons in Hk as [->|Hk]; try congruence.
  by apply elem_of_nil in Hk.
Qed.

Lemma toString_Arr items :
  Json.toString (Json.Arr items) = None ↔
  ∃ i, i ∈ items ∧ Json.toString i = None.
Proof.
  cbn [Json.toString]. rewrite fmap_None.
  set (g := fun i => match i with Json.Null => Some [] | _ => Json.toString i end).
  assert (Hg : ∀ i, g i = None ↔ Json.toString i = None) by (by intros []).
  induction items as [|i items IH].
  - split; [done | by intros (i & Hi%elem_of_nil & _)].
  - cbn [mapM]. destruct (g i) as [y|] eqn:Hi.
    + cbn [mbind option_bind]. destruct (mapM g items) as [k|] eqn:Hk.
      * split; [done|]. intros (i' & [->|Hin]%elem_of_cons & Hno).
        -- apply Hg in Hno. congruence.
        -- destruct IH as [_ IH]. by discriminate IH; [exists i'].
      * split; [intros _ | done].
        destruct IH as [IH _]. destruct (IH eq_refl) as (i' & Hin & Hno).
        exists i'. split; [by apply list_elem_of_further | done].
    + split; [intros _ | done]. exists i. split; [apply list_elem_of_here|].
      by apply Hg.
Qed.

(** X28: what makes the handler raise instead of validating.  For an
    authorized request with a JSON body, the fields cannot be read exactly
    when the body is [null] or one of the seven keys holds a value [String]
    cannot convert; such a value is an object with an own [toString]
    property, or an array with an item that cannot be converted.  The
    handler then raises before its first check: the answer is a 500 without
    a JSON payload, and neither a transport call nor a send-log write is
    made. *)
Theorem unreadable_body_is_not_validated lib env o request body w :
  authorized env (session o (tick w)) →
  Route.request_json request = Some body →
  (Route.readFields body = None ↔
   body = Json.Null ∨
   ∃ k v, k ∈ bodyKeys ∧ Json.prop body k = Json.Got v ∧ Json.toString v = None) ∧
  (∀ fields, Json.toString (Json.Obj fields) = None ↔
             lit "toString" ∈ map fst fields) ∧
  (∀ items, Json.toString (Json.Arr items) = None ↔
            ∃ i, i ∈ items ∧ Json.toString i = None) ∧
  (Route.readFields body = None →
   Route.POST lib env o request w = (Route.unhandled, ticked w)).
Proof.
  intros (Hauth & u & Hu & Hadmin) Hbody. split_and!.
  - rewrite readFields_None. split.
    + intros (k & Hk & [->|(v & Hv & Hno)]%toStringOrEmpty_None); [by left|].
      right. by exists k, v.
    + intros [->|(k & v & Hk & Hv & Hno)].
      * exists (lit "zip_filename"). split; [apply list_elem_of_here | done].
      * exists k. split; [done|]. apply toStringOrEmpty_None. right. by exists v.
  - intros fields. cbn [Json.toString]. unfold Json.hasOwn.
    case_bool_decide; split; done.
  - apply toString_Arr.
  - intros Hread. unfold Route.POST, bind, nextTick. cbv beta iota zeta.
    rewrite Hauth. cbv beta iota. by rewrite Hu, Hadmin, Hbody, Hread.
Qed.

Lemma unreadable_body_is_not_validated_witness :
  Route.POST Demo.lib Demo.env (Demo.oracle Demo.accepted)
    {| Route.searchParams := [(lit "dryRun", lit "1")];
       Route.request_json :=
         Some (Json.Obj [ (lit "zip_filename", Json.Str (lit "batch.zip"));
                          (lit "trade_date",
                           Json.Obj [ (lit "toString", Json.Null) ]) ]) |}
    Demo.world0 = (Route.unhandled, ticked Demo.world0).
Proof.
  eapply unreadable_body_is_not_validated.
  - split; [reflexivity|].
    exists {| user_id := lit "u1"; user_email := Some (lit "ops@example.com") |}.
    split; reflexivity.
  - reflexivity.
  - reflexivity.
Defined.
